(** * Chat backend: transcript store, streaming relay and route handlers

    A shallow embedding of [src/server.ts] (the current server), of the
    older [handleChatMessages] of [src/index2.ts] and of the stream reader of
    the test client, followed by the properties of the specification that
    can be settled on them.

    Conventions of the model
    - a JavaScript string is a [string]; one character stands for one UTF-16
      code unit, so the model covers text whose code units are below 256;
    - the relational store is a pair of tables kept as lists in insertion
      order; [NOW()] reads a clock that the environment advances by a
      non-negative delay before every statement;
    - everything outside the program (store failures, elapsed time, the model
      provider) is an [Env] the handlers are parameterised by;
    - an [async] handler is a computation in a state-and-exception monad over
      the world (store, clock, log of prompts) and the Express response. *)

From Stdlib Require Import ZArith NArith List String Ascii Bool Arith Lia.
From Stdlib Require Import DecimalString Permutation Sorted.
Import ListNotations.
Open Scope string_scope.
Open Scope Z_scope.

Set Implicit Arguments.

(* ================================================================= *)
(** ** JavaScript strings *)

Module Js.

Definition dquote : string := String (ascii_of_nat 34) EmptyString.
Definition nl : string := String (ascii_of_nat 10) EmptyString.

(** Truthiness of a string value: only the empty string is falsy. *)
Definition truthy (s : string) : bool :=
  match s with EmptyString => false | String _ _ => true end.

(** [a || b] on strings. *)
Definition or (a b : string) : string := if truthy a then a else b.

(** [a || b] where [a] may be [undefined]. *)
Definition or_undef (a : option string) (b : string) : string :=
  match a with Some s => or s b | None => b end.

(** [s.slice(0, n)] for a non-negative [n]. *)
Definition slice0 (n : nat) (s : string) : string := substring 0 n s.

(** White space and line terminators removed by [String.prototype.trim],
    among the code units below 256. *)
Definition is_space (c : ascii) : bool :=
  let n := nat_of_ascii c in
  ((9 <=? n) && (n <=? 13) || (n =? 32) || (n =? 160))%nat.

Fixpoint trimStart (s : string) : string :=
  match s with
  | EmptyString => EmptyString
  | String c r => if is_space c then trimStart r else s
  end.

Fixpoint trimEnd (s : string) : string :=
  match s with
  | EmptyString => EmptyString
  | String c r =>
      match trimEnd r with
      | EmptyString => if is_space c then EmptyString else String c EmptyString
      | r' => String c r'
      end
  end.

Definition trim (s : string) : string := trimEnd (trimStart s).

(** [n.toString()] for an integer. *)
Definition toString (n : Z) : string := NilZero.string_of_int (Z.to_int n).

(** *** [JSON.stringify] on strings and on the event objects *)

Definition hex_digit (n : nat) : ascii :=
  if (n <? 10)%nat then ascii_of_nat (48 + n) else ascii_of_nat (87 + n).

Definition quote_unit (c : ascii) : string :=
  let n := nat_of_ascii c in
  if (n =? 8)%nat then "\b"
  else if (n =? 9)%nat then "\t"
  else if (n =? 10)%nat then "\n"
  else if (n =? 12)%nat then "\f"
  else if (n =? 13)%nat then "\r"
  else if (n =? 34)%nat then "\" ++ dquote
  else if (n =? 92)%nat then "\\"
  else if (n <? 32)%nat then
    "\u00" ++ String (hex_digit (n / 16)) (String (hex_digit (n mod 16)) EmptyString)
  else String c EmptyString.

Fixpoint quote_units (s : string) : string :=
  match s with
  | EmptyString => EmptyString
  | String c r => quote_unit c ++ quote_units r
  end.

Definition stringify_string (s : string) : string :=
  dquote ++ quote_units s ++ dquote.

(** [JSON.stringify] of an object whose fields are all strings, keys in
    insertion order. *)
Fixpoint stringify_fields (fs : list (string * string)) : string :=
  match fs with
  | [] => EmptyString
  | [(k, v)] => stringify_string k ++ ":" ++ stringify_string v
  | (k, v) :: rest =>
      stringify_string k ++ ":" ++ stringify_string v ++ "," ++ stringify_fields rest
  end.

Definition stringify_object (fs : list (string * string)) : string :=
  "{" ++ stringify_fields fs ++ "}".

End Js.

(* ================================================================= *)
(** ** Data model *)

(** Rows of [chats] and [messages] (interfaces [Chat] and [DBMessages]). *)
Record Chat := mkChat {
  chat_id : Z;
  title : string;
  created_at : Z;
  updated_at : Z
}.

Record DBMessages := mkMsg {
  msg_id : Z;
  msg_chat_id : Z;
  role : string;
  content : string;
  msg_created_at : Z
}.

(** Entries of [ChatRequest.messages]. *)
Record Part := mkPart { part_type : string; text : string }.

Record ReqMessage := mkReq {
  req_role : string;
  parts : option (list Part);
  req_content : option string
}.

(** The two tables with their [SERIAL] counters. *)
Record DB := mkDB {
  chats : list Chat;
  messages : list DBMessages;
  next_chat_id : Z;
  next_msg_id : Z
}.

(** The state right after [initializeDatabase]: both tables recreated. *)
Definition empty_db : DB := mkDB [] [] 1 1.

(** *** The Express response *)

(** A message of [GET /chats/:id]: [{id, role, content, parts:[{type,text}]}]. *)
Record UIMessage := mkUI {
  ui_id : string;
  ui_role : string;
  ui_content : string;
  ui_parts : list Part
}.

(** The value handed to [res.json]. *)
Inductive Payload :=
| ErrorBody (error : string) (details : option string)
| ChatRow (c : Chat)
| ChatList (cs : list Chat)
| ChatWithMessages (c : Chat) (ms : list UIMessage).

Record Response := mkRes {
  headersSent : bool;
  statusCode : Z;
  headers : list (string * string);
  written : list string;
  payload : option Payload;
  ended : bool
}.

(** The response a handler starts from. The headers the middleware adds
    (CORS) are left out: no handler reads them, and none of them is
    [X-Chat-Id]. *)
Definition fresh_response : Response := mkRes false 200 [] [] None false.

(** *** The environment *)

(** What [model.stream(prompt)] does: the call is rejected, or it yields the
    contents of its chunks in order and then completes or throws. *)
Inductive Stream :=
| OpenFails (message : string)
| Opened (chunks : list string) (failure : option string).

Record Env := mkEnv {
  fault : nat -> option string;     (* the n-th statement fails with a message *)
  delay : nat -> N;                 (* time elapsed before the n-th statement *)
  gateway : nat -> string -> Stream (* the n-th model call on a prompt *)
}.

Record World := mkWorld {
  db : DB;
  clock : Z;
  stmts : nat;            (* statements issued so far *)
  prompts : list string   (* prompts sent to the model, oldest first *)
}.

Definition State : Type := World * Response.

(* ================================================================= *)
(** ** The monad of handlers *)

Inductive Completion (A : Type) :=
| Normal (a : A)
| Throw (message : string).
Arguments Normal {A} a.
Arguments Throw {A} message.

Definition M (A : Type) : Type := State -> Completion A * State.

Definition ret {A} (a : A) : M A := fun s => (Normal a, s).

Definition throw {A} (msg : string) : M A := fun s => (Throw msg, s).

Definition bind {A B} (m : M A) (k : A -> M B) : M B :=
  fun s =>
    match m s with
    | (Normal a, s') => k a s'
    | (Throw msg, s') => (Throw msg, s')
    end.

(** [try { body } catch (error) { handler(error.message) }] *)
Definition try_catch {A} (body : M A) (handler : string -> M A) : M A :=
  fun s =>
    match body s with
    | (Normal a, s') => (Normal a, s')
    | (Throw msg, s') => handler msg s'
    end.

Declare Scope monad_scope.
Delimit Scope monad_scope with monad.
Notation "x <- c1 ;; c2" := (bind c1 (fun x => c2))
  (at level 61, c1 at next level, right associativity) : monad_scope.
Notation "c1 ;; c2" := (bind c1 (fun _ => c2))
  (at level 61, right associativity) : monad_scope.
Open Scope monad_scope.

(* ================================================================= *)
(** ** The Express response object *)

Definition ERR_HTTP_HEADERS_SENT : string :=
  "Cannot set headers after they are sent to the client".

(** [res.status(code)] *)
Definition res_status (code : Z) : M unit :=
  fun '(w, r) =>
    (Normal tt,
     (w, mkRes (headersSent r) code (headers r) (written r) (payload r) (ended r))).

(** [res.json(p)]: sets the content type, sends the body and ends the
    response; setting a header on a response whose head is out throws. *)
Definition res_json (p : Payload) : M unit :=
  fun '(w, r) =>
    if headersSent r then (Throw ERR_HTTP_HEADERS_SENT, (w, r))
    else
      (Normal tt,
       (w, mkRes true (statusCode r)
             (headers r ++ [("Content-Type", "application/json; charset=utf-8")])
             (written r) (Some p) true)).

(** [res.send()] without a body. *)
Definition res_send : M unit :=
  fun '(w, r) =>
    if headersSent r then (Throw ERR_HTTP_HEADERS_SENT, (w, r))
    else
      (Normal tt,
       (w, mkRes true (statusCode r) (headers r) (written r) (payload r) true)).

(** [res.writeHead(code, hs)] *)
Definition res_writeHead (code : Z) (hs : list (string * string)) : M unit :=
  fun '(w, r) =>
    if headersSent r then (Throw ERR_HTTP_HEADERS_SENT, (w, r))
    else
      (Normal tt,
       (w, mkRes true code (headers r ++ hs) (written r) (payload r) (ended r))).

(** [res.write(chunk)]: the head goes out implicitly with the first chunk;
    a chunk written after the end is discarded (no handler gets there). *)
Definition res_write (chunk : string) : M unit :=
  fun '(w, r) =>
    if ended r then (Normal tt, (w, r))
    else
      (Normal tt,
       (w, mkRes true (statusCode r) (headers r) (written r ++ [chunk])
             (payload r) false)).

(** [res.end()] *)
Definition res_end : M unit :=
  fun '(w, r) =>
    (Normal tt,
     (w, mkRes true (statusCode r) (headers r) (written r) (payload r) true)).

(** [res.headersSent] *)
Definition res_headersSent : M bool :=
  fun '(w, r) => (Normal (headersSent r), (w, r)).

(* ================================================================= *)
(** ** The store: statements of the program as functions on [DB] *)

Module Sql.

(** Stable insertion sort, the order of [ORDER BY]. *)
Fixpoint insert_by {A} (le : A -> A -> bool) (x : A) (l : list A) : list A :=
  match l with
  | [] => [x]
  | y :: r => if le x y then x :: l else y :: insert_by le x r
  end.

Definition sort_by {A} (le : A -> A -> bool) (l : list A) : list A :=
  fold_right (insert_by le) [] l.

Definition varchar_too_long (n : nat) : string :=
  "value too long for type character varying(" ++ Js.toString (Z.of_nat n) ++ ")".

Definition not_null_violation (col : string) : string :=
  "null value in column " ++ col ++ " violates not-null constraint".

Definition foreign_key_violation : string :=
  "insert or update on table messages violates foreign key constraint".

(** [INSERT INTO chats (title) VALUES (t) RETURNING ...] *)
Definition insert_chat (t : string) (now : Z) (d : DB) : Completion Chat * DB :=
  if (255 <? String.length t)%nat then (Throw (varchar_too_long 255), d)
  else
    let c := mkChat (next_chat_id d) t now now in
    (Normal c, mkDB (chats d ++ [c]) (messages d) (next_chat_id d + 1) (next_msg_id d)).

(** [SELECT ... FROM chats WHERE id = i] *)
Definition select_chat (i : Z) (_ : Z) (d : DB) : Completion (list Chat) * DB :=
  (Normal (filter (fun c => chat_id c =? i) (chats d)), d).

(** [SELECT id, title, created_at, updated_at FROM chats ORDER BY updated_at DESC] *)
Definition select_chats (_ : Z) (d : DB) : Completion (list Chat) * DB :=
  (Normal (sort_by (fun a b => updated_at b <=? updated_at a) (chats d)), d).

Definition messages_of (i : Z) (d : DB) : list DBMessages :=
  sort_by (fun a b => msg_created_at a <=? msg_created_at b)
          (filter (fun m => msg_chat_id m =? i) (messages d)).

(** [SELECT ... FROM messages WHERE chat_id = i ORDER BY created_at ASC] *)
Definition select_messages (i : Z) (_ : Z) (d : DB)
  : Completion (list DBMessages) * DB :=
  (Normal (messages_of i d), d).

(** [INSERT INTO messages (chat_id, role, content) VALUES (i, r, c)] *)
Definition insert_message (i : Z) (r c : string) (now : Z) (d : DB)
  : Completion unit * DB :=
  if existsb (fun ch => chat_id ch =? i) (chats d) then
    (Normal tt,
     mkDB (chats d) (messages d ++ [mkMsg (next_msg_id d) i r c now])
          (next_chat_id d) (next_msg_id d + 1))
  else (Throw foreign_key_violation, d).

Definition set_title (i : Z) (t : string) (now : Z) (c : Chat) : Chat :=
  if chat_id c =? i then mkChat (chat_id c) t (created_at c) now else c.

(** [UPDATE chats SET title = t, updated_at = NOW() WHERE id = i RETURNING *];
    an absent title is sent as NULL. *)
Definition update_title (i : Z) (t : option string) (now : Z) (d : DB)
  : Completion (list Chat) * DB :=
  match t with
  | None =>
      if existsb (fun c => chat_id c =? i) (chats d)
      then (Throw (not_null_violation "title"), d)
      else (Normal [], d)
  | Some t =>
      if existsb (fun c => chat_id c =? i) (chats d) && (255 <? String.length t)%nat
      then (Throw (varchar_too_long 255), d)
      else
        let cs := map (set_title i t now) (chats d) in
        (Normal (filter (fun c => chat_id c =? i) cs),
         mkDB cs (messages d) (next_chat_id d) (next_msg_id d))
  end.

Definition touch (i : Z) (now : Z) (c : Chat) : Chat :=
  if chat_id c =? i then mkChat (chat_id c) (title c) (created_at c) now else c.

(** [UPDATE chats SET updated_at = NOW() WHERE id = i] *)
Definition touch_chat (i : Z) (now : Z) (d : DB) : Completion unit * DB :=
  (Normal tt,
   mkDB (map (touch i now) (chats d)) (messages d) (next_chat_id d) (next_msg_id d)).

(** [DELETE FROM chats WHERE id = i], with [ON DELETE CASCADE] on
    [messages.chat_id]. *)
Definition delete_chat (i : Z) (_ : Z) (d : DB) : Completion unit * DB :=
  (Normal tt,
   mkDB (filter (fun c => negb (chat_id c =? i)) (chats d))
        (filter (fun m => negb (msg_chat_id m =? i)) (messages d))
        (next_chat_id d) (next_msg_id d)).

End Sql.

(* ================================================================= *)
(** ** Calls to the outside *)

(** One statement sent through [sql]: the clock advances, the statement
    fails if the environment says so, otherwise it runs at the new time. *)
Definition sql {A} (env : Env) (q : Z -> DB -> Completion A * DB) : M A :=
  fun '(w, r) =>
    let n := stmts w in
    let now := clock w + Z.of_N (delay env n) in
    match fault env n with
    | Some msg => (Throw msg, (mkWorld (db w) now (S n) (prompts w), r))
    | None =>
        let '(c, d) := q now (db w) in
        (c, (mkWorld d now (S n) (prompts w), r))
    end.

(** [await model.stream(prompt)] *)
Definition model_stream (env : Env) (prompt : string)
  : M (list string * option string) :=
  fun '(w, r) =>
    let w' := mkWorld (db w) (clock w) (stmts w) (prompts w ++ [prompt]) in
    match gateway env (List.length (prompts w)) prompt with
    | OpenFails msg => (Throw msg, (w', r))
    | Opened cs f => (Normal (cs, f), (w', r))
    end.

(* ================================================================= *)
(** ** Code shared by [server.ts] and [index2.ts] *)

Module Common.

Definition is_user (m : ReqMessage) : bool := (req_role m =? "user")%string.

(** [messages.filter(m => m.role === "user").pop()] *)
Definition currentUserMessage (messages : list ReqMessage) : option ReqMessage :=
  match rev (filter is_user messages) with
  | [] => None
  | m :: _ => Some m
  end.

(** [m.parts?.[0]?.text] *)
Definition first_part_text (m : ReqMessage) : option string :=
  match parts m with
  | Some (p :: _) => Some (text p)
  | _ => None
  end.

(** The title computed by [POST /chat]. *)
Definition new_chat_title (messages : list ReqMessage) : string :=
  let firstUserMessage := find is_user messages in
  Js.or_undef
    (option_map (Js.slice0 50)
       (match firstUserMessage with Some m => first_part_text m | None => None end))
    (Js.or_undef
       (option_map (Js.slice0 50)
          (match firstUserMessage with Some m => req_content m | None => None end))
       "New Chat").

Definition preamble : string :=
  "You are a helpful AI assistant. Here is the conversation history:"
  ++ Js.nl ++ Js.nl.

(** One step of the [forEach]: [`${msg.role}: ${msg.content}\n\n`]. *)
Definition render (msg : DBMessages) : string :=
  role msg ++ ": " ++ content msg ++ Js.nl ++ Js.nl.

Definition history (allMessages : list DBMessages) : string :=
  fold_left (fun conversationContext msg => conversationContext ++ render msg)
            allMessages preamble.

(** Event framing. *)
Definition text_delta (content : string) : string :=
  "data: "
  ++ Js.stringify_object [("type", "text-delta"); ("textDelta", content)]
  ++ Js.nl ++ Js.nl.

Definition done_event : string := "data: [DONE]" ++ Js.nl ++ Js.nl.

Definition error_event (message : string) : string :=
  "data: "
  ++ Js.stringify_object
       [("type", "error"); ("error", "AI Service Error"); ("details", message)]
  ++ Js.nl ++ Js.nl.

Definition stream_head (chatId : Z) : list (string * string) :=
  [("Content-Type", "text/event-stream");
   ("Cache-Control", "no-cache");
   ("Connection", "keep-alive");
   ("Access-Control-Allow-Origin", "*");
   ("X-Chat-Id", Js.toString chatId)].

(** The [for await (const chunk of stream)] loop; the result is
    [fullResponse]. *)
Fixpoint for_await (chunks : list string) (failure : option string)
         (fullResponse : string) : M string :=
  match chunks with
  | [] =>
      match failure with
      | Some msg => throw msg
      | None => ret fullResponse
      end
  | content :: rest =>
      if Js.truthy content then
        res_write (text_delta content) ;;
        for_await rest failure (fullResponse ++ content)
      else for_await rest failure fullResponse
  end.

(** What follows the loop in both files. *)
Definition finish (env : Env) (chatId : Z) (fullResponse : string) : M unit :=
  res_write done_event ;;
  (if Js.truthy (Js.trim fullResponse)
   then sql env (Sql.insert_message chatId "assistant" fullResponse)
   else ret tt) ;;
  sql env (Sql.touch_chat chatId) ;;
  res_end.

Definition to_ui (m : DBMessages) : UIMessage :=
  mkUI (Js.toString (msg_id m)) (role m) (content m) [mkPart "text" (content m)].

Definition internal_error : Payload := ErrorBody "Internal Server Error" None.

Definition not_found : Payload := ErrorBody "Chat not found" None.

(** [app.get("/chats")] *)
Definition get_chats (env : Env) : M unit :=
  try_catch
    (cs <- sql env Sql.select_chats ;;
     res_json (ChatList cs))
    (fun _ => res_status 500 ;; res_json internal_error).

(** [app.get("/chats/:id")] *)
Definition get_chat (env : Env) (id : Z) : M unit :=
  try_catch
    (chat <- sql env (Sql.select_chat id) ;;
     match chat with
     | [] => res_status 404 ;; res_json not_found
     | c :: _ =>
         ms <- sql env (Sql.select_messages id) ;;
         res_json (ChatWithMessages c (map to_ui ms))
     end)
    (fun _ => res_status 500 ;; res_json internal_error).

(** [app.post("/chats")]; an absent title defaults to ["New Chat"]. *)
Definition post_chats (env : Env) (title : option string) : M unit :=
  let title := match title with Some t => t | None => "New Chat" end in
  try_catch
    (newChat <- sql env (Sql.insert_chat title) ;;
     res_status 201 ;; res_json (ChatRow newChat))
    (fun _ => res_status 500 ;; res_json internal_error).

(** [app.put("/chats/:id")] *)
Definition put_chat (env : Env) (id : Z) (title : option string) : M unit :=
  try_catch
    (updatedChat <- sql env (Sql.update_title id title) ;;
     match updatedChat with
     | [] => res_status 404 ;; res_json not_found
     | c :: _ => res_json (ChatRow c)
     end)
    (fun _ => res_status 500 ;; res_json internal_error).

(** [app.delete("/chats/:id")] *)
Definition delete_chat (env : Env) (id : Z) : M unit :=
  try_catch
    (sql env (Sql.delete_chat id) ;;
     res_status 204 ;; res_send)
    (fun _ => res_status 500 ;; res_json internal_error).

Section SendRoutes.

Variable handleChatMessages : Z -> list ReqMessage -> bool -> M unit.

Definition messages_or_empty (messages : option (list ReqMessage))
  : list ReqMessage :=
  match messages with Some ms => ms | None => [] end.

(** [app.post("/chat")] *)
Definition post_chat (env : Env) (messages : option (list ReqMessage)) : M unit :=
  let messages := messages_or_empty messages in
  try_catch
    (let title := new_chat_title messages in
     newChat <- sql env (Sql.insert_chat title) ;;
     let currentChatId := chat_id newChat in
     handleChatMessages currentChatId messages true)
    (fun message =>
       res_status 500 ;;
       res_json (ErrorBody "Internal Server Error" (Some message))).

(** [app.post("/chat/:chatId")] *)
Definition post_chat_id (env : Env) (chatId : Z)
           (messages : option (list ReqMessage)) : M unit :=
  let messages := messages_or_empty messages in
  try_catch
    (let currentChatId := chatId in
     existingChat <- sql env (Sql.select_chat currentChatId) ;;
     match existingChat with
     | [] => res_status 404 ;; res_json not_found
     | _ :: _ => handleChatMessages currentChatId messages false
     end)
    (fun message =>
       res_status 500 ;;
       res_json (ErrorBody "Internal Server Error" (Some message))).

End SendRoutes.

End Common.

(** Requests of the HTTP surface; the [:id] segment is taken as the integer
    it denotes. *)
Inductive Request :=
| GET_chats
| GET_chats_id (id : Z)
| POST_chats (title : option string)
| PUT_chats_id (id : Z) (title : option string)
| DELETE_chats_id (id : Z)
| POST_chat (messages : option (list ReqMessage))
| POST_chat_id (chatId : Z) (messages : option (list ReqMessage)).

(* ================================================================= *)
(** ** [server.ts] *)

Module Server.
Import Common.

(** [currentUserMessage.content || ""] *)
Definition userMessageText (currentUserMessage : ReqMessage) : string :=
  Js.or_undef (req_content currentUserMessage) EmptyString.

(** The body of the [try] block. *)
Definition attempt (env : Env) (chatId : Z) (userMessageText : string) : M unit :=
  sql env (Sql.insert_message chatId "user" userMessageText) ;;
  allMessages <- sql env (Sql.select_messages chatId) ;;
  let conversationContext := history allMessages ++ "assistant:" in
  res_writeHead 200 (stream_head chatId) ;;
  stream <- model_stream env conversationContext ;;
  fullResponse <- for_await (fst stream) (snd stream) EmptyString ;;
  finish env chatId fullResponse.

(** The [catch] block. *)
Definition report (message : string) : M unit :=
  sent <- res_headersSent ;;
  if sent then res_write (error_event message) ;; res_end
  else
    res_status 500 ;;
    res_json (ErrorBody "AI Service Error" (Some message)).

Definition handleChatMessages (env : Env) (chatId : Z)
           (messages : list ReqMessage) (isNewChat : bool) : M unit :=
  match currentUserMessage messages with
  | None =>
      res_status 400 ;; res_json (ErrorBody "No user message provided" None)
  | Some currentUserMessage =>
      try_catch (attempt env chatId (userMessageText currentUserMessage)) report
  end.

Definition handle (env : Env) (req : Request) : M unit :=
  match req with
  | GET_chats => get_chats env
  | GET_chats_id id => get_chat env id
  | POST_chats t => post_chats env t
  | PUT_chats_id id t => put_chat env id t
  | DELETE_chats_id id => delete_chat env id
  | POST_chat ms => post_chat (handleChatMessages env) env ms
  | POST_chat_id id ms => post_chat_id (handleChatMessages env) env id ms
  end.

End Server.

(* ================================================================= *)
(** ** [index2.ts] *)

Module Index2.
Import Common.

(** [currentUserMessage.parts?.[0]?.text || currentUserMessage.content || ""] *)
Definition userMessageText (currentUserMessage : ReqMessage) : string :=
  Js.or_undef (first_part_text currentUserMessage)
    (Js.or_undef (req_content currentUserMessage) EmptyString).

(** The body of the [try] block. *)
Definition attempt (env : Env) (chatId : Z) (userMessageText : string)
           (allMessages : list DBMessages) : M unit :=
  let conversationContext :=
    history allMessages
    ++ "user: " ++ userMessageText ++ Js.nl ++ Js.nl ++ "assistant:" in
  stream <- model_stream env conversationContext ;;
  res_writeHead 200 (stream_head chatId) ;;
  fullResponse <- for_await (fst stream) (snd stream) EmptyString ;;
  finish env chatId fullResponse.

(** The [catch] block. *)
Definition report (message : string) : M unit :=
  res_write (error_event message) ;; res_end.

Definition handleChatMessages (env : Env) (chatId : Z)
           (messages : list ReqMessage) (isNewChat : bool) : M unit :=
  match currentUserMessage messages with
  | None =>
      res_status 400 ;; res_json (ErrorBody "No user message provided" None)
  | Some currentUserMessage =>
      let text := userMessageText currentUserMessage in
      sql env (Sql.insert_message chatId "user" text) ;;
      allMessages <- sql env (Sql.select_messages chatId) ;;
      try_catch (attempt env chatId text allMessages) report
  end.

Definition handle (env : Env) (req : Request) : M unit :=
  match req with
  | GET_chats => get_chats env
  | GET_chats_id id => get_chat env id
  | POST_chats t => post_chats env t
  | PUT_chats_id id t => put_chat env id t
  | DELETE_chats_id id => delete_chat env id
  | POST_chat ms => post_chat (handleChatMessages env) env ms
  | POST_chat_id id ms => post_chat_id (handleChatMessages env) env id ms
  end.

End Index2.

(** A request is served on a fresh response object. *)
Definition serve (h : Env -> Request -> M unit) (env : Env) (req : Request)
           (w : World) : Completion unit * State :=
  h env req (w, fresh_response).

Fixpoint serve_all (h : Env -> Request -> M unit) (env : Env)
         (reqs : list Request) (w : World) : World :=
  match reqs with
  | [] => w
  | req :: rest => serve_all h env rest (fst (snd (serve h env req w)))
  end.

Definition initial_world (t0 : Z) : World := mkWorld empty_db t0 0 [].

(* ================================================================= *)
(** ** The test client, [sendMessage] ([part_000]) *)

(** String methods the client uses. *)
Module Text.

(** [s.slice(n)] for a non-negative [n]. *)
Fixpoint slice (n : nat) (s : string) : string :=
  match n, s with
  | O, _ => s
  | S n', String _ r => slice n' r
  | S _, EmptyString => EmptyString
  end.

(** [s.startsWith(p)] *)
Definition startsWith (p s : string) : bool := String.prefix p s.

(** The first line of [s] and the lines after it, lines being separated by
    the line feed. *)
Fixpoint lines (s : string) : string * list string :=
  match s with
  | EmptyString => (EmptyString, [])
  | String c r =>
      let '(first, others) := lines r in
      if (nat_of_ascii c =? 10)%nat then (EmptyString, first :: others)
      else (String c first, others)
  end.

(** [s.split("\n")] *)
Definition split_nl (s : string) : list string :=
  fst (lines s) :: snd (lines s).

End Text.

(** [JSON.parse] on the texts [JSON.stringify] gives for objects whose
    fields are all strings: no white space between the tokens, and escapes
    that denote code units below 256. On any other text the model gives
    [None]; the client treats a text that does not parse as a line to
    skip. *)
Module Json.

Inductive Token :=
| TOpen
| TClose
| TColon
| TComma
| TStr (s : string).

Definition hex_value (c : ascii) : option nat :=
  let n := nat_of_ascii c in
  if ((48 <=? n) && (n <=? 57))%nat then Some (n - 48)%nat
  else if ((97 <=? n) && (n <=? 102))%nat then Some (n - 87)%nat
  else if ((65 <=? n) && (n <=? 70))%nat then Some (n - 55)%nat
  else None.

(** The code unit of [\uXXXX]. *)
Definition code_unit (h1 h2 h3 h4 : ascii) : option ascii :=
  match hex_value h1, hex_value h2, hex_value h3, hex_value h4 with
  | Some a, Some b, Some c, Some d =>
      let u := (((a * 16 + b) * 16 + c) * 16 + d)%nat in
      if (u <? 256)%nat then Some (ascii_of_nat u) else None
  | _, _, _, _ => None
  end.

(** The code unit of a two-character escape. *)
Definition escape (e : ascii) : option ascii :=
  let k := nat_of_ascii e in
  if ((k =? 34) || (k =? 92) || (k =? 47))%nat then Some e
  else if (k =? 98)%nat then Some (ascii_of_nat 8)
  else if (k =? 102)%nat then Some (ascii_of_nat 12)
  else if (k =? 110)%nat then Some (ascii_of_nat 10)
  else if (k =? 114)%nat then Some (ascii_of_nat 13)
  else if (k =? 116)%nat then Some (ascii_of_nat 9)
  else None.

Definition snoc (s : string) (c : ascii) : string := s ++ String c EmptyString.

(** The tokens of a text; [lit] holds the units of the string literal being
    read, if any. *)
Fixpoint scan (s : string) (lit : option string) : option (list Token) :=
  match s with
  | EmptyString =>
      match lit with
      | None => Some []
      | Some _ => None
      end
  | String c r =>
      let n := nat_of_ascii c in
      match lit with
      | None =>
          if (n =? 34)%nat then scan r (Some EmptyString)
          else if (n =? 123)%nat then option_map (cons TOpen) (scan r None)
          else if (n =? 125)%nat then option_map (cons TClose) (scan r None)
          else if (n =? 58)%nat then option_map (cons TColon) (scan r None)
          else if (n =? 44)%nat then option_map (cons TComma) (scan r None)
          else None
      | Some units =>
          if (n =? 34)%nat then option_map (cons (TStr units)) (scan r None)
          else if (n =? 92)%nat then
            match r with
            | EmptyString => None
            | String e r1 =>
                if (nat_of_ascii e =? 117)%nat then
                  match r1 with
                  | String h1 (String h2 (String h3 (String h4 r2))) =>
                      match code_unit h1 h2 h3 h4 with
                      | Some u => scan r2 (Some (snoc units u))
                      | None => None
                      end
                  | _ => None
                  end
                else
                  match escape e with
                  | Some u => scan r1 (Some (snoc units u))
                  | None => None
                  end
            end
          else if (n <? 32)%nat then None
          else scan r (Some (snoc units c))
      end
  end.

(** The fields after the opening brace. *)
Fixpoint fields (ts : list Token) : option (list (string * string)) :=
  match ts with
  | TStr k :: TColon :: TStr v :: rest =>
      match rest with
      | [TClose] => Some [(k, v)]
      | TComma :: rest' => option_map (cons (k, v)) (fields rest')
      | _ => None
      end
  | _ => None
  end.

Definition parse (s : string) : option (list (string * string)) :=
  match scan s None with
  | Some [TOpen; TClose] => Some []
  | Some (TOpen :: ts) => fields ts
  | _ => None
  end.

(** [parsed[k]]: of two fields of one name the later one counts. *)
Definition get (k : string) (fs : list (string * string)) : option string :=
  option_map snd (find (fun kv => (fst kv =? k)%string) (rev fs)).

End Json.

Module Client.

(** The body of the loop over the lines of a chunk; the value is
    [fullResponse]. *)
Definition on_line (fullResponse line : string) : string :=
  if Text.startsWith "data: " line then
    let data := Js.trim (Text.slice 6 line) in
    if (data =? "[DONE]")%string then fullResponse
    else
      match Json.parse data with
      | Some parsed =>
          match Json.get "textDelta" parsed with
          | Some textDelta =>
              if Js.truthy textDelta then fullResponse ++ textDelta
              else fullResponse
          | None => fullResponse
          end
      | None => fullResponse
      end
  else fullResponse.

(** [response.data.on('data', chunk => ...)] *)
Definition on_data (fullResponse chunk : string) : string :=
  fold_left on_line (Text.split_nl chunk) fullResponse.

(** What the promise of [sendMessage] resolves with when the body arrives
    as the chunks [body]. *)
Definition sendMessage (body : list string) : string :=
  fold_left on_data body EmptyString.

End Client.

(* ================================================================= *)
(** * Vocabulary of the properties *)

(** ** Strings and ordered lists *)

(** Left-to-right concatenation of a list of strings. *)
Definition join (l : list string) : string := fold_right append EmptyString l.

(** Non-decreasing keys along the list. *)
Fixpoint ascending {A} (key : A -> Z) (l : list A) : Prop :=
  match l with
  | [] => True
  | x :: r => Forall (fun y => key x <= key y) r /\ ascending key r
  end.

(** ** The states a handler goes through *)

(** The time the next statement runs at. *)
Definition now (env : Env) (w : World) : Z :=
  clock w + Z.of_N (delay env (stmts w)).

(** No statement fails from the current one on. *)
Definition quiet (env : Env) (w : World) : Prop :=
  forall k, (stmts w <= k)%nat -> fault env k = None.

Definition has_chat (i : Z) (w : World) : bool :=
  existsb (fun c => chat_id c =? i) (chats (db w)).

(** The world after a statement that succeeded. *)
Definition after_read (env : Env) (w : World) : World :=
  mkWorld (db w) (now env w) (S (stmts w)) (prompts w).

Definition after_insert_message (env : Env) (i : Z) (r c : string) (w : World)
  : World :=
  mkWorld
    (mkDB (chats (db w))
          (messages (db w) ++ [mkMsg (next_msg_id (db w)) i r c (now env w)])
          (next_chat_id (db w)) (next_msg_id (db w) + 1))
    (now env w) (S (stmts w)) (prompts w).

Definition after_touch (env : Env) (i : Z) (w : World) : World :=
  mkWorld
    (mkDB (map (Sql.touch i (now env w)) (chats (db w))) (messages (db w))
          (next_chat_id (db w)) (next_msg_id (db w)))
    (now env w) (S (stmts w)) (prompts w).

Definition after_insert_chat (env : Env) (t : string) (w : World) : World :=
  mkWorld
    (mkDB (chats (db w) ++ [mkChat (next_chat_id (db w)) t (now env w) (now env w)])
          (messages (db w)) (next_chat_id (db w) + 1) (next_msg_id (db w)))
    (now env w) (S (stmts w)) (prompts w).

Definition after_delete (env : Env) (i : Z) (w : World) : World :=
  mkWorld
    (mkDB (filter (fun c => negb (chat_id c =? i)) (chats (db w)))
          (filter (fun m => negb (msg_chat_id m =? i)) (messages (db w)))
          (next_chat_id (db w)) (next_msg_id (db w)))
    (now env w) (S (stmts w)) (prompts w).

(** The world after a prompt went to the model. *)
Definition after_prompt (prompt : string) (w : World) : World :=
  mkWorld (db w) (clock w) (stmts w) (prompts w ++ [prompt]).

(** The response while events are flowing. *)
Definition streaming (r : Response) (events : list string) : Response :=
  mkRes true (statusCode r) (headers r) (written r ++ events) (payload r) false.

Definition closed (r : Response) : Response :=
  mkRes true (statusCode r) (headers r) (written r) (payload r) true.

(** The world after the reply was stored, or skipped. *)
Definition reply_stored (env : Env) (i : Z) (fullResponse : string) (w : World)
  : World :=
  if Js.truthy (Js.trim fullResponse)
  then after_insert_message env i "assistant" fullResponse w
  else w.

(** The states of a send of [server.ts] that completes. *)
Module ServerRun.

(** The prompt [server.ts] builds for a chat once the user row is in. *)
Definition context (env : Env) (i : Z) (text : string) (w : World) : string :=
  Common.history
    (Sql.messages_of i (db (after_insert_message env i "user" text w)))
  ++ "assistant:".

(** The world when the stream has been opened. *)
Definition asked (env : Env) (i : Z) (text : string) (w : World) : World :=
  after_prompt (context env i text w)
    (after_read env (after_insert_message env i "user" text w)).

Definition final (env : Env) (i : Z) (text : string) (chunks : list string)
           (w : World) : World :=
  after_touch env i (reply_stored env i (join chunks) (asked env i text w)).

Definition events (chunks : list string) : list string :=
  map Common.text_delta (filter Js.truthy chunks) ++ [Common.done_event].

End ServerRun.

(** ** Invariants of the store *)

(** What holds of the tables at a time [t] of the clock: timestamps are in
    the past, a chat was not updated before it was created, identifiers
    come from the counter, and messages sit in the table by creation time. *)
Definition wf_db (d : DB) (t : Z) : Prop :=
  Forall (fun c => created_at c <= updated_at c /\ updated_at c <= t
                   /\ chat_id c < next_chat_id d) (chats d)
  /\ NoDup (map chat_id (chats d))
  /\ ascending msg_created_at (messages d)
  /\ Forall (fun m => msg_created_at m <= t) (messages d).

(** How the [chats] table may evolve: identifiers are never reused, and a
    chat that is still there was created when it was created. *)
Definition grows_db (d d' : DB) : Prop :=
  next_chat_id d <= next_chat_id d'
  /\ forall c', In c' (chats d') -> chat_id c' < next_chat_id d ->
       exists c, In c (chats d) /\ chat_id c = chat_id c'
                 /\ created_at c = created_at c'.

Definition wf (w : World) : Prop := wf_db (db w) (clock w).

Definition sound (w w' : World) : Prop :=
  clock w <= clock w'
  /\ (wf w -> wf w' /\ grows_db (db w) (db w')).

(** A statement is sound when running it at a later time keeps the
    invariant and only lets the tables grow as allowed. *)
Definition sound_query {A} (q : Z -> DB -> Completion A * DB) : Prop :=
  forall d t now, t <= now -> wf_db d t ->
    wf_db (snd (q now d)) now /\ grows_db d (snd (q now d)).

(** A computation keeps the invariants when every run of it does. *)
Definition keeps {A} (m : M A) : Prop :=
  forall w r, sound w (fst (snd (m (w, r)))).

(** ** The statements of the program, in any interleaving *)

(** The eight statements the handlers send to the store. Whatever the
    interleaving of concurrent requests, the store sees a sequence of
    these. *)
Inductive Statement :=
| InsertChat (t : string)
| SelectChat (i : Z)
| SelectChats
| SelectMessages (i : Z)
| InsertMessage (i : Z) (r c : string)
| UpdateTitle (i : Z) (t : option string)
| TouchChat (i : Z)
| DeleteChat (i : Z).

Definition exec (st : Statement) (now : Z) (d : DB) : DB :=
  match st with
  | InsertChat t => snd (Sql.insert_chat t now d)
  | SelectChat i => snd (Sql.select_chat i now d)
  | SelectChats => snd (Sql.select_chats now d)
  | SelectMessages i => snd (Sql.select_messages i now d)
  | InsertMessage i r c => snd (Sql.insert_message i r c now d)
  | UpdateTitle i t => snd (Sql.update_title i t now d)
  | TouchChat i => snd (Sql.touch_chat i now d)
  | DeleteChat i => snd (Sql.delete_chat i now d)
  end.

(** Statements run one after another, each after the delay it comes with;
    the result is the store and the time of the clock. *)
Fixpoint exec_all (sts : list (Statement * N)) (t : Z) (d : DB) : DB * Z :=
  match sts with
  | [] => (d, t)
  | (st, dt) :: rest => exec_all rest (t + Z.of_N dt) (exec st (t + Z.of_N dt) d)
  end.

(** ** The response while a handler runs *)

(** The response is still open, and nothing went out as long as the head
    has not been written. *)
Definition live (r : Response) : Prop :=
  ended r = false
  /\ (headersSent r = false -> written r = [] /\ payload r = None).

Definition stays_live {A} (m : M A) : Prop :=
  forall w r, live r -> live (snd (snd (m (w, r)))).

Definition live_on_throw {A} (m : M A) : Prop :=
  forall w r msg s', live r -> m (w, r) = (Throw msg, s') -> live (snd s').

Definition ends_on_return {A} (m : M A) : Prop :=
  forall w r a s', m (w, r) = (Normal a, s') -> ended (snd s') = true.

(** The response [server.ts] gives for a failure caught with the response in
    state [r]. *)
Definition reported (msg : string) (r : Response) : Response :=
  if headersSent r
  then closed (streaming r [Common.error_event msg])
  else mkRes true 500
         (headers r ++ [("Content-Type", "application/json; charset=utf-8")])
         (written r) (Some (ErrorBody "AI Service Error" (Some msg))) true.

(** ** Concrete worlds for the examples *)

Module Example.

(** No store failure, one unit of time per statement, one fixed answer of
    the model. *)
Definition steady (s : Stream) : Env :=
  mkEnv (fun _ => None) (fun _ => 1%N) (fun _ _ => s).

(** The store after [POST /chats {title: "Test"}] on the fresh database. *)
Definition one_chat : World :=
  fst (snd (serve Server.handle (steady (Opened [] None))
                  (POST_chats (Some "Test")) (initial_world 100))).

Definition says (s : string) : ReqMessage := mkReq "user" None (Some s).

(** The shape the test client sends. *)
Definition says_parts (s : string) : ReqMessage :=
  mkReq "user" (Some [mkPart "text" s]) None.

Definition sixty : string :=
  "123456789012345678901234567890123456789012345678901234567890".

End Example.

(** ** The claims as worded, and the specification's own definitions *)

(** The claim as worded: one event per fragment. *)
Definition one_event_per_fragment (env : Env) (i : Z) (ms : list ReqMessage)
           (chunks : list string) (w : World) : Prop :=
  written (snd (snd (Server.handleChatMessages env i ms false (w, fresh_response))))
  = (map Common.text_delta chunks ++ [Common.done_event])%list.

(** The environment whose model yields the same streams without their
    empty fragments. *)
Definition drop_empty (env : Env) : Env :=
  mkEnv (fault env) (delay env)
        (fun n prompt =>
           match gateway env n prompt with
           | OpenFails msg => OpenFails msg
           | Opened chunks failure => Opened (filter Js.truthy chunks) failure
           end).

(** The claim as worded: the reply is stored exactly when the accumulated
    text is not empty. *)
Definition reply_stored_iff_nonempty (env : Env) (i : Z) (ms : list ReqMessage)
           (chunks : list string) (w : World) : Prop :=
  let w' := fst (snd (Server.handleChatMessages env i ms false (w, fresh_response))) in
  existsb (fun m => (role m =? "assistant")%string) (messages (db w')) = true
  <-> join chunks <> EmptyString.

(** The context string in the words of the specification: the preamble,
    each entry rendered as [role: content] and closed by a blank line, then
    the [assistant:] cue. *)
Definition spec_context (entries : list DBMessages) : string :=
  Common.preamble ++ join (map Common.render entries) ++ "assistant:".

(** The rule in the words of the specification: the text of the first part
    when there is one, else the flat content, else the empty string; a field
    holding the empty string counts as absent, as [||] has it. *)
Definition spec_text (m : ReqMessage) : string :=
  match Common.first_part_text m with
  | Some (String c s) => String c s
  | _ =>
      match req_content m with
      | Some (String c s) => String c s
      | _ => EmptyString
      end
  end.

Definition json_head : list (string * string) :=
  [("Content-Type", "application/json; charset=utf-8")].

Definition no_content : Response := mkRes true 204 [] [] None true.

Definition chat_not_found : Response :=
  mkRes true 404 json_head [] (Some Common.not_found) true.

Definition bad_request : Response :=
  mkRes true 400 json_head [] (Some (ErrorBody "No user message provided" None)) true.

(** The claim as worded: a send without user entry leaves the store as it
    was. *)
Definition no_side_effect (env : Env) (req : Request) (w : World) : Prop :=
  db (fst (snd (serve Server.handle env req w))) = db w.

(** The claim as worded: the answer to [POST /chat] carries the chat id in
    a header. *)
Definition carries_chat_id (env : Env) (ms : option (list ReqMessage))
           (w : World) : Prop :=
  exists v,
    In ("X-Chat-Id", v) (headers (snd (snd (serve Server.handle env (POST_chat ms) w)))).

(** ** Relations between the store before and after a handler *)

(** A statement respects [R] when the store it leaves is related to the
    store it found, whenever it runs. *)
Definition respects {A} (R : DB -> DB -> Prop) (q : Z -> DB -> Completion A * DB)
  : Prop :=
  forall now d, R d (snd (q now d)).

(** A computation respects [R] when every run of it does, whatever the
    environment answers. *)
Definition db_keeps {A} (R : DB -> DB -> Prop) (m : M A) : Prop :=
  forall w r, R (db w) (db (fst (snd (m (w, r))))).

(** Every message belongs to a chat of the table. *)
Definition refs_ok (d : DB) : Prop :=
  Forall (fun m => existsb (fun c => chat_id c =? msg_chat_id m) (chats d) = true)
         (messages d).

(** Every message has one of the two roles. *)
Definition roles_ok (d : DB) : Prop :=
  Forall (fun m => role m = "user" \/ role m = "assistant") (messages d).

(** Message identifiers are distinct and come from the counter. *)
Definition msg_ids_ok (d : DB) : Prop :=
  NoDup (map msg_id (messages d))
  /\ Forall (fun m => msg_id m < next_msg_id d) (messages d).

Definition integrity (d : DB) : Prop := refs_ok d /\ roles_ok d /\ msg_ids_ok d.

(** The rows of the other chats, and their messages, are the same. *)
Definition same_elsewhere (i : Z) (d d' : DB) : Prop :=
  filter (fun c => negb (chat_id c =? i)) (chats d')
  = filter (fun c => negb (chat_id c =? i)) (chats d)
  /\ filter (fun m => negb (msg_chat_id m =? i)) (messages d')
     = filter (fun m => negb (msg_chat_id m =? i)) (messages d).

(** The [messages] table only grew at its end, by rows with new ids. *)
Definition appended (d d' : DB) : Prop :=
  next_msg_id d <= next_msg_id d'
  /\ exists suffix,
       messages d' = (messages d ++ suffix)%list
       /\ Forall (fun m => next_msg_id d <= msg_id m < next_msg_id d') suffix.

(** The same, the new rows being messages of chat [i]. *)
Definition appended_to (i : Z) (d d' : DB) : Prop :=
  next_msg_id d <= next_msg_id d'
  /\ exists suffix,
       messages d' = (messages d ++ suffix)%list
       /\ Forall (fun m => msg_chat_id m = i
                           /\ next_msg_id d <= msg_id m < next_msg_id d') suffix.

(** The [messages] table and its counter are as they were. *)
Definition same_messages (d d' : DB) : Prop :=
  messages d' = messages d /\ next_msg_id d' = next_msg_id d.

(** What each request may do to the [messages] table. *)
Definition messages_effect (req : Request) (d d' : DB) : Prop :=
  match req with
  | DELETE_chats_id i =>
      messages d' = messages d
      \/ messages d' = filter (fun m => negb (msg_chat_id m =? i)) (messages d)
  | POST_chat _ => appended d d'
  | POST_chat_id i _ => appended_to i d d'
  | _ => same_messages d d'
  end.

(** ** Calls to the model *)




(** ** The answers of the reading routes *)

(** Most recently updated first. *)
Definition newest_first (cs : list Chat) : Prop :=
  StronglySorted (fun a b => updated_at b <= updated_at a) cs.

Definition ok_json (p : Payload) : Response :=
  mkRes true 200 json_head [] (Some p) true.

Definition created_json (p : Payload) : Response :=
  mkRes true 201 json_head [] (Some p) true.

(** The world after a title update that found its chat. *)
Definition after_update_title (env : Env) (i : Z) (t : string) (w : World) : World :=
  mkWorld
    (mkDB (map (Sql.set_title i t (now env w)) (chats (db w))) (messages (db w))
          (next_chat_id (db w)) (next_msg_id (db w)))
    (now env w) (S (stmts w)) (prompts w).

(** The messages of chat [i], in the order the table holds them. *)
Definition own_messages (i : Z) (d : DB) : list DBMessages :=
  filter (fun m => msg_chat_id m =? i) (messages d).

(** The requests that name chat [i] and answer 404 when it is missing; a
    title is within the width of its column. *)
Definition addresses (i : Z) (req : Request) : Prop :=
  match req with
  | GET_chats_id j => j = i
  | PUT_chats_id j (Some t) => j = i /\ (String.length t <= 255)%nat
  | POST_chat_id j _ => j = i
  | _ => False
  end.

(** The model call fails with [msg]: it is rejected, or the stream breaks. *)
Definition model_fails (msg : string) (s : Stream) : Prop :=
  match s with
  | OpenFails msg' => msg' = msg
  | Opened _ (Some msg') => msg' = msg
  | Opened _ None => False
  end.

(** ** The event stream as the client reads it *)

(** A text without line feed. *)
Fixpoint one_line (s : string) : bool :=
  match s with
  | EmptyString => true
  | String c r => negb (nat_of_ascii c =? 10)%nat && one_line r
  end.

(** The three events a send writes. *)
Inductive Event :=
| Delta (content : string)
| Done
| Failed (message : string).

Definition event_text (e : Event) : string :=
  match e with
  | Delta content => Common.text_delta content
  | Done => Common.done_event
  | Failed message => Common.error_event message
  end.

(** The line of an event, without the blank line that closes it. *)
Definition event_line (e : Event) : string :=
  match e with
  | Delta content =>
      "data: " ++ Js.stringify_object [("type", "text-delta"); ("textDelta", content)]
  | Done => "data: [DONE]"
  | Failed message =>
      "data: "
      ++ Js.stringify_object
           [("type", "error"); ("error", "AI Service Error"); ("details", message)]
  end.

(** The text an event carries for the reader. *)
Definition carried (e : Event) : string :=
  match e with
  | Delta content => content
  | _ => EmptyString
  end.

(** The tokens of the fields of an object. *)
Fixpoint field_tokens (fs : list (string * string)) : list Json.Token :=
  match fs with
  | [] => []
  | [(k, v)] => [Json.TStr k; Json.TColon; Json.TStr v]
  | (k, v) :: rest =>
      Json.TStr k :: Json.TColon :: Json.TStr v :: Json.TComma :: field_tokens rest
  end.

(** ** The two shapes of an answer to a send *)




(** The handlers insert messages under two roles only. *)
Definition sent_by_handler (st : Statement) : Prop :=
  match st with
  | InsertMessage _ r _ => r = "user" \/ r = "assistant"
  | _ => True
  end.

(* ================================================================= *)
(** * Properties *)

(** ** Strings and lists *)

Lemma append_nil_r (s : string) : s ++ EmptyString = s.
Proof. induction s as [|c s IH]; simpl; [reflexivity | now rewrite IH]. Qed.

Lemma append_assoc (a b c : string) : (a ++ b) ++ c = a ++ b ++ c.
Proof. induction a as [|x a IH]; simpl; [reflexivity | now rewrite IH]. Qed.

Lemma join_truthy (l : list string) : join (filter Js.truthy l) = join l.
Proof.
  induction l as [|x l IH]; simpl; [reflexivity|].
  destruct x as [|c x]; simpl; [exact IH | now rewrite IH].
Qed.

Lemma filter_all_truthy (l : list string) :
  Forall (fun s => s <> EmptyString) l -> filter Js.truthy l = l.
Proof.
  induction 1 as [|x l Hx _ IH]; simpl; [reflexivity|].
  destruct x; [congruence | simpl; now rewrite IH].
Qed.

Lemma fold_history (ms : list DBMessages) (acc : string) :
  fold_left (fun ctx msg => ctx ++ Common.render msg) ms acc
  = acc ++ join (map Common.render ms).
Proof.
  revert acc; induction ms as [|m ms IH]; intros acc; simpl.
  - now rewrite append_nil_r.
  - now rewrite IH, append_assoc.
Qed.

Lemma history_eq (ms : list DBMessages) :
  Common.history ms = Common.preamble ++ join (map Common.render ms).
Proof. apply fold_history. Qed.

(** ** Ordering of the query results *)

Section Sorting.

Variable A : Type.
Variable key : A -> Z.

Lemma insert_by_head (x : A) (l : list A) :
  Forall (fun y => key x <= key y) l -> Sql.insert_by (fun a b => key a <=? key b) x l = x :: l.
Proof.
  destruct l as [|y l]; simpl; [reflexivity|].
  intros H. inversion H as [|? ? Hy _]; subst.
  now rewrite (proj2 (Z.leb_le _ _) Hy).
Qed.

Lemma sort_by_ascending (l : list A) : ascending key l -> Sql.sort_by (fun a b => key a <=? key b) l = l.
Proof.
  unfold Sql.sort_by.
  induction l as [|x l IH]; simpl; [reflexivity|].
  intros [Hx Hl]. rewrite (IH Hl). now apply insert_by_head.
Qed.

Lemma ascending_filter (f : A -> bool) (l : list A) :
  ascending key l -> ascending key (filter f l).
Proof.
  induction l as [|x l IH]; simpl; [trivial|].
  intros [Hx Hl]. destruct (f x); simpl; auto.
  split; [|auto]. apply Forall_forall. intros y Hy.
  apply filter_In in Hy. rewrite Forall_forall in Hx. now apply Hx.
Qed.

Lemma ascending_snoc (l : list A) (x : A) :
  ascending key l -> Forall (fun y => key y <= key x) l -> ascending key (l ++ [x]).
Proof.
  induction l as [|y l IH]; simpl; intros Hl Hx.
  - split; [constructor | trivial].
  - destruct Hl as [Hy Hl]. inversion Hx as [|? ? Hyx Hlx]; subst.
    split; [|now apply IH].
    apply Forall_app. split; [assumption | now constructor].
Qed.

End Sorting.

(* ================================================================= *)
(** ** Stepping through a handler *)

Lemma quiet_now (env : Env) (w : World) : quiet env w -> fault env (stmts w) = None.
Proof. intros H. apply H. lia. Qed.

Lemma quiet_later (env : Env) (w w' : World) :
  quiet env w -> (stmts w <= stmts w')%nat -> quiet env w'.
Proof. intros H Hle k Hk. apply H. lia. Qed.

Lemma sql_quiet A (env : Env) (q : Z -> DB -> Completion A * DB) w r :
  fault env (stmts w) = None ->
  sql env q (w, r) =
    (fst (q (now env w) (db w)),
     (mkWorld (snd (q (now env w) (db w))) (now env w) (S (stmts w)) (prompts w), r)).
Proof.
  intros H. unfold sql, now. rewrite H. now destruct (q _ _).
Qed.

Lemma sql_fault A (env : Env) (q : Z -> DB -> Completion A * DB) w r msg :
  fault env (stmts w) = Some msg ->
  sql env q (w, r) = (Throw msg, (after_read env w, r)).
Proof. intros H. unfold sql. now rewrite H. Qed.

Lemma sql_insert_message_ok env i role c w r :
  quiet env w -> has_chat i w = true ->
  sql env (Sql.insert_message i role c) (w, r)
  = (Normal tt, (after_insert_message env i role c w, r)).
Proof.
  intros Hq Hc. rewrite sql_quiet by now apply quiet_now.
  unfold Sql.insert_message. unfold has_chat in Hc. now rewrite Hc.
Qed.

Lemma sql_select_messages_ok env i w r :
  quiet env w ->
  sql env (Sql.select_messages i) (w, r)
  = (Normal (Sql.messages_of i (db w)), (after_read env w, r)).
Proof.
  intros Hq. rewrite sql_quiet by now apply quiet_now.
  unfold after_read. now destruct w as [d ? ? ?].
Qed.

Lemma sql_select_chat_ok env i w r :
  quiet env w ->
  sql env (Sql.select_chat i) (w, r)
  = (Normal (filter (fun c => chat_id c =? i) (chats (db w))), (after_read env w, r)).
Proof.
  intros Hq. rewrite sql_quiet by now apply quiet_now. reflexivity.
Qed.

Lemma sql_touch_ok env i w r :
  quiet env w ->
  sql env (Sql.touch_chat i) (w, r) = (Normal tt, (after_touch env i w, r)).
Proof.
  intros Hq. rewrite sql_quiet by now apply quiet_now. reflexivity.
Qed.

Lemma sql_insert_chat_ok env t w r :
  quiet env w -> (String.length t <= 255)%nat ->
  sql env (Sql.insert_chat t) (w, r)
  = (Normal (mkChat (next_chat_id (db w)) t (now env w) (now env w)),
     (after_insert_chat env t w, r)).
Proof.
  intros Hq Hlen. rewrite sql_quiet by now apply quiet_now.
  unfold Sql.insert_chat.
  replace (255 <? String.length t)%nat with false
    by (symmetry; apply Nat.ltb_ge; exact Hlen).
  reflexivity.
Qed.

Lemma sql_delete_ok env i w r :
  quiet env w ->
  sql env (Sql.delete_chat i) (w, r) = (Normal tt, (after_delete env i w, r)).
Proof.
  intros Hq. rewrite sql_quiet by now apply quiet_now. reflexivity.
Qed.

Lemma model_stream_opened env prompt w r chunks failure :
  gateway env (List.length (prompts w)) prompt = Opened chunks failure ->
  model_stream env prompt (w, r)
  = (Normal (chunks, failure), (after_prompt prompt w, r)).
Proof. intros H. unfold model_stream. now rewrite H. Qed.

Lemma model_stream_rejected env prompt w r msg :
  gateway env (List.length (prompts w)) prompt = OpenFails msg ->
  model_stream env prompt (w, r) = (Throw msg, (after_prompt prompt w, r)).
Proof. intros H. unfold model_stream. now rewrite H. Qed.

Lemma for_await_spec (chunks : list string) (failure : option string) :
  forall (acc : string) (w : World) (r : Response),
    headersSent r = true -> ended r = false ->
    Common.for_await chunks failure acc (w, r)
    = (match failure with
       | None => Normal (acc ++ join chunks)
       | Some msg => Throw msg
       end,
       (w, streaming r (map Common.text_delta (filter Js.truthy chunks)))).
Proof.
  induction chunks as [|c chunks IH]; intros acc w r Hs He.
  - simpl. unfold streaming. rewrite app_nil_r, append_nil_r.
    destruct r; simpl in *; subst. now destruct failure.
  - cbn [Common.for_await].
    destruct c as [|a c]; cbn [Js.truthy filter].
    + now rewrite IH.
    + unfold bind, res_write. rewrite He.
      rewrite IH by reflexivity.
      cbn [map join fold_right]. unfold streaming; cbn [statusCode headers written payload].
      rewrite <- app_assoc, append_assoc. reflexivity.
Qed.

Lemma finish_ok env i acc w r :
  quiet env w -> has_chat i w = true -> ended r = false ->
  Common.finish env i acc (w, r)
  = (Normal tt,
     (after_touch env i (reply_stored env i acc w),
      closed (streaming r [Common.done_event]))).
Proof.
  intros Hq Hc He. unfold Common.finish, bind at 1.
  unfold res_write at 1. rewrite He.
  unfold bind at 1, reply_stored.
  destruct (Js.truthy (Js.trim acc)).
  - rewrite sql_insert_message_ok by assumption.
    unfold bind. rewrite sql_touch_ok; [reflexivity|].
    eapply quiet_later; [exact Hq | simpl; lia].
  - unfold ret, bind. now rewrite sql_touch_ok.
Qed.

(** *** A completed exchange of [server.ts] *)

Lemma server_attempt_completes env i text w chunks :
  quiet env w -> has_chat i w = true ->
  gateway env (List.length (prompts w)) (ServerRun.context env i text w) = Opened chunks None ->
  Server.attempt env i text (w, fresh_response)
  = (Normal tt,
     (ServerRun.final env i text chunks w,
      mkRes true 200 (Common.stream_head i) (ServerRun.events chunks) None true)).
Proof.
  intros Hq Hc Hg. unfold Server.attempt.
  unfold bind at 1. rewrite sql_insert_message_ok by assumption.
  unfold bind at 1. rewrite sql_select_messages_ok
    by (eapply quiet_later; [exact Hq | simpl; lia]).
  unfold bind at 1. unfold res_writeHead, fresh_response.
  cbn [headersSent statusCode headers written payload ended app].
  unfold bind at 1.
  rewrite (model_stream_opened env _
             (after_read env (after_insert_message env i "user" text w)) _ Hg).
  unfold bind at 1. cbn [fst snd].
  rewrite for_await_spec by reflexivity.
  rewrite finish_ok; [reflexivity | | exact Hc | reflexivity].
  eapply quiet_later; [exact Hq | simpl; lia].
Qed.

(* ================================================================= *)
(** ** Invariants of the store *)

Lemma NoDup_snoc A (l : list A) (x : A) : NoDup l -> ~ In x l -> NoDup (l ++ [x]).
Proof.
  intros Hl Hx. apply NoDup_app; [exact Hl | repeat constructor; auto |].
  intros a Ha [<-|[]]. contradiction.
Qed.

Lemma distinct_ids_filter (keep : Chat -> bool) (cs : list Chat) :
  NoDup (map chat_id cs) -> NoDup (map chat_id (filter keep cs)).
Proof.
  intros Hcs. induction cs as [|c cs IH]; cbn [map filter]; [constructor|].
  cbn [map] in Hcs. apply NoDup_cons_iff in Hcs. destruct Hcs as [Hc Hcs].
  destruct (keep c); cbn [map]; [|now apply IH].
  apply NoDup_cons; [|now apply IH].
  intros Hin. apply Hc. apply in_map_iff in Hin.
  destruct Hin as (c' & Hid & Hin). apply filter_In in Hin.
  apply in_map_iff. exists c'. tauto.
Qed.

Lemma NoDup_map_unique A B (f : A -> B) (l : list A) (x y : A) :
  NoDup (map f l) -> In x l -> In y l -> f x = f y -> x = y.
Proof.
  induction l as [|a l IH]; cbn [map]; [intros _ []|].
  intros H Hx Hy Hf. inversion H as [|? ? Ha Hl]; subst.
  destruct Hx as [->|Hx], Hy as [->|Hy]; auto.
  - exfalso. apply Ha. rewrite Hf. now apply in_map.
  - exfalso. apply Ha. rewrite <- Hf. now apply in_map.
Qed.

Lemma grows_db_refl (d : DB) : grows_db d d.
Proof.
  split; [lia|]. intros c Hin _. exists c. auto.
Qed.

Lemma grows_db_trans (d1 d2 d3 : DB) :
  grows_db d1 d2 -> grows_db d2 d3 -> grows_db d1 d3.
Proof.
  intros [Hn12 H12] [Hn23 H23]. split; [lia|].
  intros c3 Hin3 Hlt.
  destruct (H23 c3 Hin3 ltac:(lia)) as (c2 & Hin2 & Hid2 & Hcr2).
  destruct (H12 c2 Hin2 ltac:(lia)) as (c1 & Hin1 & Hid1 & Hcr1).
  exists c1. repeat split; [assumption | congruence | congruence].
Qed.

Lemma wf_db_later (d : DB) (t t' : Z) : t <= t' -> wf_db d t -> wf_db d t'.
Proof.
  intros Hle (Hc & Hn & Ha & Hm). repeat split.
  - eapply Forall_impl; [|exact Hc]. cbv beta. intros c ?. lia.
  - exact Hn.
  - exact Ha.
  - eapply Forall_impl; [|exact Hm]. cbv beta. intros m ?. lia.
Qed.

Lemma sound_refl (w : World) : sound w w.
Proof. split; [lia|]. intros H. split; [exact H | apply grows_db_refl]. Qed.

Lemma sound_trans (w1 w2 w3 : World) : sound w1 w2 -> sound w2 w3 -> sound w1 w3.
Proof.
  intros [Hc12 H12] [Hc23 H23]. split; [lia|]. intros H1.
  destruct (H12 H1) as [H2 G12]. destruct (H23 H2) as [H3 G23].
  split; [exact H3 | eapply grows_db_trans; eassumption].
Qed.

Lemma sound_unchanged A (q : Z -> DB -> Completion A * DB) :
  (forall now d, snd (q now d) = d) -> sound_query q.
Proof.
  intros H d t now Hle Hwf. rewrite H.
  split; [eapply wf_db_later; eassumption | apply grows_db_refl].
Qed.

Lemma sound_select_chat i : sound_query (Sql.select_chat i).
Proof. now apply sound_unchanged. Qed.

Lemma sound_select_chats : sound_query Sql.select_chats.
Proof. now apply sound_unchanged. Qed.

Lemma sound_select_messages i : sound_query (Sql.select_messages i).
Proof. now apply sound_unchanged. Qed.

Lemma sound_insert_chat t : sound_query (Sql.insert_chat t).
Proof.
  intros d t0 now Hle Hwf. unfold Sql.insert_chat.
  destruct (255 <? String.length t)%nat; cbn [snd].
  { split; [eapply wf_db_later; eassumption | apply grows_db_refl]. }
  destruct Hwf as (Hc & Hn & Ha & Hm). split.
  - repeat split; cbn [chats messages next_chat_id].
    + apply Forall_app. split.
      * eapply Forall_impl; [|exact Hc]. cbv beta. intros c ?. lia.
      * constructor; [cbn; lia | constructor].
    + rewrite map_app. cbn [map chat_id]. apply NoDup_snoc; [exact Hn|].
      intros Hin. apply in_map_iff in Hin. destruct Hin as (c & Hid & Hin).
      rewrite Forall_forall in Hc. specialize (Hc c Hin). lia.
    + exact Ha.
    + eapply Forall_impl; [|exact Hm]. cbv beta. intros m ?. lia.
  - split; cbn [chats next_chat_id]; [lia|].
    intros c' Hin Hlt. apply in_app_or in Hin. destruct Hin as [Hin|[<-|[]]].
    + exists c'. auto.
    + cbn in Hlt. lia.
Qed.

Lemma sound_insert_message i r c : sound_query (Sql.insert_message i r c).
Proof.
  intros d t0 now Hle Hwf. unfold Sql.insert_message.
  destruct (existsb _ _); cbn [snd].
  2:{ split; [eapply wf_db_later; eassumption | apply grows_db_refl]. }
  destruct Hwf as (Hc & Hn & Ha & Hm). split.
  - repeat split; cbn [chats messages next_chat_id].
    + eapply Forall_impl; [|exact Hc]. cbv beta. intros ch ?. lia.
    + exact Hn.
    + apply ascending_snoc; [exact Ha|].
      eapply Forall_impl; [|exact Hm]. cbv beta. cbn. intros m ?. lia.
    + apply Forall_app. split.
      * eapply Forall_impl; [|exact Hm]. cbv beta. intros m ?. lia.
      * constructor; [cbn; lia | constructor].
  - split; cbn [chats next_chat_id]; [lia|].
    intros c' Hin _. exists c'. auto.
Qed.

Lemma sound_rewrite_chats (f : Chat -> Chat) (d : DB) (t now : Z) :
  t <= now -> wf_db d t ->
  (forall c, chat_id (f c) = chat_id c /\ created_at (f c) = created_at c
             /\ (updated_at (f c) = updated_at c \/ updated_at (f c) = now)) ->
  let d' := mkDB (map f (chats d)) (messages d) (next_chat_id d) (next_msg_id d) in
  wf_db d' now /\ grows_db d d'.
Proof.
  intros Hle (Hc & Hn & Ha & Hm) Hf d'. split.
  - repeat split; cbn [d' chats messages next_chat_id].
    + apply Forall_map. eapply Forall_impl; [|exact Hc]. cbv beta.
      intros c (H1 & H2 & H3). destruct (Hf c) as (Hi & Hcr & Hu).
      rewrite Hi, Hcr. destruct Hu as [-> | ->]; lia.
    + rewrite map_map.
      rewrite (map_ext (fun c => chat_id (f c)) chat_id); [exact Hn|].
      intros c. apply Hf.
    + exact Ha.
    + eapply Forall_impl; [|exact Hm]. cbv beta. intros m ?. lia.
  - split; cbn [d' chats next_chat_id]; [lia|].
    intros c' Hin _. apply in_map_iff in Hin. destruct Hin as (c & <- & Hin).
    destruct (Hf c) as (Hi & Hcr & _). exists c. auto.
Qed.

Lemma sound_touch_chat i : sound_query (Sql.touch_chat i).
Proof.
  intros d t now Hle Hwf. apply sound_rewrite_chats with (t := t); auto.
  intros c. unfold Sql.touch. destruct (chat_id c =? i); cbn; auto.
Qed.

Lemma sound_update_title i t : sound_query (Sql.update_title i t).
Proof.
  intros d t0 now Hle Hwf. unfold Sql.update_title.
  destruct t as [t|].
  - destruct (existsb _ _ && _); cbn [snd].
    { split; [eapply wf_db_later; eassumption | apply grows_db_refl]. }
    apply sound_rewrite_chats with (t := t0); auto.
    intros c. unfold Sql.set_title. destruct (chat_id c =? i); cbn; auto.
  - destruct (existsb _ _); cbn [snd];
      (split; [eapply wf_db_later; eassumption | apply grows_db_refl]).
Qed.

Lemma sound_delete_chat i : sound_query (Sql.delete_chat i).
Proof.
  intros d t now Hle (Hc & Hn & Ha & Hm). unfold Sql.delete_chat. cbn [snd]. split.
  - repeat split; cbn [chats messages next_chat_id].
    + apply Forall_forall. intros c Hin. apply filter_In in Hin.
      rewrite Forall_forall in Hc. specialize (Hc c (proj1 Hin)). lia.
    + now apply distinct_ids_filter.
    + now apply ascending_filter.
    + apply Forall_forall. intros m Hin. apply filter_In in Hin.
      rewrite Forall_forall in Hm. specialize (Hm m (proj1 Hin)). lia.
  - split; cbn [chats next_chat_id]; [lia|].
    intros c' Hin _. apply filter_In in Hin. exists c'. tauto.
Qed.

Lemma keeps_ret A (a : A) : keeps (ret a).
Proof. intros w r. apply sound_refl. Qed.

Lemma keeps_throw A msg : keeps (@throw A msg).
Proof. intros w r. apply sound_refl. Qed.

Lemma keeps_bind A B (m : M A) (k : A -> M B) :
  keeps m -> (forall a, keeps (k a)) -> keeps (bind m k).
Proof.
  intros Hm Hk w r. unfold bind. specialize (Hm w r).
  destruct (m (w, r)) as [[a|msg] [w' r']]; cbn [fst snd] in *.
  - eapply sound_trans; [exact Hm | apply Hk].
  - exact Hm.
Qed.

Lemma keeps_try_catch A (body : M A) (handler : string -> M A) :
  keeps body -> (forall msg, keeps (handler msg)) -> keeps (try_catch body handler).
Proof.
  intros Hm Hk w r. unfold try_catch. specialize (Hm w r).
  destruct (body (w, r)) as [[a|msg] [w' r']]; cbn [fst snd] in *.
  - exact Hm.
  - eapply sound_trans; [exact Hm | apply Hk].
Qed.

Lemma keeps_sql A env (q : Z -> DB -> Completion A * DB) :
  sound_query q -> keeps (sql env q).
Proof.
  intros Hq w r. unfold sql.
  assert (Hle : clock w <= clock w + Z.of_N (delay env (stmts w))) by lia.
  destruct (fault env (stmts w)); cbn [fst snd].
  - split; [exact Hle|]. intros Hwf. split; [|apply grows_db_refl].
    eapply wf_db_later; eassumption.
  - specialize (Hq (db w) (clock w) _ Hle).
    destruct (q _ (db w)) as [c d]; cbn [fst snd] in *.
    split; [exact Hle|]. intros Hwf. exact (Hq Hwf).
Qed.

Lemma keeps_res_status code : keeps (res_status code).
Proof. intros w r. apply sound_refl. Qed.

Lemma keeps_res_json p : keeps (res_json p).
Proof. intros w r. unfold res_json. destruct (headersSent r); apply sound_refl. Qed.

Lemma keeps_res_send : keeps res_send.
Proof. intros w r. unfold res_send. destruct (headersSent r); apply sound_refl. Qed.

Lemma keeps_res_writeHead code hs : keeps (res_writeHead code hs).
Proof.
  intros w r. unfold res_writeHead. destruct (headersSent r); apply sound_refl.
Qed.

Lemma keeps_res_write chunk : keeps (res_write chunk).
Proof. intros w r. unfold res_write. destruct (ended r); apply sound_refl. Qed.

Lemma keeps_res_end : keeps res_end.
Proof. intros w r. apply sound_refl. Qed.

Lemma keeps_res_headersSent : keeps res_headersSent.
Proof. intros w r. apply sound_refl. Qed.

Lemma keeps_model_stream env prompt : keeps (model_stream env prompt).
Proof.
  intros w r. unfold model_stream.
  destruct (gateway env _ prompt); cbn [fst snd];
    (split; [cbn; lia | intros H; split; [exact H | apply grows_db_refl]]).
Qed.

Create HintDb keeps.
#[local] Hint Resolve keeps_ret keeps_throw keeps_res_status keeps_res_json
  keeps_res_send keeps_res_writeHead keeps_res_write keeps_res_end
  keeps_res_headersSent keeps_model_stream keeps_sql
  sound_select_chat sound_select_chats sound_select_messages sound_insert_chat
  sound_insert_message sound_touch_chat sound_update_title sound_delete_chat
  : keeps.

Ltac keeps_step :=
  first [ solve [auto with keeps]
        | match goal with
          | |- keeps (if ?b then _ else _) => destruct b
          | |- keeps (match ?l with [] => _ | _ :: _ => _ end) => destruct l
          end
        | apply keeps_bind; [|intros ?]
        | apply keeps_try_catch; [|intros ?] ].

Lemma keeps_for_await chunks failure :
  forall acc, keeps (Common.for_await chunks failure acc).
Proof.
  induction chunks as [|c chunks IH]; intros acc; cbn [Common.for_await].
  - destruct failure; auto with keeps.
  - destruct (Js.truthy c); [|apply IH].
    apply keeps_bind; [auto with keeps | intros _; apply IH].
Qed.

Lemma keeps_finish env i acc : keeps (Common.finish env i acc).
Proof.
  unfold Common.finish. repeat keeps_step.
Qed.

#[local] Hint Resolve keeps_for_await keeps_finish : keeps.

Lemma keeps_server_handleChatMessages env i ms b :
  keeps (Server.handleChatMessages env i ms b).
Proof.
  unfold Server.handleChatMessages.
  destruct (Common.currentUserMessage ms); [|repeat keeps_step].
  apply keeps_try_catch.
  - unfold Server.attempt. repeat keeps_step.
  - intros msg. unfold Server.report. repeat keeps_step.
Qed.

Lemma keeps_index2_handleChatMessages env i ms b :
  keeps (Index2.handleChatMessages env i ms b).
Proof.
  unfold Index2.handleChatMessages.
  destruct (Common.currentUserMessage ms); [|repeat keeps_step].
  cbv zeta. repeat keeps_step.
Qed.

Section KeepsRoutes.

Variable env : Env.
Variable handleChatMessages : Z -> list ReqMessage -> bool -> M unit.
Hypothesis keeps_handler : forall i ms b, keeps (handleChatMessages i ms b).

Lemma keeps_crud (req : Request) :
  keeps
    match req with
    | GET_chats => Common.get_chats env
    | GET_chats_id id => Common.get_chat env id
    | POST_chats t => Common.post_chats env t
    | PUT_chats_id id t => Common.put_chat env id t
    | DELETE_chats_id id => Common.delete_chat env id
    | POST_chat ms => Common.post_chat handleChatMessages env ms
    | POST_chat_id id ms => Common.post_chat_id handleChatMessages env id ms
    end.
Proof.
  destruct req.
  - unfold Common.get_chats. repeat keeps_step.
  - unfold Common.get_chat. repeat keeps_step.
  - unfold Common.post_chats. repeat keeps_step.
  - unfold Common.put_chat. repeat keeps_step.
  - unfold Common.delete_chat. repeat keeps_step.
  - unfold Common.post_chat. cbv zeta. repeat keeps_step.
  - unfold Common.post_chat_id. cbv zeta. repeat keeps_step.
Qed.

End KeepsRoutes.

Lemma keeps_server_handle env req : keeps (Server.handle env req).
Proof.
  apply (keeps_crud env (Server.handleChatMessages env)).
  apply keeps_server_handleChatMessages.
Qed.

Lemma keeps_index2_handle env req : keeps (Index2.handle env req).
Proof.
  apply (keeps_crud env (Index2.handleChatMessages env)).
  apply keeps_index2_handleChatMessages.
Qed.

Lemma wf_initial t0 : wf (initial_world t0).
Proof. repeat split; constructor. Qed.

Lemma serve_all_sound h env :
  (forall req, keeps (h env req)) ->
  forall reqs w, sound w (serve_all h env reqs w).
Proof.
  intros Hh reqs. induction reqs as [|req reqs IH]; intros w; cbn [serve_all].
  - apply sound_refl.
  - eapply sound_trans; [|apply IH]. unfold serve. apply Hh.
Qed.

(** Every state the server reaches from the fresh database is in order. *)
Lemma reachable_wf env reqs t0 :
  wf (serve_all Server.handle env reqs (initial_world t0)).
Proof.
  destruct (serve_all_sound Server.handle env (keeps_server_handle env) reqs
              (initial_world t0)) as [_ H].
  exact (proj1 (H (wf_initial t0))).
Qed.

(* ================================================================= *)
(** ** The response while a handler runs *)

Lemma live_fresh : live fresh_response.
Proof. split; [reflexivity | intros _; split; reflexivity]. Qed.

Lemma stays_live_ret A (a : A) : stays_live (ret a).
Proof. intros w r H. exact H. Qed.

Lemma stays_live_throw A msg : stays_live (@throw A msg).
Proof. intros w r H. exact H. Qed.

Lemma stays_live_bind A B (m : M A) (k : A -> M B) :
  stays_live m -> (forall a, stays_live (k a)) -> stays_live (bind m k).
Proof.
  intros Hm Hk w r Hr. unfold bind. specialize (Hm w r Hr).
  destruct (m (w, r)) as [[a|msg] [w' r']]; cbn [fst snd] in *.
  - now apply Hk.
  - exact Hm.
Qed.

Lemma stays_live_sql A env (q : Z -> DB -> Completion A * DB) :
  stays_live (sql env q).
Proof.
  intros w r Hr. unfold sql. destruct (fault env (stmts w)); [exact Hr|].
  now destruct (q _ (db w)).
Qed.

Lemma stays_live_model_stream env prompt : stays_live (model_stream env prompt).
Proof.
  intros w r Hr. unfold model_stream. now destruct (gateway env _ prompt).
Qed.

Lemma stays_live_res_writeHead code hs : stays_live (res_writeHead code hs).
Proof.
  intros w r [He Hr]. unfold res_writeHead.
  destruct (headersSent r) eqn:Hs; cbn [snd].
  - split; [exact He | rewrite Hs; discriminate].
  - split; cbn; [exact He | discriminate].
Qed.

Lemma stays_live_res_write chunk : stays_live (res_write chunk).
Proof.
  intros w r [He Hr]. unfold res_write. rewrite He. cbn [snd].
  split; cbn; [reflexivity | discriminate].
Qed.

Lemma stays_live_for_await chunks failure :
  forall acc, stays_live (Common.for_await chunks failure acc).
Proof.
  induction chunks as [|c chunks IH]; intros acc; cbn [Common.for_await].
  - destruct failure; [apply stays_live_throw | apply stays_live_ret].
  - destruct (Js.truthy c); [|apply IH].
    apply stays_live_bind; [apply stays_live_res_write | intros _; apply IH].
Qed.

Lemma live_on_throw_bind A B (m : M A) (k : A -> M B) :
  stays_live m -> (forall a, live_on_throw (k a)) -> live_on_throw (bind m k).
Proof.
  intros Hm Hk w r msg s' Hr. unfold bind. specialize (Hm w r Hr).
  destruct (m (w, r)) as [[a|msg'] [w' r']]; cbn [fst snd] in *.
  - intros E. exact (Hk a w' r' msg s' Hm E).
  - intros E. injection E as _ <-. exact Hm.
Qed.

Lemma live_on_throw_res_end : live_on_throw res_end.
Proof. intros w r msg s' _ E. discriminate E. Qed.

Lemma live_on_throw_finish env i acc : live_on_throw (Common.finish env i acc).
Proof.
  unfold Common.finish.
  apply live_on_throw_bind; [apply stays_live_res_write | intros _].
  apply live_on_throw_bind.
  { destruct (Js.truthy _); [apply stays_live_sql | apply stays_live_ret]. }
  intros _. apply live_on_throw_bind; [apply stays_live_sql | intros _].
  apply live_on_throw_res_end.
Qed.

Lemma ends_on_return_bind A B (m : M A) (k : A -> M B) :
  (forall a, ends_on_return (k a)) -> ends_on_return (bind m k).
Proof.
  intros Hk w r b s'. unfold bind.
  destruct (m (w, r)) as [[a|msg] [w' r']]; [apply Hk | discriminate].
Qed.

Lemma ends_on_return_res_end : ends_on_return res_end.
Proof. intros w r a s' E. injection E as _ <-. reflexivity. Qed.

Lemma ends_on_return_finish env i acc : ends_on_return (Common.finish env i acc).
Proof.
  unfold Common.finish. repeat (apply ends_on_return_bind; intros ?).
  apply ends_on_return_res_end.
Qed.

Lemma server_attempt_live_on_throw env i text :
  live_on_throw (Server.attempt env i text).
Proof.
  unfold Server.attempt.
  apply live_on_throw_bind; [apply stays_live_sql | intros _].
  apply live_on_throw_bind; [apply stays_live_sql | intros ms].
  apply live_on_throw_bind; [apply stays_live_res_writeHead | intros _].
  apply live_on_throw_bind; [apply stays_live_model_stream | intros st].
  apply live_on_throw_bind; [apply stays_live_for_await | intros acc].
  apply live_on_throw_finish.
Qed.

Lemma server_attempt_ends_on_return env i text :
  ends_on_return (Server.attempt env i text).
Proof.
  unfold Server.attempt. do 5 (apply ends_on_return_bind; intros ?).
  apply ends_on_return_finish.
Qed.

Lemma server_report_spec msg w r :
  ended r = false ->
  Server.report msg (w, r) = (Normal tt, (w, reported msg r)).
Proof.
  intros He. unfold Server.report, reported, bind, res_headersSent.
  destruct (headersSent r) eqn:Hs.
  - unfold res_write, res_end. rewrite He. reflexivity.
  - unfold res_status, res_json. cbn [headersSent]. rewrite Hs. reflexivity.
Qed.

(** X1: every failure of the [try] block of [server.ts] is answered and the
    response is ended: with the 500 body when the head was not written yet
    (then nothing was written at all), with an error event after what was
    streamed otherwise. *)
Lemma server_failure_reported env i ms b m w :
  Common.currentUserMessage ms = Some m ->
  forall msg w1 r1,
    Server.attempt env i (Server.userMessageText m) (w, fresh_response)
    = (Throw msg, (w1, r1)) ->
    Server.handleChatMessages env i ms b (w, fresh_response)
    = (Normal tt, (w1, reported msg r1))
    /\ ended (reported msg r1) = true
    /\ (headersSent r1 = false ->
        written r1 = []
        /\ statusCode (reported msg r1) = 500
        /\ payload (reported msg r1)
           = Some (ErrorBody "AI Service Error" (Some msg)))
    /\ (headersSent r1 = true ->
        statusCode (reported msg r1) = statusCode r1
        /\ written (reported msg r1)
           = (written r1 ++ [Common.error_event msg])%list).
Proof.
  intros Hm msg w1 r1 E.
  pose proof (@server_attempt_live_on_throw env i _ _ _ _ _ live_fresh E)
    as [He Hr].
  cbn [snd] in He, Hr.
  unfold Server.handleChatMessages. rewrite Hm. unfold try_catch. rewrite E.
  rewrite server_report_spec by exact He.
  unfold reported. split; [reflexivity|]. split; [now destruct (headersSent r1)|].
  split; intros Hs; rewrite Hs.
  - split; [now apply Hr | split; reflexivity].
  - split; reflexivity.
Qed.

(** A send without failure, or without a user entry, ends the response too. *)
Lemma server_always_ends env i ms b w :
  let result := Server.handleChatMessages env i ms b (w, fresh_response) in
  fst result = Normal tt /\ ended (snd (snd result)) = true.
Proof.
  cbv zeta. unfold Server.handleChatMessages.
  destruct (Common.currentUserMessage ms) as [m|] eqn:Hm.
  - unfold try_catch.
    destruct (Server.attempt env i (Server.userMessageText m) (w, fresh_response))
      as [[[]|msg] [w1 r1]] eqn:E.
    + split; [reflexivity|].
      exact (@server_attempt_ends_on_return env i _ _ _ _ _ E).
    + pose proof (@server_attempt_live_on_throw env i _ _ _ _ _ live_fresh E)
        as [He _].
      cbn [snd] in He. rewrite server_report_spec by exact He.
      split; [reflexivity|]. cbn [snd]. unfold reported.
      now destruct (headersSent r1).
  - split; reflexivity.
Qed.

(** A stream that breaks after its first fragment: the event for the
    fragment, then the error event, and the response is ended. *)
Lemma server_failure_reported_example :
  let env := Example.steady (Opened ["A"] (Some "socket hang up")) in
  let r1 := mkRes true 200 (Common.stream_head 1) [Common.text_delta "A"] None false in
  Server.handleChatMessages env 1 [Example.says "hi"] false
    (Example.one_chat, fresh_response)
  = (Normal tt, (ServerRun.asked env 1 "hi" Example.one_chat,
                 reported "socket hang up" r1))
  /\ written (reported "socket hang up" r1)
     = [Common.text_delta "A"; Common.error_event "socket hang up"].
Proof.
  cbv zeta.
  destruct (@server_failure_reported
              (Example.steady (Opened ["A"] (Some "socket hang up"))) 1
              [Example.says "hi"] false (Example.says "hi") Example.one_chat
              eq_refl "socket hang up"
              (ServerRun.asked (Example.steady (Opened ["A"] (Some "socket hang up")))
                 1 "hi" Example.one_chat)
              (mkRes true 200 (Common.stream_head 1) [Common.text_delta "A"] None false)
              ltac:(vm_compute; reflexivity))
    as (Hrun & _ & _ & Hstream).
  split; [exact Hrun | exact (proj2 (Hstream eq_refl))].
Defined.

(* ================================================================= *)
(** ** Small facts used by the examples *)

Lemma quiet_steady s w : quiet (Example.steady s) w.
Proof. intros k _. reflexivity. Qed.

Lemma truthy_iff (s : string) : Js.truthy s = true <-> s <> EmptyString.
Proof. destruct s; cbn; split; congruence. Qed.

Lemma falsy_iff (s : string) : Js.truthy s = false <-> s = EmptyString.
Proof. destruct s; cbn; split; congruence. Qed.

(* ================================================================= *)
(** ** Streaming: order of events and the stored reply *)

(** C1, as worded, fails: the model yields the fragments A, the empty
    string and B and completes; two events precede [DONE], not three. *)
Lemma C1_empty_fragment_has_no_event :
  ~ one_event_per_fragment
      (Example.steady (Opened ["A"; EmptyString; "B"] None)) 1
      [Example.says "hi"] ["A"; EmptyString; "B"] Example.one_chat.
Proof. unfold one_event_per_fragment. vm_compute. discriminate. Qed.

(** C1, amended: when the store accepts the statements and the model's
    stream completes after the fragments [chunks], the events written are
    one text-delta per non-empty fragment, in generation order, followed by
    [DONE] (so one per fragment when none is empty); and when the
    concatenation of the fragments is not blank, the rows appended to
    [messages] are the user's row and an assistant row whose content is the
    concatenation of all fragments. *)
Theorem C1_events_follow_fragments env i ms b m chunks w :
  quiet env w ->
  has_chat i w = true ->
  Common.currentUserMessage ms = Some m ->
  (forall prompt, gateway env (List.length (prompts w)) prompt = Opened chunks None) ->
  let result := Server.handleChatMessages env i ms b (w, fresh_response) in
  let w' := fst (snd result) in
  let r' := snd (snd result) in
  written r'
  = (map Common.text_delta (filter Js.truthy chunks) ++ [Common.done_event])%list
  /\ (Forall (fun c => c <> EmptyString) chunks ->
      written r' = (map Common.text_delta chunks ++ [Common.done_event])%list)
  /\ (Js.trim (join chunks) <> EmptyString ->
      exists t_user t_reply,
        messages (db w')
        = (messages (db w)
           ++ [mkMsg (next_msg_id (db w)) i "user" (Server.userMessageText m) t_user;
               mkMsg (next_msg_id (db w) + 1) i "assistant" (join chunks) t_reply])%list).
Proof.
  intros Hq Hc Hm Hg. cbv zeta.
  unfold Server.handleChatMessages. rewrite Hm. unfold try_catch.
  rewrite (server_attempt_completes _ _ Hq Hc (Hg _)).
  cbn [fst snd written]. split; [reflexivity|]. split.
  - intros Hne. unfold ServerRun.events. now rewrite filter_all_truthy.
  - intros Hne. apply truthy_iff in Hne.
    unfold ServerRun.final, reply_stored. rewrite Hne.
    eexists. eexists. cbn. rewrite <- app_assoc. reflexivity.
Qed.

(** The scenario of the specification: the fragments A to E. *)
Lemma C1_five_fragments :
  let result :=
    Server.handleChatMessages
      (Example.steady (Opened ["A"; "B"; "C"; "D"; "E"] None)) 1
      [Example.says "hi"] false (Example.one_chat, fresh_response) in
  written (snd (snd result))
  = (map Common.text_delta ["A"; "B"; "C"; "D"; "E"] ++ [Common.done_event])%list
  /\ exists t_user t_reply,
       messages (db (fst (snd result)))
       = [mkMsg 1 1 "user" "hi" t_user; mkMsg 2 1 "assistant" "ABCDE" t_reply].
Proof.
  destruct (@C1_events_follow_fragments
              (Example.steady (Opened ["A"; "B"; "C"; "D"; "E"] None)) 1
              [Example.says "hi"] false (Example.says "hi")
              ["A"; "B"; "C"; "D"; "E"] Example.one_chat
              (quiet_steady _ _) eq_refl eq_refl (fun _ => eq_refl))
    as (_ & Hall & Hstored).
  split.
  - apply Hall. repeat constructor; discriminate.
  - apply Hstored. vm_compute. discriminate.
Defined.

(* ================================================================= *)
(** ** Empty fragments *)

Lemma bind_ext A B (m1 m2 : M A) (k1 k2 : A -> M B) :
  (forall s, m1 s = m2 s) -> (forall a s, k1 a s = k2 a s) ->
  forall s, bind m1 k1 s = bind m2 k2 s.
Proof.
  intros Hm Hk s. unfold bind. rewrite Hm.
  destruct (m2 s) as [[a|msg] s']; [apply Hk | reflexivity].
Qed.

Lemma try_catch_ext A (m1 m2 : M A) (h1 h2 : string -> M A) :
  (forall s, m1 s = m2 s) -> (forall msg s, h1 msg s = h2 msg s) ->
  forall s, try_catch m1 h1 s = try_catch m2 h2 s.
Proof.
  intros Hm Hh s. unfold try_catch. rewrite Hm.
  destruct (m2 s) as [[a|msg] s']; [reflexivity | apply Hh].
Qed.

Lemma for_await_drop (chunks : list string) (failure : option string) :
  forall acc s,
    Common.for_await chunks failure acc s
    = Common.for_await (filter Js.truthy chunks) failure acc s.
Proof.
  induction chunks as [|c chunks IH]; intros acc s; [reflexivity|].
  cbn [Common.for_await filter]. destruct (Js.truthy c) eqn:Hc.
  - cbn [Common.for_await]. rewrite Hc. apply bind_ext; [reflexivity|].
    intros _ s'. apply IH.
  - apply IH.
Qed.

Lemma filter_truthy_skip (before after : list string) :
  filter Js.truthy (before ++ EmptyString :: after)
  = filter Js.truthy (before ++ after).
Proof. now rewrite !filter_app. Qed.

Lemma server_attempt_drop env i text s :
  Server.attempt env i text s = Server.attempt (drop_empty env) i text s.
Proof.
  unfold Server.attempt.
  apply bind_ext; [reflexivity | intros _ s1].
  apply bind_ext; [reflexivity | intros allMessages s2].
  apply bind_ext; [reflexivity | intros _ [w3 r3]].
  unfold bind at 1 3, model_stream. cbn [gateway drop_empty].
  destruct (gateway env _ _) as [msg|chunks failure]; [reflexivity|].
  cbn [fst snd]. unfold bind. rewrite (for_await_drop chunks). reflexivity.
Qed.

Lemma index2_attempt_drop env i text allMessages s :
  Index2.attempt env i text allMessages s
  = Index2.attempt (drop_empty env) i text allMessages s.
Proof.
  unfold Index2.attempt. cbv zeta. destruct s as [w r].
  unfold bind at 1 4, model_stream. cbn [gateway drop_empty].
  destruct (gateway env _ _) as [msg|chunks failure]; [reflexivity|].
  cbn [fst snd]. apply bind_ext; [reflexivity | intros _ s1].
  unfold bind. rewrite (for_await_drop chunks). reflexivity.
Qed.

(** C10: a fragment whose content is empty leaves no trace. In the loop it
    writes no event and leaves [fullResponse] as it was; a send of
    [server.ts] or of [index2.ts] leaves the same store and the same
    response as the send in which the model did not yield the empty
    fragments at all. *)
Theorem C10_empty_fragments_are_dropped :
  (forall before after failure acc s,
      Common.for_await (before ++ EmptyString :: after) failure acc s
      = Common.for_await (before ++ after) failure acc s)
  /\ (forall chunks acc w r,
         headersSent r = true -> ended r = false ->
         Common.for_await chunks None acc (w, r)
         = (Normal (acc ++ join (filter Js.truthy chunks)),
            (w, streaming r (map Common.text_delta (filter Js.truthy chunks)))))
  /\ (forall env i ms b s,
         Server.handleChatMessages env i ms b s
         = Server.handleChatMessages (drop_empty env) i ms b s)
  /\ (forall env i ms b s,
         Index2.handleChatMessages env i ms b s
         = Index2.handleChatMessages (drop_empty env) i ms b s).
Proof.
  repeat split.
  - intros before after failure acc s.
    rewrite for_await_drop, (for_await_drop (before ++ after)).
    now rewrite filter_truthy_skip.
  - intros chunks acc w r Hs He. rewrite join_truthy.
    now apply for_await_spec.
  - intros env i ms b s. unfold Server.handleChatMessages.
    destruct (Common.currentUserMessage ms); [|reflexivity].
    apply try_catch_ext; [apply server_attempt_drop | reflexivity].
  - intros env i ms b s. unfold Index2.handleChatMessages.
    destruct (Common.currentUserMessage ms); [|reflexivity]. cbv zeta.
    apply bind_ext; [reflexivity | intros _ s1].
    apply bind_ext; [reflexivity | intros allMessages s2].
    apply try_catch_ext; [apply index2_attempt_drop | reflexivity].
Qed.

(** C10 at work: a send whose stream holds two empty fragments. *)
Lemma C10_example :
  Common.for_await ["A"; EmptyString; "B"; EmptyString] None EmptyString
    (Example.one_chat, mkRes true 200 [] [] None false)
  = (Normal "AB",
     (Example.one_chat,
      mkRes true 200 [] [Common.text_delta "A"; Common.text_delta "B"] None false)).
Proof.
  destruct C10_empty_fragments_are_dropped as (_ & H & _).
  exact (H ["A"; EmptyString; "B"; EmptyString] EmptyString Example.one_chat
           (mkRes true 200 [] [] None false) eq_refl eq_refl).
Defined.

(* ================================================================= *)
(** ** Completion of a send *)

(** C6, as worded, fails: the model yields one fragment holding a space;
    the accumulated text is not empty, and no assistant row is stored. *)
Lemma C6_blank_reply_is_not_stored :
  ~ reply_stored_iff_nonempty
      (Example.steady (Opened [" "] None)) 1 [Example.says "hi"] [" "]
      Example.one_chat.
Proof.
  unfold reply_stored_iff_nonempty. vm_compute. intros [_ H].
  assert (E : false = true) by (apply H; discriminate). discriminate E.
Qed.

(** C6, amended: when the store accepts the statements and the model's
    stream completes, the last event written is [DONE], the response is
    ended, the accumulated text is stored as an assistant row if and only
    if it is not blank ([trim] leaves something), and in both cases the
    chat's [updated_at] is set to the time of the closing [UPDATE]. *)
Theorem C6_completion env i ms b m chunks w :
  quiet env w ->
  has_chat i w = true ->
  Common.currentUserMessage ms = Some m ->
  (forall prompt, gateway env (List.length (prompts w)) prompt = Opened chunks None) ->
  let result := Server.handleChatMessages env i ms b (w, fresh_response) in
  let w' := fst (snd result) in
  let r' := snd (snd result) in
  fst result = Normal tt
  /\ (exists deltas, written r' = (deltas ++ [Common.done_event])%list)
  /\ ended r' = true
  /\ (exists t_user,
        (Js.trim (join chunks) <> EmptyString ->
         exists t_reply,
           messages (db w')
           = (messages (db w)
              ++ [mkMsg (next_msg_id (db w)) i "user" (Server.userMessageText m) t_user;
                  mkMsg (next_msg_id (db w) + 1) i "assistant" (join chunks) t_reply])%list)
        /\ (Js.trim (join chunks) = EmptyString ->
            messages (db w')
            = (messages (db w)
               ++ [mkMsg (next_msg_id (db w)) i "user" (Server.userMessageText m) t_user])%list))
  /\ chats (db w') = map (Sql.touch i (clock w')) (chats (db w))
  /\ (forall c, In c (chats (db w')) -> chat_id c = i -> updated_at c = clock w').
Proof.
  intros Hq Hc Hm Hg. cbv zeta.
  unfold Server.handleChatMessages. rewrite Hm. unfold try_catch.
  rewrite (server_attempt_completes _ _ Hq Hc (Hg _)).
  cbn [fst snd written ended].
  split; [reflexivity|]. split; [eexists; reflexivity|]. split; [reflexivity|].
  assert (Hchats :
    chats (db (ServerRun.final env i (Server.userMessageText m) chunks w))
    = map (Sql.touch i (clock (ServerRun.final env i (Server.userMessageText m) chunks w)))
          (chats (db w))).
  { unfold ServerRun.final, reply_stored. now destruct (Js.truthy _). }
  split; [|split; [exact Hchats|]].
  - exists (now env w). split; intros Hne.
    + apply truthy_iff in Hne. unfold ServerRun.final, reply_stored. rewrite Hne.
      eexists. cbn. rewrite <- app_assoc. reflexivity.
    + apply falsy_iff in Hne. unfold ServerRun.final, reply_stored. rewrite Hne.
      reflexivity.
  - intros c Hin Hid. rewrite Hchats in Hin. apply in_map_iff in Hin.
    destruct Hin as (c0 & <- & _). unfold Sql.touch in *.
    destruct (chat_id c0 =? i) eqn:E; [reflexivity|].
    apply Z.eqb_neq in E. contradiction.
Qed.

(** C6 on two streams: a reply and a blank one. *)
Lemma C6_example :
  let result :=
    Server.handleChatMessages (Example.steady (Opened [" "] None)) 1
      [Example.says "hi"] false (Example.one_chat, fresh_response) in
  messages (db (fst (snd result))) = [mkMsg 1 1 "user" "hi" 102]
  /\ chats (db (fst (snd result))) = [mkChat 1 "Test" 101 104]
  /\ ended (snd (snd result)) = true.
Proof.
  destruct (@C6_completion (Example.steady (Opened [" "] None)) 1
              [Example.says "hi"] false (Example.says "hi") [" "]
              Example.one_chat (quiet_steady _ _) eq_refl eq_refl
              (fun _ => eq_refl))
    as (_ & _ & Hend & (t & _ & Hblank) & Hchats & _).
  split; [|split; [|exact Hend]].
  - vm_compute. reflexivity.
  - rewrite Hchats. vm_compute. reflexivity.
Defined.

(* ================================================================= *)
(** ** The prompt *)

Lemma server_attempt_rejected env i text w msg :
  quiet env w -> has_chat i w = true ->
  gateway env (List.length (prompts w)) (ServerRun.context env i text w)
  = OpenFails msg ->
  Server.attempt env i text (w, fresh_response)
  = (Throw msg,
     (ServerRun.asked env i text w,
      mkRes true 200 (Common.stream_head i) [] None false)).
Proof.
  intros Hq Hc Hg. unfold Server.attempt.
  unfold bind at 1. rewrite sql_insert_message_ok by assumption.
  unfold bind at 1. rewrite sql_select_messages_ok
    by (eapply quiet_later; [exact Hq | simpl; lia]).
  unfold bind at 1. unfold res_writeHead, fresh_response.
  cbn [headersSent statusCode headers written payload ended app].
  unfold bind at 1.
  rewrite (model_stream_rejected env _
             (after_read env (after_insert_message env i "user" text w)) _ Hg).
  reflexivity.
Qed.

Lemma server_attempt_interrupted env i text w chunks msg :
  quiet env w -> has_chat i w = true ->
  gateway env (List.length (prompts w)) (ServerRun.context env i text w)
  = Opened chunks (Some msg) ->
  Server.attempt env i text (w, fresh_response)
  = (Throw msg,
     (ServerRun.asked env i text w,
      mkRes true 200 (Common.stream_head i)
            (map Common.text_delta (filter Js.truthy chunks)) None false)).
Proof.
  intros Hq Hc Hg. unfold Server.attempt.
  unfold bind at 1. rewrite sql_insert_message_ok by assumption.
  unfold bind at 1. rewrite sql_select_messages_ok
    by (eapply quiet_later; [exact Hq | simpl; lia]).
  unfold bind at 1. unfold res_writeHead, fresh_response.
  cbn [headersSent statusCode headers written payload ended app].
  unfold bind at 1.
  rewrite (model_stream_opened env _
             (after_read env (after_insert_message env i "user" text w)) _ Hg).
  unfold bind at 1. cbn [fst snd].
  rewrite for_await_spec by reflexivity. reflexivity.
Qed.

(** On a store in order the query of the history returns the rows of the
    chat as they sit in the table, and a row inserted now comes last. *)
Lemma messages_of_ordered i d t :
  wf_db d t ->
  Sql.messages_of i d = filter (fun m => msg_chat_id m =? i) (messages d).
Proof.
  intros (_ & _ & Ha & _). unfold Sql.messages_of.
  apply sort_by_ascending. now apply ascending_filter.
Qed.

Lemma messages_of_after_insert env i r c w :
  wf w ->
  Sql.messages_of i (db (after_insert_message env i r c w))
  = (Sql.messages_of i (db w)
     ++ [mkMsg (next_msg_id (db w)) i r c (now env w)])%list.
Proof.
  intros Hwf.
  assert (Hle : clock w <= now env w) by (unfold now; lia).
  destruct (sound_insert_message i r c Hle Hwf) as [Hwf' _].
  assert (Hdb : forall d, has_chat i w = true ->
            snd (Sql.insert_message i r c (now env w) (db w)) = d ->
            d = db (after_insert_message env i r c w)).
  { intros d Hc <-. unfold Sql.insert_message. unfold has_chat in Hc.
    now rewrite Hc. }
  rewrite (messages_of_ordered i Hwf).
  destruct (has_chat i w) eqn:Hc.
  - rewrite (Hdb _ eq_refl eq_refl) in Hwf'.
    rewrite (messages_of_ordered i Hwf').
    cbn [after_insert_message db messages]. rewrite filter_app.
    cbn [filter msg_chat_id]. now rewrite Z.eqb_refl.
  - (* the row is appended to a table in order whether or not the chat exists *)
    destruct Hwf as (Hcs & Hn & Ha & Hm).
    unfold Sql.messages_of. cbn [after_insert_message db messages].
    rewrite filter_app. cbn [filter msg_chat_id]. rewrite Z.eqb_refl.
    apply sort_by_ascending.
    apply ascending_snoc; [now apply ascending_filter|].
    apply Forall_forall. intros m Hin. apply filter_In in Hin.
    rewrite Forall_forall in Hm. specialize (Hm m (proj1 Hin)). cbn. lia.
Qed.

(** X3: the prompt [server.ts] sends: the preamble, every stored row of the chat
    once and in order, the user's new row last, then the cue. It is sent
    whatever the model then does. *)
Lemma server_context_exact env i ms b m w :
  wf w -> quiet env w -> has_chat i w = true ->
  Common.currentUserMessage ms = Some m ->
  prompts (fst (snd (Server.handleChatMessages env i ms b (w, fresh_response))))
  = (prompts w
     ++ [spec_context
           (Sql.messages_of i (db w)
            ++ [mkMsg (next_msg_id (db w)) i "user"
                      (Server.userMessageText m) (now env w)])])%list.
Proof.
  intros Hwf Hq Hc Hm.
  assert (Hctx :
    ServerRun.context env i (Server.userMessageText m) w
    = spec_context
        (Sql.messages_of i (db w)
         ++ [mkMsg (next_msg_id (db w)) i "user"
                   (Server.userMessageText m) (now env w)])%list).
  { unfold ServerRun.context, spec_context.
    now rewrite history_eq, messages_of_after_insert, append_assoc. }
  rewrite <- Hctx.
  unfold Server.handleChatMessages. rewrite Hm. unfold try_catch.
  destruct (gateway env (List.length (prompts w))
              (ServerRun.context env i (Server.userMessageText m) w))
    as [msg|chunks [msg|]] eqn:Hg.
  - rewrite (server_attempt_rejected _ _ Hq Hc Hg).
    rewrite server_report_spec by reflexivity. reflexivity.
  - rewrite (server_attempt_interrupted _ _ Hq Hc Hg).
    rewrite server_report_spec by reflexivity. reflexivity.
  - rewrite (server_attempt_completes _ _ Hq Hc Hg).
    cbn [fst snd]. unfold ServerRun.final, reply_stored.
    now destruct (Js.truthy _).
Qed.

(** The prompt of a second send on a chat that holds one exchange. *)
Lemma server_context_exact_example :
  let env := Example.steady (Opened ["ok"] None) in
  let w := serve_all Server.handle env
             [POST_chats (Some "Test"); POST_chat_id 1 (Some [Example.says "hi"])]
             (initial_world 100) in
  prompts (fst (snd (Server.handleChatMessages env 1 [Example.says "more"] false
                       (w, fresh_response))))
  = (prompts w
     ++ [spec_context
           [mkMsg 1 1 "user" "hi" 103; mkMsg 2 1 "assistant" "ok" 105;
            mkMsg 3 1 "user" "more" 107]])%list.
Proof.
  cbv zeta.
  exact (@server_context_exact (Example.steady (Opened ["ok"] None)) 1
           [Example.says "more"] false (Example.says "more") _
           (reachable_wf (Example.steady (Opened ["ok"] None))
              [POST_chats (Some "Test"); POST_chat_id 1 (Some [Example.says "hi"])]
              100)
           (quiet_steady _ _) eq_refl eq_refl).
Defined.

(** C5 (defect of [index2.ts]): the prompt of [index2.ts] renders the
    user's new message twice. On a chat without history and the user text
    [hi], [server.ts] sends the preamble, the one entry and the cue, as the
    specification words it; [index2.ts] reads the history after the insert
    and then adds the user text once more. *)
Theorem C5_index2_repeats_user_message :
  let env := Example.steady (Opened ["ok"] None) in
  let sent (h : Env -> Z -> list ReqMessage -> bool -> M unit) :=
    prompts (fst (snd (h env 1 [Example.says "hi"] false
                         (Example.one_chat, fresh_response)))) in
  sent Server.handleChatMessages = [spec_context [mkMsg 1 1 "user" "hi" 102]]
  /\ sent Index2.handleChatMessages
     = [Common.preamble
        ++ "user: hi" ++ Js.nl ++ Js.nl
        ++ "user: hi" ++ Js.nl ++ Js.nl
        ++ "assistant:"]
  /\ sent Index2.handleChatMessages <> [spec_context [mkMsg 1 1 "user" "hi" 102]].
Proof. vm_compute. repeat split; discriminate. Qed.

(* ================================================================= *)
(** ** The text of the user's message *)

(** X4: [index2.ts] extracts the text by that rule. *)
Lemma index2_text_is_spec_text (m : ReqMessage) :
  Index2.userMessageText m = spec_text m.
Proof.
  unfold Index2.userMessageText, spec_text.
  destruct (Common.first_part_text m) as [[|c s]|];
    destruct (req_content m) as [[|c' s']|]; reflexivity.
Qed.

(** [server.ts] agrees with the rule on the messages without parts. *)
Lemma server_text_without_parts (m : ReqMessage) :
  Common.first_part_text m = None -> Server.userMessageText m = spec_text m.
Proof.
  intros H. unfold Server.userMessageText, spec_text. rewrite H.
  destruct (req_content m) as [[|c' s']|]; reflexivity.
Qed.

(** C4 (defect of [server.ts]): [handleChatMessages] of [server.ts] reads
    only the flat content. A message in the shape the test client sends,
    [{role: "user", parts: [{type: "text", text: "hello"}]}], has the text
    [hello] by the rule and in [index2.ts]; [server.ts] stores the empty
    string for it and shows the model an empty user turn. *)
Theorem C4_server_ignores_parts :
  let m := Example.says_parts "hello" in
  let env := Example.steady (Opened ["ok"] None) in
  let w' := fst (snd (Server.handleChatMessages env 1 [m] false
                        (Example.one_chat, fresh_response))) in
  spec_text m = "hello"
  /\ Index2.userMessageText m = "hello"
  /\ Server.userMessageText m = EmptyString
  /\ messages (db w')
     = [mkMsg 1 1 "user" EmptyString 102; mkMsg 2 1 "assistant" "ok" 104]
  /\ prompts w' = [spec_context [mkMsg 1 1 "user" EmptyString 102]].
Proof. vm_compute. repeat split. Qed.

(* ================================================================= *)
(** ** Failures *)

(** C3 (defect of [index2.ts]): the model rejects the call. In [index2.ts]
    the [try] block fails before the head or any byte was written, and the
    [catch] block writes an error event all the same: the caller gets an
    implicit 200 with the event as body, not the 500 body. [server.ts], which
    tests [res.headersSent], has written the head by then and reports in the
    stream it opened; a failure before its head gives the 500 body. *)
Theorem C3_index2_rejected_call_is_answered_200 :
  let env := Example.steady (OpenFails "401 Unauthorized") in
  let failing :=
    Index2.attempt env 1 "hi" [mkMsg 1 1 "user" "hi" 102]
      (after_read env (after_insert_message env 1 "user" "hi" Example.one_chat),
       fresh_response) in
  let result :=
    Index2.handleChatMessages env 1 [Example.says "hi"] false
      (Example.one_chat, fresh_response) in
  fst failing = Throw "401 Unauthorized"
  /\ snd (snd failing) = fresh_response
  /\ fst result = Normal tt
  /\ snd (snd result)
     = mkRes true 200 [] [Common.error_event "401 Unauthorized"] None true
  /\ snd (snd (Server.handleChatMessages env 1 [Example.says "hi"] false
                 (Example.one_chat, fresh_response)))
     = mkRes true 200 (Common.stream_head 1)
             [Common.error_event "401 Unauthorized"] None true
  /\ snd (snd (Server.handleChatMessages
                 (mkEnv (fun _ => Some "connection refused") (fun _ => 1%N)
                        (fun _ _ => Opened [] None))
                 1 [Example.says "hi"] false (Example.one_chat, fresh_response)))
     = mkRes true 500 [("Content-Type", "application/json; charset=utf-8")] []
             (Some (ErrorBody "AI Service Error" (Some "connection refused"))) true.
Proof. vm_compute. repeat split. Qed.

(* ================================================================= *)
(** ** Deleting a chat *)

Lemma filter_twice A (f : A -> bool) (l : list A) :
  filter f (filter f l) = filter f l.
Proof.
  induction l as [|x l IH]; cbn [filter]; [reflexivity|].
  destruct (f x) eqn:E; cbn [filter]; [rewrite E, IH | exact IH]; reflexivity.
Qed.

Lemma filter_none A (f : A -> bool) (l : list A) :
  filter f (filter (fun x => negb (f x)) l) = [].
Proof.
  induction l as [|x l IH]; cbn [filter]; [reflexivity|].
  destruct (f x) eqn:E; cbn [negb filter]; [exact IH | rewrite E; exact IH].
Qed.

Lemma delete_chat_ok env i w :
  quiet env w ->
  serve Server.handle env (DELETE_chats_id i) w
  = (Normal tt, (after_delete env i w, no_content)).
Proof.
  intros Hq. unfold serve, Server.handle, Common.delete_chat, try_catch.
  unfold bind at 1. rewrite sql_delete_ok by assumption. reflexivity.
Qed.

Lemma get_chat_missing env i w :
  quiet env w ->
  filter (fun c => chat_id c =? i) (chats (db w)) = [] ->
  serve Server.handle env (GET_chats_id i) w
  = (Normal tt, (after_read env w, chat_not_found)).
Proof.
  intros Hq Hnone. unfold serve, Server.handle, Common.get_chat, try_catch.
  unfold bind at 1. rewrite sql_select_chat_ok by assumption.
  rewrite Hnone. reflexivity.
Qed.

(** C9: when the store accepts the statements, [DELETE /chats/:id] answers
    204 with an empty body whether or not the chat exists; afterwards the
    chat and every message owned by it are gone and the other rows are as
    before; a second delete answers the same and changes nothing; and
    [GET /chats/:id] then answers 404 [Chat not found], not an empty
    list. *)
Theorem C9_delete_cascades env i w :
  quiet env w ->
  let result := serve Server.handle env (DELETE_chats_id i) w in
  let w1 := fst (snd result) in
  fst result = Normal tt
  /\ snd (snd result) = no_content
  /\ chats (db w1) = filter (fun c => negb (chat_id c =? i)) (chats (db w))
  /\ messages (db w1)
     = filter (fun m => negb (msg_chat_id m =? i)) (messages (db w))
  /\ (forall c, In c (chats (db w1)) -> chat_id c <> i)
  /\ (forall m, In m (messages (db w1)) -> msg_chat_id m <> i)
  /\ (let again := serve Server.handle env (DELETE_chats_id i) w1 in
      fst again = Normal tt
      /\ snd (snd again) = no_content
      /\ db (fst (snd again)) = db w1)
  /\ (let read := serve Server.handle env (GET_chats_id i) w1 in
      fst read = Normal tt
      /\ snd (snd read) = chat_not_found
      /\ db (fst (snd read)) = db w1).
Proof.
  intros Hq. cbv zeta. rewrite (delete_chat_ok i Hq). cbn [fst snd].
  assert (Hq1 : quiet env (after_delete env i w))
    by (eapply quiet_later; [exact Hq | simpl; lia]).
  rewrite (delete_chat_ok i Hq1). cbn [fst snd].
  rewrite (get_chat_missing i Hq1)
    by (cbn [after_delete db chats]; apply (filter_none (fun c => chat_id c =? i))).
  cbn [fst snd after_delete after_read db chats messages].
  repeat split.
  - intros c Hin. apply filter_In in Hin. destruct Hin as [_ Hne].
    apply negb_true_iff, Z.eqb_neq in Hne. exact Hne.
  - intros m Hin. apply filter_In in Hin. destruct Hin as [_ Hne].
    apply negb_true_iff, Z.eqb_neq in Hne. exact Hne.
  - now rewrite !filter_twice.
Qed.

(** C9 on a chat with two messages, next to a chat that stays. *)
Lemma C9_example :
  let env := Example.steady (Opened ["ok"] None) in
  let w :=
    serve_all Server.handle env
      [POST_chats (Some "Other");
       POST_chat_id 1 (Some [Example.says "hi"])]
      Example.one_chat in
  let w1 := fst (snd (serve Server.handle env (DELETE_chats_id 1) w)) in
  List.length (messages (db w)) = 2%nat
  /\ snd (snd (serve Server.handle env (DELETE_chats_id 1) w)) = no_content
  /\ messages (db w1) = []
  /\ map title (chats (db w1)) = ["Other"]
  /\ snd (snd (serve Server.handle env (DELETE_chats_id 1) w1)) = no_content
  /\ snd (snd (serve Server.handle env (GET_chats_id 1) w1)) = chat_not_found.
Proof.
  cbv zeta.
  destruct (@C9_delete_cascades (Example.steady (Opened ["ok"] None)) 1
              (serve_all Server.handle (Example.steady (Opened ["ok"] None))
                 [POST_chats (Some "Other");
                  POST_chat_id 1 (Some [Example.says "hi"])]
                 Example.one_chat)
              (quiet_steady _ _))
    as (_ & H204 & Hchats & Hmsgs & _ & _ & (_ & Hagain & _) & (_ & Hread & _)).
  split; [vm_compute; reflexivity|].
  split; [exact H204|].
  split; [rewrite Hmsgs; vm_compute; reflexivity|].
  split; [rewrite Hchats; vm_compute; reflexivity|].
  split; [exact Hagain | exact Hread].
Defined.

(* ================================================================= *)
(** ** The two send routes *)

Lemma filter_nil_iff A (f : A -> bool) (l : list A) :
  (forall x, In x l -> f x = false) -> filter f l = [].
Proof.
  induction l as [|x l IH]; cbn [filter]; intros H; [reflexivity|].
  rewrite (H x (or_introl eq_refl)). apply IH. intros y Hy. apply H. now right.
Qed.

Lemma no_user_entry (ms : list ReqMessage) :
  (forall m, In m ms -> req_role m <> "user") ->
  Common.currentUserMessage ms = None /\ find Common.is_user ms = None.
Proof.
  intros H.
  assert (Hf : forall m, In m ms -> Common.is_user m = false).
  { intros m Hin. unfold Common.is_user. apply String.eqb_neq. now apply H. }
  split.
  - unfold Common.currentUserMessage. now rewrite (filter_nil_iff _ _ Hf).
  - destruct (find Common.is_user ms) as [m|] eqn:E; [|reflexivity].
    apply find_some in E. destruct E as [Hin Hu]. rewrite (Hf m Hin) in Hu.
    discriminate.
Qed.

Lemma some_user_entry (ms : list ReqMessage) :
  (exists m, In m ms /\ req_role m = "user") ->
  exists m, Common.currentUserMessage ms = Some m.
Proof.
  intros (m & Hin & Hrole). unfold Common.currentUserMessage.
  assert (Hf : In m (rev (filter Common.is_user ms))).
  { apply in_rev. rewrite rev_involutive. apply filter_In. split; [exact Hin|].
    unfold Common.is_user. now apply String.eqb_eq. }
  destruct (rev (filter Common.is_user ms)) as [|m' l]; [destruct Hf|].
  now exists m'.
Qed.

Lemma has_chat_selected i w :
  has_chat i w = true ->
  exists c cs, filter (fun c => chat_id c =? i) (chats (db w)) = c :: cs.
Proof.
  unfold has_chat. intros H. apply existsb_exists in H.
  destruct H as (c & Hin & Hid).
  destruct (filter (fun c => chat_id c =? i) (chats (db w))) as [|c' cs] eqn:E.
  - assert (Hf : In c (filter (fun c => chat_id c =? i) (chats (db w))))
      by (apply filter_In; auto).
    rewrite E in Hf. destruct Hf.
  - now exists c', cs.
Qed.

(** [POST /chat/:chatId] on a chat that exists runs the helper after the
    lookup. *)
Lemma post_chat_id_existing env i ms w :
  quiet env w -> has_chat i w = true ->
  serve Server.handle env (POST_chat_id i ms) w
  = Server.handleChatMessages env i (Common.messages_or_empty ms) false
      (after_read env w, fresh_response).
Proof.
  intros Hq Hc. unfold serve, Server.handle, Common.post_chat_id. cbv zeta.
  unfold try_catch, bind at 1. rewrite sql_select_chat_ok by assumption.
  destruct (has_chat_selected i w Hc) as (c & cs & ->).
  destruct (server_always_ends env i (Common.messages_or_empty ms) false
              (after_read env w)) as [Hn _].
  destruct (Server.handleChatMessages env i (Common.messages_or_empty ms) false
              (after_read env w, fresh_response)) as [[[]|msg] s];
    [reflexivity | discriminate Hn].
Qed.

Lemma length_slice0 (n : nat) (s : string) :
  String.length (Js.slice0 n s) = Nat.min n (String.length s).
Proof.
  unfold Js.slice0. revert n. induction s as [|c s IH]; intros [|n]; cbn;
    try reflexivity.
  now rewrite IH.
Qed.

(** The title of [POST /chat] in terms of the text of the first user entry. *)
Lemma new_chat_title_spec (ms : list ReqMessage) :
  Common.new_chat_title ms
  = match find Common.is_user ms with
    | Some m =>
        if Js.truthy (spec_text m) then Js.slice0 50 (spec_text m) else "New Chat"
    | None => "New Chat"
    end.
Proof.
  unfold Common.new_chat_title, spec_text.
  destruct (find Common.is_user ms) as [m|]; [|reflexivity].
  destruct (Common.first_part_text m) as [[|c s]|];
    destruct (req_content m) as [[|c' s']|]; reflexivity.
Qed.

Lemma new_chat_title_short (ms : list ReqMessage) :
  (String.length (Common.new_chat_title ms) <= 50)%nat.
Proof.
  rewrite new_chat_title_spec.
  destruct (find Common.is_user ms) as [m|]; [|cbn; lia].
  destruct (Js.truthy (spec_text m)); [|cbn; lia].
  rewrite length_slice0. lia.
Qed.

(** [POST /chat] inserts the chat and runs the helper on it. *)
Lemma post_chat_new env ms w :
  quiet env w ->
  serve Server.handle env (POST_chat ms) w
  = Server.handleChatMessages env (next_chat_id (db w))
      (Common.messages_or_empty ms) true
      (after_insert_chat env (Common.new_chat_title (Common.messages_or_empty ms)) w,
       fresh_response).
Proof.
  intros Hq. unfold serve, Server.handle, Common.post_chat. cbv zeta.
  unfold try_catch, bind at 1.
  rewrite sql_insert_chat_ok
    by (try assumption; pose proof (new_chat_title_short (Common.messages_or_empty ms)); lia).
  cbn [chat_id].
  destruct (server_always_ends env (next_chat_id (db w))
              (Common.messages_or_empty ms) true
              (after_insert_chat env
                 (Common.new_chat_title (Common.messages_or_empty ms)) w))
    as [Hn _].
  destruct (Server.handleChatMessages env (next_chat_id (db w))
              (Common.messages_or_empty ms) true _) as [[[]|msg] s];
    [reflexivity | discriminate Hn].
Qed.

(** C2, as worded, fails on [POST /chat]: a batch holding only an assistant
    entry is answered 400, and a chat row was created before. *)
Lemma C2_new_chat_route_creates_the_chat :
  ~ no_side_effect (Example.steady (Opened [] None))
      (POST_chat (Some [mkReq "assistant" None (Some "hello")]))
      (initial_world 100).
Proof. unfold no_side_effect. vm_compute. discriminate. Qed.

(** C2, amended: a batch without an entry of role [user] is answered 400
    [No user message provided] on both routes, when the store accepts the
    statements. On [POST /chat/:chatId], for a chat that exists, nothing in
    the store changes. On [POST /chat] no message row is inserted, and the
    chat row titled [New Chat] that the route inserts first stays. *)
Theorem C2_no_user_message env ms w :
  quiet env w ->
  (forall m, In m (Common.messages_or_empty ms) -> req_role m <> "user") ->
  (forall i, has_chat i w = true ->
     let result := serve Server.handle env (POST_chat_id i ms) w in
     fst result = Normal tt
     /\ snd (snd result) = bad_request
     /\ db (fst (snd result)) = db w)
  /\ (let result := serve Server.handle env (POST_chat ms) w in
      fst result = Normal tt
      /\ snd (snd result) = bad_request
      /\ messages (db (fst (snd result))) = messages (db w)
      /\ chats (db (fst (snd result)))
         = (chats (db w)
            ++ [mkChat (next_chat_id (db w)) "New Chat" (now env w) (now env w)])%list).
Proof.
  intros Hq Hnone. destruct (no_user_entry _ Hnone) as [Hcur Hfirst]. split.
  - intros i Hc. cbv zeta. rewrite (@post_chat_id_existing env i ms w Hq Hc).
    unfold Server.handleChatMessages. rewrite Hcur. repeat split.
  - cbv zeta. rewrite (@post_chat_new env ms w Hq).
    unfold Server.handleChatMessages. rewrite Hcur.
    rewrite new_chat_title_spec, Hfirst. repeat split.
Qed.

(** C2 on both routes, for a batch holding only an assistant entry. *)
Lemma C2_example :
  let env := Example.steady (Opened [] None) in
  let ms := Some [mkReq "assistant" None (Some "hello")] in
  snd (snd (serve Server.handle env (POST_chat_id 1 ms) Example.one_chat))
  = bad_request
  /\ db (fst (snd (serve Server.handle env (POST_chat_id 1 ms) Example.one_chat)))
     = db Example.one_chat
  /\ snd (snd (serve Server.handle env (POST_chat ms) Example.one_chat))
     = bad_request
  /\ messages (db (fst (snd (serve Server.handle env (POST_chat ms) Example.one_chat))))
     = [].
Proof.
  cbv zeta.
  destruct (@C2_no_user_message (Example.steady (Opened [] None))
              (Some [mkReq "assistant" None (Some "hello")]) Example.one_chat
              (quiet_steady _ _))
    as [Hexisting (_ & Hnew & Hmsgs & _)].
  { intros m [<-|[]]. cbn. discriminate. }
  destruct (Hexisting 1 eq_refl) as (_ & H400 & Hdb).
  repeat split; assumption.
Defined.

(* ================================================================= *)
(** ** The new-chat route: title and header *)

(** Whatever the model does, a send with a user entry on a store that
    accepts the statements answers with the stream head, and leaves the
    chats as they were up to [updated_at]. *)
Lemma server_send_outcome env i ms b m w :
  quiet env w -> has_chat i w = true ->
  Common.currentUserMessage ms = Some m ->
  let result := Server.handleChatMessages env i ms b (w, fresh_response) in
  headers (snd (snd result)) = Common.stream_head i
  /\ (chats (db (fst (snd result))) = chats (db w)
      \/ exists t, chats (db (fst (snd result))) = map (Sql.touch i t) (chats (db w))).
Proof.
  intros Hq Hc Hm. cbv zeta.
  unfold Server.handleChatMessages. rewrite Hm. unfold try_catch.
  destruct (gateway env (List.length (prompts w))
              (ServerRun.context env i (Server.userMessageText m) w))
    as [msg|chunks [msg|]] eqn:Hg.
  - rewrite (server_attempt_rejected _ _ Hq Hc Hg).
    rewrite server_report_spec by reflexivity. split; [reflexivity | now left].
  - rewrite (server_attempt_interrupted _ _ Hq Hc Hg).
    rewrite server_report_spec by reflexivity. split; [reflexivity | now left].
  - rewrite (server_attempt_completes _ _ Hq Hc Hg).
    split; [reflexivity | right]. cbn [fst snd].
    unfold ServerRun.final, reply_stored.
    destruct (Js.truthy _); eexists; reflexivity.
Qed.

(** C7, as worded, fails: for a batch without user entry the chat is
    created with the default title and the answer is the 400 body, whose
    only header is the content type. *)
Lemma C7_bad_request_has_no_chat_id :
  ~ carries_chat_id (Example.steady (Opened [] None))
      (Some [mkReq "assistant" None (Some "hello")]) (initial_world 100).
Proof.
  unfold carries_chat_id. vm_compute. intros [v [H|[]]]. discriminate H.
Qed.

(** C7, amended: when the store accepts the statements, [POST /chat]
    creates a chat whose title is the first 50 characters of the text of the
    first user entry (first part, else content), or [New Chat] when there is
    no such entry or its text is empty; the title has at most 50 characters
    and exactly 50 when the text has 50 or more; and when the batch holds a
    user entry the answer carries the new id in the header [X-Chat-Id]. *)
Theorem C7_new_chat_title env ms w :
  quiet env w ->
  let msgs := Common.messages_or_empty ms in
  let t := Common.new_chat_title msgs in
  let result := serve Server.handle env (POST_chat ms) w in
  t = match find Common.is_user msgs with
      | Some m =>
          if Js.truthy (spec_text m) then Js.slice0 50 (spec_text m)
          else "New Chat"
      | None => "New Chat"
      end
  /\ (String.length t <= 50)%nat
  /\ (forall m, find Common.is_user msgs = Some m ->
        (50 <= String.length (spec_text m))%nat -> String.length t = 50%nat)
  /\ (exists c, In c (chats (db (fst (snd result))))
                /\ chat_id c = next_chat_id (db w)
                /\ title c = t
                /\ created_at c = now env w)
  /\ ((exists m, In m msgs /\ req_role m = "user") ->
      In ("X-Chat-Id", Js.toString (next_chat_id (db w)))
         (headers (snd (snd result)))).
Proof.
  intros Hq. cbv zeta.
  split; [apply new_chat_title_spec|].
  split; [apply new_chat_title_short|].
  split.
  { intros m Hfirst Hlen. rewrite new_chat_title_spec, Hfirst.
    destruct (spec_text m) as [|c s] eqn:E; [cbn in Hlen; lia|].
    cbn [Js.truthy]. rewrite length_slice0. lia. }
  rewrite (@post_chat_new env ms w Hq).
  set (msgs := Common.messages_or_empty ms).
  set (t := Common.new_chat_title msgs).
  assert (Hq1 : quiet env (after_insert_chat env t w))
    by (eapply quiet_later; [exact Hq | simpl; lia]).
  assert (Hc1 : has_chat (next_chat_id (db w)) (after_insert_chat env t w) = true).
  { unfold has_chat. cbn [after_insert_chat db chats].
    rewrite existsb_app. cbn [existsb chat_id]. rewrite Z.eqb_refl.
    now rewrite orb_true_r. }
  assert (Hnew : In (mkChat (next_chat_id (db w)) t (now env w) (now env w))
                    (chats (db (after_insert_chat env t w)))).
  { cbn [after_insert_chat db chats]. apply in_or_app. right. now left. }
  destruct (Common.currentUserMessage msgs) as [m|] eqn:Hcur.
  - destruct (@server_send_outcome env (next_chat_id (db w)) msgs true m
                (after_insert_chat env t w) Hq1 Hc1 Hcur) as [Hhead Hchats].
    split.
    + destruct Hchats as [-> | [t' ->]].
      * eexists. split; [exact Hnew|]. repeat split.
      * exists (Sql.touch (next_chat_id (db w)) t'
                  (mkChat (next_chat_id (db w)) t (now env w) (now env w))).
        split; [now apply in_map|].
        unfold Sql.touch. cbn [chat_id]. rewrite Z.eqb_refl. repeat split.
    + intros _. rewrite Hhead. unfold Common.stream_head. cbn [In]. tauto.
  - unfold Server.handleChatMessages. rewrite Hcur. cbn [fst snd bind].
    split.
    + eexists. split; [exact Hnew|]. repeat split.
    + intros Huser. apply some_user_entry in Huser.
      destruct Huser as [m Hm]. fold msgs in Hm. congruence.
Qed.

(** C7 on the messages of the specification: a short message gives its
    text as title, a message of 60 characters a title of 50, and the stream
    head carries the id of the chat. *)
Lemma C7_example :
  let env := Example.steady (Opened ["ok"] None) in
  let long := Some [Example.says Example.sixty] in
  String.length (Common.new_chat_title [Example.says Example.sixty]) = 50%nat
  /\ In ("X-Chat-Id", "2")
        (headers (snd (snd (serve Server.handle env (POST_chat long)
                              Example.one_chat))))
  /\ Common.new_chat_title [Example.says "Hello there, how are you doing today"]
     = "Hello there, how are you doing today".
Proof.
  cbv zeta.
  destruct (@C7_new_chat_title (Example.steady (Opened ["ok"] None))
              (Some [Example.says Example.sixty]) Example.one_chat
              (quiet_steady _ _))
    as (_ & _ & Hlen & _ & Hhead).
  split; [|split].
  - apply (Hlen (Example.says Example.sixty) eq_refl). vm_compute. lia.
  - apply Hhead. exists (Example.says Example.sixty). split; [now left | reflexivity].
  - reflexivity.
Defined.

(* ================================================================= *)
(** ** Timestamps *)

Lemma in_has_chat c i w :
  In c (chats (db w)) -> chat_id c = i -> has_chat i w = true.
Proof.
  intros Hin Hid. unfold has_chat. apply existsb_exists. exists c.
  split; [exact Hin | now apply Z.eqb_eq].
Qed.

Lemma wf_unique_chat w c c' :
  wf w -> In c (chats (db w)) -> In c' (chats (db w)) ->
  chat_id c = chat_id c' -> c = c'.
Proof.
  intros (_ & Hn & _) Hc Hc' Hid. exact (NoDup_map_unique _ _ _ _ Hn Hc Hc' Hid).
Qed.

(** A title update that is answered 200 rewrote the rows of that id. *)
Lemma put_chat_updated env i t w :
  let result := serve Server.handle env (PUT_chats_id i (Some t)) w in
  statusCode (snd (snd result)) = 200 ->
  chats (db (fst (snd result))) = map (Sql.set_title i t (now env w)) (chats (db w)).
Proof.
  cbv zeta. unfold serve, Server.handle, Common.put_chat, try_catch, bind.
  destruct (fault env (stmts w)) as [msg|] eqn:Hf.
  - erewrite sql_fault by exact Hf. cbn. discriminate.
  - rewrite sql_quiet by exact Hf. unfold Sql.update_title.
    destruct (existsb _ _ && _); cbn [fst snd].
    + cbn. discriminate.
    + destruct (filter _ _); cbn [fst snd]; [cbn; discriminate | reflexivity].
Qed.

Lemma final_chats env i text chunks w :
  chats (db (ServerRun.final env i text chunks w))
  = map (Sql.touch i (clock (ServerRun.final env i text chunks w))) (chats (db w)).
Proof. unfold ServerRun.final, reply_stored. now destruct (Js.truthy _). Qed.

(** C8: in every state the server reaches from the fresh database, by any
    requests and whatever the store and the model do, [created_at <=
    updated_at] holds of every chat; whatever requests follow, a chat that
    is still there has the [created_at] it had; a title update answered 200
    and a send that completed leave the chat with its [created_at] and with
    [updated_at] set to the time of the [UPDATE], which is later than the
    old value as soon as the clock has advanced. *)
Theorem C8_timestamps env t0 reqs :
  let w := serve_all Server.handle env reqs (initial_world t0) in
  Forall (fun c => created_at c <= updated_at c) (chats (db w))
  /\ (forall more c c',
        In c (chats (db w)) ->
        In c' (chats (db (serve_all Server.handle env more w))) ->
        chat_id c' = chat_id c ->
        created_at c' = created_at c)
  /\ (forall i t c c',
        let result := serve Server.handle env (PUT_chats_id i (Some t)) w in
        In c (chats (db w)) -> chat_id c = i ->
        statusCode (snd (snd result)) = 200 ->
        In c' (chats (db (fst (snd result)))) -> chat_id c' = i ->
        title c' = t
        /\ created_at c' = created_at c
        /\ updated_at c' = clock (fst (snd result))
        /\ updated_at c <= updated_at c'
        /\ (clock w < clock (fst (snd result)) -> updated_at c < updated_at c'))
  /\ (forall i ms m chunks c c',
        let result := serve Server.handle env (POST_chat_id i ms) w in
        quiet env w ->
        Common.currentUserMessage (Common.messages_or_empty ms) = Some m ->
        (forall prompt,
            gateway env (List.length (prompts w)) prompt = Opened chunks None) ->
        In c (chats (db w)) -> chat_id c = i ->
        In c' (chats (db (fst (snd result)))) -> chat_id c' = i ->
        created_at c' = created_at c
        /\ updated_at c' = clock (fst (snd result))
        /\ updated_at c <= updated_at c'
        /\ (clock w < clock (fst (snd result)) -> updated_at c < updated_at c'))
  /\ (forall ms m chunks c',
        let result := serve Server.handle env (POST_chat ms) w in
        quiet env w ->
        Common.currentUserMessage (Common.messages_or_empty ms) = Some m ->
        (forall prompt,
            gateway env (List.length (prompts w)) prompt = Opened chunks None) ->
        In c' (chats (db (fst (snd result)))) ->
        chat_id c' = next_chat_id (db w) ->
        created_at c' = now env w
        /\ updated_at c' = clock (fst (snd result))
        /\ created_at c' <= updated_at c').
Proof.
  cbv zeta. set (w := serve_all Server.handle env reqs (initial_world t0)).
  assert (Hwf : wf w) by apply reachable_wf.
  assert (Hpast : forall c, In c (chats (db w)) ->
            created_at c <= updated_at c /\ updated_at c <= clock w
            /\ chat_id c < next_chat_id (db w)).
  { destruct Hwf as (Hc & _). now rewrite Forall_forall in Hc. }
  split; [|split; [|split; [|split]]].
  - apply Forall_forall. intros c Hin. now apply Hpast.
  - intros more c c' Hin Hin' Hid.
    destruct (serve_all_sound Server.handle env (keeps_server_handle env) more w)
      as [_ H].
    destruct (H Hwf) as [_ [_ Hold]].
    destruct (Hold c' Hin') as (c0 & Hin0 & Hid0 & Hcr0).
    { rewrite Hid. now apply Hpast. }
    rewrite <- Hcr0. f_equal. apply (@wf_unique_chat w c0 c Hwf Hin0 Hin). congruence.
  - intros i t c c' Hin Hid H200 Hin' Hid'.
    pose proof (put_chat_updated env i t w H200) as Hchats.
    assert (Hclock : clock (fst (snd (serve Server.handle env
                       (PUT_chats_id i (Some t)) w))) = now env w).
    { unfold serve, Server.handle, Common.put_chat, try_catch, bind at 1, sql.
      destruct (fault env (stmts w)); [reflexivity|].
      destruct (Sql.update_title i (Some t) _ (db w)) as [[[|c1 cs]|msg] d];
        reflexivity. }
    rewrite Hclock. rewrite Hchats in Hin'. apply in_map_iff in Hin'.
    destruct Hin' as (c0 & <- & Hin0).
    assert (Hid0 : chat_id c0 = i).
    { unfold Sql.set_title in Hid'. now destruct (chat_id c0 =? i). }
    assert (c0 = c) as -> by (apply (@wf_unique_chat w c0 c Hwf Hin0 Hin); congruence).
    unfold Sql.set_title. rewrite (proj2 (Z.eqb_eq _ _) Hid). cbn.
    destruct (Hpast c Hin) as (_ & Hup & _).
    assert (clock w <= now env w) by (unfold now; lia).
    repeat split; lia.
  - intros i ms m chunks c c' Hq Hm Hg Hin Hid Hin' Hid'.
    pose proof (@in_has_chat c i w Hin Hid) as Hc.
    pose proof (keeps_server_handle env (POST_chat_id i ms) w fresh_response)
      as [Hmono _].
    fold (serve Server.handle env (POST_chat_id i ms) w) in Hmono.
    rewrite (@post_chat_id_existing env i ms w Hq Hc) in *.
    unfold Server.handleChatMessages in *. rewrite Hm in *.
    unfold try_catch in *.
    assert (Hq1 : quiet env (after_read env w))
      by (eapply quiet_later; [exact Hq | simpl; lia]).
    rewrite (server_attempt_completes _ _ Hq1 Hc (Hg _)) in *.
    cbn [fst snd] in *. rewrite final_chats in Hin'.
    apply in_map_iff in Hin'. destruct Hin' as (c0 & <- & Hin0).
    cbn [after_read db] in Hin0.
    assert (Hid0 : chat_id c0 = i).
    { unfold Sql.touch in Hid'. now destruct (chat_id c0 =? i). }
    assert (c0 = c) as -> by (apply (@wf_unique_chat w c0 c Hwf Hin0 Hin); congruence).
    unfold Sql.touch. rewrite (proj2 (Z.eqb_eq _ _) Hid). cbn [created_at updated_at].
    destruct (Hpast c Hin) as (_ & Hup & _).
    repeat split; lia.
  - intros ms m chunks c' Hq Hm Hg Hin' Hid'.
    pose proof (keeps_server_handle env (POST_chat ms) w fresh_response)
      as [Hmono _].
    fold (serve Server.handle env (POST_chat ms) w) in Hmono.
    rewrite (@post_chat_new env ms w Hq) in *.
    set (t := Common.new_chat_title (Common.messages_or_empty ms)) in *.
    assert (Hq1 : quiet env (after_insert_chat env t w))
      by (eapply quiet_later; [exact Hq | simpl; lia]).
    assert (Hc1 : has_chat (next_chat_id (db w)) (after_insert_chat env t w) = true).
    { unfold has_chat. cbn [after_insert_chat db chats].
      rewrite existsb_app. cbn [existsb chat_id]. rewrite Z.eqb_refl.
      now rewrite orb_true_r. }
    unfold Server.handleChatMessages in *. rewrite Hm in *.
    unfold try_catch in *.
    rewrite (server_attempt_completes _ _ Hq1 Hc1 (Hg _)) in *.
    cbn [fst snd] in *. rewrite final_chats in Hin'.
    apply in_map_iff in Hin'. destruct Hin' as (c0 & <- & Hin0).
    cbn [after_insert_chat db chats] in Hin0.
    assert (Hid0 : chat_id c0 = next_chat_id (db w)).
    { unfold Sql.touch in Hid'. now destruct (chat_id c0 =? next_chat_id (db w)). }
    apply in_app_or in Hin0. destruct Hin0 as [Hold | [<- | []]].
    { destruct (Hpast c0 Hold) as (_ & _ & Hlt). lia. }
    unfold Sql.touch. cbn [chat_id]. rewrite Z.eqb_refl.
    cbn [created_at updated_at].
    assert (now env w <= clock (ServerRun.final env (next_chat_id (db w))
                                  (Server.userMessageText m) chunks
                                  (after_insert_chat env t w))).
    { pose proof (keeps_server_handleChatMessages env (next_chat_id (db w))
                    (Common.messages_or_empty ms) true
                    (after_insert_chat env t w) fresh_response) as [Hm2 _].
      unfold Server.handleChatMessages, try_catch in Hm2. rewrite Hm in Hm2.
      rewrite (server_attempt_completes _ _ Hq1 Hc1 (Hg _)) in Hm2.
      exact Hm2. }
    repeat split; lia.
Qed.

(** C8 on one chat: created at 101, renamed, then used for a send. *)
Lemma C8_example :
  let env := Example.steady (Opened ["ok"] None) in
  let w := serve_all Server.handle env [POST_chats (Some "Test")] (initial_world 100) in
  let renamed := fst (snd (serve Server.handle env (PUT_chats_id 1 (Some "Renamed")) w)) in
  let sent :=
    fst (snd (serve Server.handle env (POST_chat_id 1 (Some [Example.says "hi"])) w)) in
  chats (db w) = [mkChat 1 "Test" 101 101]
  /\ (forall c', In c' (chats (db renamed)) -> chat_id c' = 1 ->
        created_at c' = 101 /\ 101 < updated_at c')
  /\ (forall c', In c' (chats (db sent)) -> chat_id c' = 1 ->
        created_at c' = 101 /\ 101 < updated_at c').
Proof.
  cbv zeta.
  destruct (@C8_timestamps (Example.steady (Opened ["ok"] None)) 100
              [POST_chats (Some "Test")])
    as (_ & _ & Hput & Hsend & _).
  split; [reflexivity|]. split.
  - intros c' Hin Hid.
    destruct (Hput 1 "Renamed" (mkChat 1 "Test" 101 101) c'
                (or_introl eq_refl) eq_refl eq_refl Hin Hid)
      as (_ & Hcr & _ & _ & Hlt).
    split; [exact Hcr | apply Hlt; vm_compute; reflexivity].
  - intros c' Hin Hid.
    destruct (Hsend 1 (Some [Example.says "hi"]) (Example.says "hi") ["ok"]
                (mkChat 1 "Test" 101 101) c'
                (quiet_steady _ _) eq_refl (fun _ => eq_refl)
                (or_introl eq_refl) eq_refl Hin Hid)
      as (Hcr & _ & _ & Hlt).
    split; [exact Hcr | apply Hlt; vm_compute; reflexivity].
Defined.

(* ================================================================= *)
(** ** Every request is answered *)




(* ================================================================= *)
(** ** Timestamps under any interleaving of the statements *)

Lemma exec_sound (st : Statement) (d : DB) (t now : Z) :
  t <= now -> wf_db d t -> wf_db (exec st now d) now /\ grows_db d (exec st now d).
Proof.
  intros Hle Hwf. destruct st; cbn [exec].
  - now apply (@sound_insert_chat t0 d t now).
  - now apply (@sound_select_chat i d t now).
  - now apply (@sound_select_chats d t now).
  - now apply (@sound_select_messages i d t now).
  - now apply (@sound_insert_message i r c d t now).
  - now apply (@sound_update_title i t0 d t now).
  - now apply (@sound_touch_chat i d t now).
  - now apply (@sound_delete_chat i d t now).
Qed.

Lemma exec_all_sound (sts : list (Statement * N)) :
  forall t d, wf_db d t ->
    wf_db (fst (exec_all sts t d)) (snd (exec_all sts t d))
    /\ grows_db d (fst (exec_all sts t d)).
Proof.
  induction sts as [|[st dt] sts IH]; intros t d Hwf; cbn [exec_all].
  - split; [exact Hwf | apply grows_db_refl].
  - assert (Hle : t <= t + Z.of_N dt) by lia.
    destruct (exec_sound st Hle Hwf) as [Hwf1 Hg1].
    destruct (IH _ _ Hwf1) as [Hwf2 Hg2].
    split; [exact Hwf2 | eapply grows_db_trans; eassumption].
Qed.

Lemma exec_all_app (sts1 sts2 : list (Statement * N)) (t : Z) (d : DB) :
  exec_all (sts1 ++ sts2) t d
  = exec_all sts2 (snd (exec_all sts1 t d)) (fst (exec_all sts1 t d)).
Proof.
  revert t d. induction sts1 as [|[st dt] sts1 IH]; intros t d; cbn [exec_all app].
  - reflexivity.
  - apply IH.
Qed.

(** X5: however the statements of concurrent requests interleave, from the
    fresh database on: every chat has [created_at <= updated_at], and a chat
    found after more statements has the [created_at] it had before. *)
Theorem timestamps_under_interleaving (sts more : list (Statement * N)) (t0 : Z) :
  let d := fst (exec_all sts t0 empty_db) in
  let d' := fst (exec_all (sts ++ more) t0 empty_db) in
  Forall (fun c => created_at c <= updated_at c) (chats d)
  /\ (forall c c', In c (chats d) -> In c' (chats d') ->
        chat_id c' = chat_id c -> created_at c' = created_at c).
Proof.
  cbv zeta. rewrite exec_all_app.
  assert (H0 : wf_db empty_db t0) by (repeat split; constructor).
  destruct (exec_all_sound sts H0) as [Hwf _].
  destruct (exec_all_sound more Hwf) as [_ [_ Hold]].
  destruct Hwf as (Hc & Hn & _).
  split.
  - eapply Forall_impl; [|exact Hc]. cbv beta. tauto.
  - intros c c' Hin Hin' Hid.
    rewrite Forall_forall in Hc.
    destruct (Hold c' Hin') as (c0 & Hin0 & Hid0 & Hcr0).
    { rewrite Hid. now apply Hc. }
    rewrite <- Hcr0. f_equal.
    apply (NoDup_map_unique _ _ _ _ Hn Hin0 Hin). congruence.
Qed.

(** Two requests interleaved: a title update lands between the statements
    of a send. *)
Lemma timestamps_under_interleaving_example :
  let sts := [(InsertChat "Test", 1%N); (InsertMessage 1 "user" "hi", 1%N)] in
  let more := [(UpdateTitle 1 (Some "Renamed"), 0%N); (SelectMessages 1, 1%N);
               (TouchChat 1, 2%N)] in
  Forall (fun c' => chat_id c' = 1 -> created_at c' = 101)
         (chats (fst (exec_all (sts ++ more) 100 empty_db))).
Proof.
  cbv zeta. apply Forall_forall. intros c' Hin Hid.
  exact (proj2 (timestamps_under_interleaving
                  [(InsertChat "Test", 1%N); (InsertMessage 1 "user" "hi", 1%N)]
                  [(UpdateTitle 1 (Some "Renamed"), 0%N); (SelectMessages 1, 1%N);
                   (TouchChat 1, 2%N)] 100)
               (mkChat 1 "Test" 101 101) c' (or_introl eq_refl) Hin Hid).
Defined.

(* ================================================================= *)
(** ** What a handler can do to the store *)

Section DbRelation.

Variable R : DB -> DB -> Prop.
Hypothesis R_refl : forall d, R d d.
Hypothesis R_trans : forall d1 d2 d3, R d1 d2 -> R d2 d3 -> R d1 d3.

Lemma db_keeps_ret A (a : A) : db_keeps R (ret a).
Proof. intros w r. apply R_refl. Qed.

Lemma db_keeps_throw A msg : db_keeps R (@throw A msg).
Proof. intros w r. apply R_refl. Qed.

Lemma db_keeps_bind A B (m : M A) (k : A -> M B) :
  db_keeps R m -> (forall a, db_keeps R (k a)) -> db_keeps R (bind m k).
Proof.
  intros Hm Hk w r. unfold bind. specialize (Hm w r).
  destruct (m (w, r)) as [[a|msg] [w' r']]; cbn [fst snd] in *.
  - eapply R_trans; [exact Hm | apply Hk].
  - exact Hm.
Qed.

Lemma db_keeps_try_catch A (body : M A) (handler : string -> M A) :
  db_keeps R body -> (forall msg, db_keeps R (handler msg)) ->
  db_keeps R (try_catch body handler).
Proof.
  intros Hm Hk w r. unfold try_catch. specialize (Hm w r).
  destruct (body (w, r)) as [[a|msg] [w' r']]; cbn [fst snd] in *.
  - exact Hm.
  - eapply R_trans; [exact Hm | apply Hk].
Qed.

Lemma db_keeps_sql A env (q : Z -> DB -> Completion A * DB) :
  respects R q -> db_keeps R (sql env q).
Proof.
  intros Hq w r. unfold sql. destruct (fault env (stmts w)); cbn [fst snd db].
  - apply R_refl.
  - specialize (Hq (clock w + Z.of_N (delay env (stmts w))) (db w)).
    now destruct (q _ (db w)).
Qed.

Lemma respects_read A (q : Z -> DB -> Completion A * DB) :
  (forall now d, snd (q now d) = d) -> respects R q.
Proof. intros H now d. rewrite H. apply R_refl. Qed.

Lemma db_keeps_still A (m : M A) :
  (forall w r, db (fst (snd (m (w, r)))) = db w) -> db_keeps R m.
Proof. intros H w r. rewrite H. apply R_refl. Qed.

Lemma db_keeps_res_status code : db_keeps R (res_status code).
Proof. now apply db_keeps_still. Qed.

Lemma db_keeps_res_json p : db_keeps R (res_json p).
Proof.
  apply db_keeps_still. intros w r. unfold res_json. now destruct (headersSent r).
Qed.

Lemma db_keeps_res_send : db_keeps R res_send.
Proof.
  apply db_keeps_still. intros w r. unfold res_send. now destruct (headersSent r).
Qed.

Lemma db_keeps_res_writeHead code hs : db_keeps R (res_writeHead code hs).
Proof.
  apply db_keeps_still. intros w r. unfold res_writeHead.
  now destruct (headersSent r).
Qed.

Lemma db_keeps_res_write chunk : db_keeps R (res_write chunk).
Proof.
  apply db_keeps_still. intros w r. unfold res_write. now destruct (ended r).
Qed.

Lemma db_keeps_res_end : db_keeps R res_end.
Proof. now apply db_keeps_still. Qed.

Lemma db_keeps_res_headersSent : db_keeps R res_headersSent.
Proof. now apply db_keeps_still. Qed.

Lemma db_keeps_model_stream env prompt : db_keeps R (model_stream env prompt).
Proof.
  apply db_keeps_still. intros w r. unfold model_stream.
  now destruct (gateway env _ prompt).
Qed.

Lemma respects_select_chat i : respects R (Sql.select_chat i).
Proof. now apply respects_read. Qed.

Lemma respects_select_chats : respects R Sql.select_chats.
Proof. now apply respects_read. Qed.

Lemma respects_select_messages i : respects R (Sql.select_messages i).
Proof. now apply respects_read. Qed.

Ltac db_step :=
  first [ assumption
        | apply db_keeps_ret | apply db_keeps_throw
        | apply db_keeps_res_status | apply db_keeps_res_json
        | apply db_keeps_res_send | apply db_keeps_res_writeHead
        | apply db_keeps_res_write | apply db_keeps_res_end
        | apply db_keeps_res_headersSent | apply db_keeps_model_stream
        | apply db_keeps_sql;
          first [ assumption | apply respects_select_chat
                | apply respects_select_chats | apply respects_select_messages
                | solve [auto] ]
        | match goal with
          | |- db_keeps _ (if ?b then _ else _) => destruct b
          | |- db_keeps _ (match ?l with [] => _ | _ :: _ => _ end) => destruct l
          end
        | apply db_keeps_bind; [|intros ?]
        | apply db_keeps_try_catch; [|intros ?] ].

Lemma db_keeps_for_await chunks failure :
  forall acc, db_keeps R (Common.for_await chunks failure acc).
Proof.
  induction chunks as [|c chunks IH]; intros acc; cbn [Common.for_await].
  - destruct failure; db_step.
  - destruct (Js.truthy c); [|apply IH].
    apply db_keeps_bind; [db_step | intros _; apply IH].
Qed.

(** The reads of the server leave the store as it is. *)
Lemma db_keeps_get_chats env : db_keeps R (Common.get_chats env).
Proof. unfold Common.get_chats. repeat db_step. Qed.

Lemma db_keeps_get_chat env i : db_keeps R (Common.get_chat env i).
Proof. unfold Common.get_chat. repeat db_step. Qed.

Lemma db_keeps_post_chats env t :
  (forall t', respects R (Sql.insert_chat t')) ->
  db_keeps R (Common.post_chats env t).
Proof. intros H. unfold Common.post_chats. repeat db_step. Qed.

Lemma db_keeps_put_chat env i t :
  respects R (Sql.update_title i t) -> db_keeps R (Common.put_chat env i t).
Proof. intros H. unfold Common.put_chat. repeat db_step. Qed.

Lemma db_keeps_delete_chat env i :
  respects R (Sql.delete_chat i) -> db_keeps R (Common.delete_chat env i).
Proof. intros H. unfold Common.delete_chat. repeat db_step. Qed.

Section Send.

Variable i : Z.
Hypothesis user_row : forall c, respects R (Sql.insert_message i "user" c).
Hypothesis assistant_row : forall c, respects R (Sql.insert_message i "assistant" c).
Hypothesis touched : respects R (Sql.touch_chat i).

Lemma db_keeps_finish env acc : db_keeps R (Common.finish env i acc).
Proof. unfold Common.finish. repeat db_step. Qed.

Lemma db_keeps_server_send env ms b :
  db_keeps R (Server.handleChatMessages env i ms b).
Proof.
  unfold Server.handleChatMessages.
  destruct (Common.currentUserMessage ms); [|repeat db_step].
  apply db_keeps_try_catch.
  - unfold Server.attempt.
    do 4 (apply db_keeps_bind; [repeat db_step | intros ?]).
    apply db_keeps_bind; [apply db_keeps_for_await | intros ?].
    apply db_keeps_finish.
  - intros msg. unfold Server.report. repeat db_step.
Qed.

Lemma db_keeps_index2_send env ms b :
  db_keeps R (Index2.handleChatMessages env i ms b).
Proof.
  unfold Index2.handleChatMessages.
  destruct (Common.currentUserMessage ms); [|repeat db_step]. cbv zeta.
  do 2 (apply db_keeps_bind; [repeat db_step | intros ?]).
  apply db_keeps_try_catch.
  - unfold Index2.attempt. cbv zeta.
    do 2 (apply db_keeps_bind; [repeat db_step | intros ?]).
    apply db_keeps_bind; [apply db_keeps_for_await | intros ?].
    apply db_keeps_finish.
  - intros msg. unfold Index2.report. repeat db_step.
Qed.

Lemma db_keeps_post_chat_id handler env ms :
  (forall ms b, db_keeps R (handler i ms b)) ->
  db_keeps R (Common.post_chat_id handler env i ms).
Proof. intros H. unfold Common.post_chat_id. cbv zeta. repeat db_step. apply H. Qed.

End Send.

End DbRelation.

Section DbRelationEverywhere.

Variable R : DB -> DB -> Prop.
Hypothesis R_refl : forall d, R d d.
Hypothesis R_trans : forall d1 d2 d3, R d1 d2 -> R d2 d3 -> R d1 d3.
Hypothesis chat_row : forall t, respects R (Sql.insert_chat t).
Hypothesis user_row : forall i c, respects R (Sql.insert_message i "user" c).
Hypothesis assistant_row : forall i c, respects R (Sql.insert_message i "assistant" c).
Hypothesis touched : forall i, respects R (Sql.touch_chat i).
Hypothesis retitled : forall i t, respects R (Sql.update_title i t).
Hypothesis deleted : forall i, respects R (Sql.delete_chat i).

Lemma db_keeps_post_chat handler env ms :
  (forall i ms b, db_keeps R (handler i ms b)) ->
  db_keeps R (Common.post_chat handler env ms).
Proof.
  intros H. unfold Common.post_chat. cbv zeta.
  apply db_keeps_try_catch; [assumption | |].
  - apply db_keeps_bind; [assumption | |].
    + apply db_keeps_sql; [assumption | apply chat_row].
    + intros c. apply H.
  - intros msg. apply db_keeps_bind; [assumption | |].
    + now apply db_keeps_res_status.
    + intros _. now apply db_keeps_res_json.
Qed.

Lemma db_keeps_routes handler env req :
  (forall i ms b, db_keeps R (handler i ms b)) ->
  db_keeps R
    match req with
    | GET_chats => Common.get_chats env
    | GET_chats_id id => Common.get_chat env id
    | POST_chats t => Common.post_chats env t
    | PUT_chats_id id t => Common.put_chat env id t
    | DELETE_chats_id id => Common.delete_chat env id
    | POST_chat ms => Common.post_chat handler env ms
    | POST_chat_id id ms => Common.post_chat_id handler env id ms
    end.
Proof.
  intros H. destruct req.
  - now apply db_keeps_get_chats.
  - now apply db_keeps_get_chat.
  - now apply db_keeps_post_chats.
  - now apply db_keeps_put_chat.
  - now apply db_keeps_delete_chat.
  - now apply db_keeps_post_chat.
  - apply db_keeps_post_chat_id; [assumption | assumption |]. intros. apply H.
Qed.

Lemma db_keeps_server_handle env req : db_keeps R (Server.handle env req).
Proof.
  apply (db_keeps_routes (Server.handleChatMessages env) env req).
  intros i ms b. now apply db_keeps_server_send.
Qed.

Lemma db_keeps_index2_handle env req : db_keeps R (Index2.handle env req).
Proof.
  apply (db_keeps_routes (Index2.handleChatMessages env) env req).
  intros i ms b. now apply db_keeps_index2_send.
Qed.

Lemma db_keeps_serve_all h env :
  (forall req, db_keeps R (h env req)) ->
  forall reqs w, R (db w) (db (serve_all h env reqs w)).
Proof.
  intros Hh reqs. induction reqs as [|req reqs IH]; intros w; cbn [serve_all].
  - apply R_refl.
  - eapply R_trans; [|apply IH]. unfold serve. apply Hh.
Qed.

End DbRelationEverywhere.

(* ================================================================= *)
(** ** Integrity of the tables *)

Lemma existsb_same_ids (f : Chat -> Chat) (i : Z) (cs : list Chat) :
  (forall c, chat_id (f c) = chat_id c) ->
  existsb (fun c => chat_id c =? i) (map f cs)
  = existsb (fun c => chat_id c =? i) cs.
Proof.
  intros Hf. induction cs as [|c cs IH]; cbn [map existsb]; [reflexivity|].
  now rewrite Hf, IH.
Qed.

Lemma integrity_insert_chat t now d :
  integrity d -> integrity (snd (Sql.insert_chat t now d)).
Proof.
  intros H. unfold Sql.insert_chat.
  destruct (255 <? String.length t)%nat; cbn [snd]; [exact H|].
  destruct H as (Hr & Ho & Hi).
  split; [|split; [exact Ho | exact Hi]].
  unfold refs_ok in *. cbn [chats messages].
  eapply Forall_impl; [|exact Hr]. cbv beta. intros m Hm.
  rewrite existsb_app, Hm. reflexivity.
Qed.

Lemma integrity_insert_message i r c now d :
  r = "user" \/ r = "assistant" ->
  integrity d -> integrity (snd (Sql.insert_message i r c now d)).
Proof.
  intros Hrole H. unfold Sql.insert_message.
  destruct (existsb _ (chats d)) eqn:Hc; cbn [snd]; [|exact H].
  destruct H as (Hr & Ho & Hn & Hlt).
  split; [|split; [|split]];
    unfold refs_ok, roles_ok in *; cbn [chats messages next_msg_id].
  - apply Forall_app. split; [exact Hr|]. constructor; [exact Hc | constructor].
  - apply Forall_app. split; [exact Ho|]. constructor; [exact Hrole | constructor].
  - rewrite map_app. cbn [map msg_id]. apply NoDup_snoc; [exact Hn|].
    intros Hin. apply in_map_iff in Hin. destruct Hin as (m & Hid & Hin).
    rewrite Forall_forall in Hlt. specialize (Hlt m Hin). lia.
  - apply Forall_app. split.
    + eapply Forall_impl; [|exact Hlt]. cbv beta. intros m ?. lia.
    + constructor; [cbn; lia | constructor].
Qed.

Lemma integrity_rewrite_chats (f : Chat -> Chat) d :
  (forall c, chat_id (f c) = chat_id c) ->
  integrity d ->
  integrity (mkDB (map f (chats d)) (messages d) (next_chat_id d) (next_msg_id d)).
Proof.
  intros Hf (Hr & Ho & Hi). split; [|split; [exact Ho | exact Hi]].
  unfold refs_ok in *. cbn [chats messages].
  eapply Forall_impl; [|exact Hr]. cbv beta. intros m Hm.
  now rewrite existsb_same_ids.
Qed.

Lemma integrity_touch_chat i now d :
  integrity d -> integrity (snd (Sql.touch_chat i now d)).
Proof.
  intros H. apply integrity_rewrite_chats; [|exact H].
  intros c. unfold Sql.touch. now destruct (chat_id c =? i).
Qed.

Lemma integrity_update_title i t now d :
  integrity d -> integrity (snd (Sql.update_title i t now d)).
Proof.
  intros H. unfold Sql.update_title. destruct t as [t|].
  - destruct (existsb _ _ && _); cbn [snd]; [exact H|].
    apply integrity_rewrite_chats; [|exact H].
    intros c. unfold Sql.set_title. now destruct (chat_id c =? i).
  - now destruct (existsb _ _).
Qed.

Lemma integrity_delete_chat i now d :
  integrity d -> integrity (snd (Sql.delete_chat i now d)).
Proof.
  intros (Hr & Ho & Hn & Hlt). unfold Sql.delete_chat. cbn [snd].
  unfold integrity, refs_ok, roles_ok, msg_ids_ok in *.
  cbn [chats messages next_msg_id].
  rewrite Forall_forall in Hr, Ho, Hlt. split; [|split; [|split]].
  - apply Forall_forall. intros m Hin. apply filter_In in Hin.
    destruct Hin as [Hin Hne]. specialize (Hr m Hin).
    apply existsb_exists in Hr. destruct Hr as (c & Hc & Hid).
    apply existsb_exists. exists c. split; [|exact Hid].
    apply filter_In. split; [exact Hc|].
    apply Z.eqb_eq in Hid. now rewrite Hid.
  - apply Forall_forall. intros m Hin. apply filter_In in Hin. now apply Ho.
  - clear Hr Ho Hlt. induction (messages d) as [|m ms IH]; cbn [filter map];
      [constructor|].
    cbn [map] in Hn. apply NoDup_cons_iff in Hn. destruct Hn as [Hm Hn].
    destruct (negb (msg_chat_id m =? i)); cbn [map]; [|now apply IH].
    apply NoDup_cons; [|now apply IH].
    intros Hin. apply Hm. apply in_map_iff in Hin.
    destruct Hin as (m' & Hid & Hin). apply filter_In in Hin.
    apply in_map_iff. exists m'. tauto.
  - apply Forall_forall. intros m Hin. apply filter_In in Hin. now apply Hlt.
Qed.

Lemma integrity_empty : integrity empty_db.
Proof. split; [|split; [|split]]; constructor. Qed.

(** X6: in every state the server reaches from the fresh database, by any
    requests and whatever the store and the model answer, every message
    belongs to a chat that exists (no orphans), has the role [user] or
    [assistant], and has an id of its own below the counter. The same holds
    of the handlers of [index2.ts]. *)
Theorem reachable_store_integrity env reqs t0 :
  integrity (db (serve_all Server.handle env reqs (initial_world t0)))
  /\ integrity (db (serve_all Index2.handle env reqs (initial_world t0))).
Proof.
  assert (Hrefl : forall d, integrity d -> integrity d) by auto.
  assert (Htrans : forall d1 d2 d3 : DB,
             (integrity d1 -> integrity d2) -> (integrity d2 -> integrity d3) ->
             integrity d1 -> integrity d3) by auto.
  split.
  - apply (@db_keeps_serve_all (fun d d' => integrity d -> integrity d')
             Hrefl Htrans Server.handle env); [|exact integrity_empty].
    intros req. apply db_keeps_server_handle; try assumption; intros; intros now d.
    + apply integrity_insert_chat.
    + apply integrity_insert_message. now left.
    + apply integrity_insert_message. now right.
    + apply integrity_touch_chat.
    + apply integrity_update_title.
    + apply integrity_delete_chat.
  - apply (@db_keeps_serve_all (fun d d' => integrity d -> integrity d')
             Hrefl Htrans Index2.handle env); [|exact integrity_empty].
    intros req. apply db_keeps_index2_handle; try assumption; intros; intros now d.
    + apply integrity_insert_chat.
    + apply integrity_insert_message. now left.
    + apply integrity_insert_message. now right.
    + apply integrity_touch_chat.
    + apply integrity_update_title.
    + apply integrity_delete_chat.
Qed.

(* ================================================================= *)
(** ** What a send leaves alone *)

Lemma same_elsewhere_refl i d : same_elsewhere i d d.
Proof. split; reflexivity. Qed.

Lemma same_elsewhere_trans i d1 d2 d3 :
  same_elsewhere i d1 d2 -> same_elsewhere i d2 d3 -> same_elsewhere i d1 d3.
Proof. intros [H1 H2] [H3 H4]. split; congruence. Qed.

Lemma others_untouched i now (cs : list Chat) :
  filter (fun c => negb (chat_id c =? i)) (map (Sql.touch i now) cs)
  = filter (fun c => negb (chat_id c =? i)) cs.
Proof.
  induction cs as [|c cs IH]; cbn [map filter]; [reflexivity|].
  unfold Sql.touch at 1 2. destruct (chat_id c =? i) eqn:E; cbn [chat_id negb].
  - rewrite E. cbn [negb]. exact IH.
  - rewrite E. cbn [negb]. now rewrite IH.
Qed.

Lemma same_elsewhere_insert_message i r c :
  respects (same_elsewhere i) (Sql.insert_message i r c).
Proof.
  intros now d. unfold Sql.insert_message.
  destruct (existsb _ _); cbn [snd]; [|apply same_elsewhere_refl].
  split; cbn [chats messages]; [reflexivity|].
  rewrite filter_app. cbn [filter msg_chat_id]. rewrite Z.eqb_refl. cbn [negb].
  apply app_nil_r.
Qed.

Lemma same_elsewhere_touch_chat i : respects (same_elsewhere i) (Sql.touch_chat i).
Proof.
  intros now d. unfold Sql.touch_chat. cbn [snd].
  split; cbn [chats messages]; [apply others_untouched | reflexivity].
Qed.

(** X7: whatever the store and the model answer, a send to chat [i] through
    [POST /chat/:chatId] leaves the rows of every other chat and the
    messages of every other chat exactly as they were, in [server.ts] and in
    [index2.ts]. *)
Theorem send_leaves_other_chats_alone env i ms w :
  same_elsewhere i (db w) (db (fst (snd (serve Server.handle env (POST_chat_id i ms) w))))
  /\ same_elsewhere i (db w)
       (db (fst (snd (serve Index2.handle env (POST_chat_id i ms) w)))).
Proof.
  split; unfold serve; cbn [Server.handle Index2.handle].
  - apply (@db_keeps_post_chat_id (same_elsewhere i) (same_elsewhere_refl i)
             (@same_elsewhere_trans i) i (Server.handleChatMessages env) env ms).
    intros ms' b.
    apply (@db_keeps_server_send (same_elsewhere i) (same_elsewhere_refl i)
             (@same_elsewhere_trans i) i).
    + intros c. apply same_elsewhere_insert_message.
    + intros c. apply same_elsewhere_insert_message.
    + apply same_elsewhere_touch_chat.
  - apply (@db_keeps_post_chat_id (same_elsewhere i) (same_elsewhere_refl i)
             (@same_elsewhere_trans i) i (Index2.handleChatMessages env) env ms).
    intros ms' b.
    apply (@db_keeps_index2_send (same_elsewhere i) (same_elsewhere_refl i)
             (@same_elsewhere_trans i) i).
    + intros c. apply same_elsewhere_insert_message.
    + intros c. apply same_elsewhere_insert_message.
    + apply same_elsewhere_touch_chat.
Qed.

(* ================================================================= *)
(** ** The [messages] table is append-only *)

Lemma same_messages_refl d : same_messages d d.
Proof. split; reflexivity. Qed.

Lemma same_messages_trans d1 d2 d3 :
  same_messages d1 d2 -> same_messages d2 d3 -> same_messages d1 d3.
Proof. intros [H1 H2] [H3 H4]. split; congruence. Qed.

Lemma appended_to_refl i d : appended_to i d d.
Proof.
  split; [lia|]. exists []. split; [now rewrite app_nil_r | constructor].
Qed.

Lemma appended_to_trans i d1 d2 d3 :
  appended_to i d1 d2 -> appended_to i d2 d3 -> appended_to i d1 d3.
Proof.
  intros (Hn12 & s12 & E12 & F12) (Hn23 & s23 & E23 & F23).
  split; [lia|]. exists (s12 ++ s23)%list. split.
  - now rewrite E23, E12, app_assoc.
  - apply Forall_app. split.
    + eapply Forall_impl; [|exact F12]. cbv beta. intros m ?. lia.
    + eapply Forall_impl; [|exact F23]. cbv beta. intros m ?. lia.
Qed.

Lemma appended_refl d : appended d d.
Proof.
  split; [lia|]. exists []. split; [now rewrite app_nil_r | constructor].
Qed.

Lemma appended_trans d1 d2 d3 : appended d1 d2 -> appended d2 d3 -> appended d1 d3.
Proof.
  intros (Hn12 & s12 & E12 & F12) (Hn23 & s23 & E23 & F23).
  split; [lia|]. exists (s12 ++ s23)%list. split.
  - now rewrite E23, E12, app_assoc.
  - apply Forall_app. split.
    + eapply Forall_impl; [|exact F12]. cbv beta. intros m ?. lia.
    + eapply Forall_impl; [|exact F23]. cbv beta. intros m ?. lia.
Qed.

Lemma appended_to_weaken i d d' : appended_to i d d' -> appended d d'.
Proof.
  intros (Hn & s & E & F). split; [exact Hn|]. exists s. split; [exact E|].
  eapply Forall_impl; [|exact F]. cbv beta. tauto.
Qed.

Lemma appended_to_insert_message i r c :
  respects (appended_to i) (Sql.insert_message i r c).
Proof.
  intros now d. unfold Sql.insert_message.
  destruct (existsb _ _); cbn [snd]; [|apply appended_to_refl].
  split; cbn [next_msg_id messages]; [lia|].
  eexists. split; [reflexivity|]. constructor; [cbn; lia | constructor].
Qed.

Lemma appended_to_touch_chat i j : respects (appended_to i) (Sql.touch_chat j).
Proof.
  intros now d. unfold Sql.touch_chat. cbn [snd].
  split; cbn [next_msg_id messages]; [lia|].
  exists []. split; [now rewrite app_nil_r | constructor].
Qed.

Lemma same_messages_insert_chat t : respects same_messages (Sql.insert_chat t).
Proof.
  intros now d. unfold Sql.insert_chat.
  destruct (_ <? _)%nat; cbn [snd]; split; reflexivity.
Qed.

Lemma same_messages_update_title i t : respects same_messages (Sql.update_title i t).
Proof.
  intros now d. unfold Sql.update_title. destruct t as [t|].
  - destruct (existsb _ _ && _); cbn [snd]; split; reflexivity.
  - destruct (existsb _ _); cbn [snd]; split; reflexivity.
Qed.

Lemma appended_of_same d d' : same_messages d d' -> appended d d'.
Proof.
  intros [E N]. split; [lia|]. exists []. split; [now rewrite app_nil_r, E | constructor].
Qed.

(** X8: whatever the store and the model answer, no request edits, moves or
    drops a stored message, except that [DELETE /chats/:id] removes the
    messages of that chat. The reads, [POST /chats] and [PUT /chats/:id]
    leave the table as it is; a send only adds rows at its end, with new
    ids, and [POST /chat/:chatId] only rows of that chat. *)
Theorem messages_are_append_only env req w :
  messages_effect req (db w) (db (fst (snd (serve Server.handle env req w)))).
Proof.
  unfold serve. destruct req as [|id|t|id t|id|ms|id ms];
    cbn [messages_effect Server.handle].
  - apply (@db_keeps_get_chats same_messages same_messages_refl same_messages_trans).
  - apply (@db_keeps_get_chat same_messages same_messages_refl same_messages_trans).
  - apply (@db_keeps_post_chats same_messages same_messages_refl same_messages_trans).
    intros t'. apply same_messages_insert_chat.
  - apply (@db_keeps_put_chat same_messages same_messages_refl same_messages_trans).
    apply same_messages_update_title.
  - unfold Common.delete_chat, try_catch, bind.
    destruct (fault env (stmts w)) eqn:Hf.
    + erewrite sql_fault by exact Hf. now left.
    + rewrite sql_quiet by exact Hf. now right.
  - apply (@db_keeps_post_chat appended appended_refl appended_trans).
    + intros t now d. apply appended_of_same. apply same_messages_insert_chat.
    + intros i ms' b.
      apply (@db_keeps_server_send appended appended_refl appended_trans i).
      * intros c now d. apply (@appended_to_weaken i), appended_to_insert_message.
      * intros c now d. apply (@appended_to_weaken i), appended_to_insert_message.
      * intros now d. apply (@appended_to_weaken i), appended_to_touch_chat.
  - apply (@db_keeps_post_chat_id (appended_to id) (appended_to_refl id)
             (@appended_to_trans id) id (Server.handleChatMessages env) env ms).
    intros ms' b.
    apply (@db_keeps_server_send (appended_to id) (appended_to_refl id)
             (@appended_to_trans id) id).
    + intros c. apply appended_to_insert_message.
    + intros c. apply appended_to_insert_message.
    + apply appended_to_touch_chat.
Qed.

(* ================================================================= *)
(** ** One call to the model per request *)

























(* ================================================================= *)
(** ** [GET /chats]: every chat, the most recently updated first *)

Section SortBy.

Variable A : Type.
Variable le : A -> A -> bool.
Hypothesis le_total : forall a b, le a b = true \/ le b a = true.
Hypothesis le_trans : forall a b c, le a b = true -> le b c = true -> le a c = true.

Lemma insert_by_perm (x : A) (l : list A) :
  Permutation (Sql.insert_by le x l) (x :: l).
Proof.
  induction l as [|y l IH]; cbn [Sql.insert_by]; [apply Permutation_refl|].
  destruct (le x y); [apply Permutation_refl|].
  apply Permutation_trans with (y :: x :: l);
    [now apply perm_skip | apply perm_swap].
Qed.

Lemma sort_by_perm (l : list A) : Permutation (Sql.sort_by le l) l.
Proof.
  unfold Sql.sort_by. induction l as [|x l IH]; cbn [fold_right];
    [apply Permutation_refl|].
  apply Permutation_trans with (x :: fold_right (Sql.insert_by le) [] l);
    [apply insert_by_perm | now apply perm_skip].
Qed.

Lemma insert_by_ordered (x : A) (l : list A) :
  StronglySorted (fun a b => le a b = true) l ->
  StronglySorted (fun a b => le a b = true) (Sql.insert_by le x l).
Proof.
  induction 1 as [|y l Hl IH Hy]; cbn [Sql.insert_by].
  - repeat constructor.
  - destruct (le x y) eqn:Hxy.
    + constructor; [now constructor|].
      constructor; [exact Hxy|].
      eapply Forall_impl; [|exact Hy]. cbv beta. intros z Hz. eauto.
    + constructor; [exact IH|].
      assert (Hyx : le y x = true) by (destruct (le_total x y); congruence).
      eapply Permutation_Forall;
        [apply Permutation_sym, insert_by_perm | now constructor].
Qed.

Lemma sort_by_ordered (l : list A) :
  StronglySorted (fun a b => le a b = true) (Sql.sort_by le l).
Proof.
  unfold Sql.sort_by. induction l as [|x l IH]; cbn [fold_right];
    [constructor | now apply insert_by_ordered].
Qed.

End SortBy.

Lemma select_chats_newest_first (cs : list Chat) :
  newest_first (Sql.sort_by (fun a b => updated_at b <=? updated_at a) cs).
Proof.
  unfold newest_first.
  eapply StronglySorted_ind with
    (P := fun l => StronglySorted (fun a b => updated_at b <= updated_at a) l);
    [constructor | |
     apply (sort_by_ordered (fun a b : Chat => updated_at b <=? updated_at a))].
  - intros a l _ IH Ha. constructor; [exact IH|].
    eapply Forall_impl; [|exact Ha]. cbv beta. intros b Hb.
    now apply Z.leb_le.
  - intros a b. destruct (Z.le_ge_cases (updated_at b) (updated_at a));
      [left | right]; now apply Z.leb_le.
  - intros a b c Hab Hbc. apply Z.leb_le in Hab, Hbc. apply Z.leb_le. lia.
Qed.

Lemma get_chats_ok env w :
  quiet env w ->
  serve Server.handle env GET_chats w
  = (Normal tt,
     (after_read env w,
      ok_json (ChatList (Sql.sort_by (fun a b => updated_at b <=? updated_at a)
                                     (chats (db w)))))).
Proof.
  intros Hq. unfold serve, Server.handle, Common.get_chats, try_catch, bind.
  rewrite sql_quiet by now apply quiet_now. reflexivity.
Qed.

(** X10: when the store accepts the statement, [GET /chats] answers 200
    with every chat of the table exactly once, ordered by [updated_at] from
    the most recent to the oldest, and changes nothing. *)
Theorem chats_are_listed_newest_first env w :
  quiet env w ->
  exists cs,
    serve Server.handle env GET_chats w
    = (Normal tt, (after_read env w, ok_json (ChatList cs)))
    /\ Permutation cs (chats (db w))
    /\ newest_first cs
    /\ db (after_read env w) = db w.
Proof.
  intros Hq. eexists. split; [now apply get_chats_ok|].
  split; [apply sort_by_perm|]. split; [apply select_chats_newest_first | reflexivity].
Qed.

(** Two chats, the older one renamed last: it comes first. *)
Lemma chats_are_listed_newest_first_example :
  let env := Example.steady (Opened [] None) in
  let w := serve_all Server.handle env
             [POST_chats (Some "A"); POST_chats (Some "B");
              PUT_chats_id 1 (Some "A2")] (initial_world 100) in
  exists cs,
    serve Server.handle env GET_chats w
    = (Normal tt, (after_read env w, ok_json (ChatList cs)))
    /\ Permutation cs [mkChat 1 "A2" 101 103; mkChat 2 "B" 102 102]
    /\ newest_first cs
    /\ db (after_read env w) = db w.
Proof.
  cbv zeta.
  exact (@chats_are_listed_newest_first (Example.steady (Opened [] None)) _
           (quiet_steady _ _)).
Defined.

(** The chat whose [updated_at] is later than every other comes first. *)
Lemma newest_is_first (x : Chat) (cs : list Chat) :
  In x cs ->
  (forall y, In y cs -> y = x \/ updated_at y < updated_at x) ->
  exists rest,
    Sql.sort_by (fun a b => updated_at b <=? updated_at a) cs = x :: rest.
Proof.
  intros Hx Hnew.
  pose proof (sort_by_perm (fun a b => updated_at b <=? updated_at a) cs) as Hp.
  pose proof (select_chats_newest_first cs) as Hs.
  destruct (Sql.sort_by (fun a b => updated_at b <=? updated_at a) cs)
    as [|h rest].
  - apply Permutation_nil in Hp. subst cs. destruct Hx.
  - exists rest. f_equal.
    assert (Hh : In h cs) by (eapply Permutation_in; [exact Hp | now left]).
    destruct (Hnew h Hh) as [-> | Hlt]; [reflexivity|].
    assert (Hxin : In x (h :: rest))
      by (eapply Permutation_in; [apply Permutation_sym; exact Hp | exact Hx]).
    destruct Hxin as [-> | Hrest]; [reflexivity|].
    unfold newest_first in Hs. apply StronglySorted_inv in Hs.
    destruct Hs as [_ Hall]. rewrite Forall_forall in Hall.
    specialize (Hall x Hrest). lia.
Qed.

(* ================================================================= *)
(** ** [GET /chats/:id]: the chat and its messages *)

Lemma only_row (cs : list Chat) (c : Chat) :
  NoDup (map chat_id cs) -> In c cs ->
  filter (fun c' => chat_id c' =? chat_id c) cs = [c].
Proof.
  induction cs as [|x cs IH]; cbn [map filter]; intros Hn Hin; [destruct Hin|].
  apply NoDup_cons_iff in Hn. destruct Hn as [Hx Hn].
  destruct Hin as [-> | Hin].
  - rewrite Z.eqb_refl. f_equal. apply filter_nil_iff. intros y Hy.
    apply Z.eqb_neq. intros E. apply Hx. rewrite <- E. now apply in_map.
  - destruct (chat_id x =? chat_id c) eqn:E; [|now apply IH].
    exfalso. apply Z.eqb_eq in E. apply Hx. rewrite E. now apply in_map.
Qed.

Lemma get_chat_ok env i w c cs :
  quiet env w ->
  filter (fun c => chat_id c =? i) (chats (db w)) = c :: cs ->
  serve Server.handle env (GET_chats_id i) w
  = (Normal tt,
     (after_read env (after_read env w),
      ok_json (ChatWithMessages c (map Common.to_ui (Sql.messages_of i (db w)))))).
Proof.
  intros Hq Hsel. unfold serve, Server.handle, Common.get_chat, try_catch.
  unfold bind at 1. rewrite sql_select_chat_ok by assumption. rewrite Hsel.
  unfold bind. rewrite sql_select_messages_ok
    by (apply (@quiet_later env w _ Hq); cbn; lia).
  reflexivity.
Qed.

(** X11: in every state the server reaches from the fresh database,
    [GET /chats/:id] on a chat of the table answers 200, when the store
    accepts the two statements, with the row of the chat and all the
    messages of that chat and no other, in the order they were stored, which
    is the order of their creation times; each message is given with its id
    as a string and its content repeated as the single text part. The store
    is left as it was. *)
Theorem chat_is_read_with_its_messages env reqs t0 c :
  let w := serve_all Server.handle env reqs (initial_world t0) in
  quiet env w -> In c (chats (db w)) ->
  serve Server.handle env (GET_chats_id (chat_id c)) w
  = (Normal tt,
     (after_read env (after_read env w),
      ok_json (ChatWithMessages c
                 (map Common.to_ui (own_messages (chat_id c) (db w))))))
  /\ ascending msg_created_at (own_messages (chat_id c) (db w))
  /\ db (after_read env (after_read env w)) = db w.
Proof.
  cbv zeta. intros Hq Hin.
  pose proof (reachable_wf env reqs t0) as Hwf.
  split; [|split; [|reflexivity]].
  - rewrite (@get_chat_ok env (chat_id c) _ c []); [|assumption|].
    + now rewrite (messages_of_ordered (chat_id c) Hwf).
    + apply only_row; [apply Hwf | exact Hin].
  - apply ascending_filter. apply Hwf.
Qed.

Lemma chat_is_read_with_its_messages_example :
  let env := Example.steady (Opened ["Hello"] None) in
  let w := serve_all Server.handle env
             [POST_chats (Some "Test"); POST_chats None;
              POST_chat_id 1 (Some [Example.says "hi"]);
              POST_chat_id 2 (Some [Example.says "ho"])] (initial_world 100) in
  serve Server.handle env (GET_chats_id 1) w
  = (Normal tt,
     (after_read env (after_read env w),
      ok_json (ChatWithMessages (mkChat 1 "Test" 101 107)
                 [mkUI "1" "user" "hi" [mkPart "text" "hi"];
                  mkUI "2" "assistant" "Hello" [mkPart "text" "Hello"]]))).
Proof.
  cbv zeta.
  exact (proj1 (@chat_is_read_with_its_messages
                  (Example.steady (Opened ["Hello"] None))
                  [POST_chats (Some "Test"); POST_chats None;
                   POST_chat_id 1 (Some [Example.says "hi"]);
                   POST_chat_id 2 (Some [Example.says "ho"])] 100
                  (mkChat 1 "Test" 101 107)
                  (quiet_steady _ _) ltac:(vm_compute; left; reflexivity))).
Defined.

(* ================================================================= *)
(** ** The chat that was just renamed or answered comes first *)

Lemma set_title_keeps_id i t now c : chat_id (Sql.set_title i t now c) = chat_id c.
Proof. unfold Sql.set_title. now destruct (chat_id c =? i). Qed.

Lemma touch_keeps_id i now c : chat_id (Sql.touch i now c) = chat_id c.
Proof. unfold Sql.touch. now destruct (chat_id c =? i). Qed.

(** Rewriting rows in place commutes with selecting by id. *)
Lemma select_rewritten (f : Chat -> Chat) (i : Z) (cs : list Chat) :
  (forall c, chat_id (f c) = chat_id c) ->
  filter (fun c => chat_id c =? i) (map f cs)
  = map f (filter (fun c => chat_id c =? i) cs).
Proof.
  intros Hf. induction cs as [|c cs IH]; cbn [map filter]; [reflexivity|].
  rewrite Hf. destruct (chat_id c =? i); cbn [map]; now rewrite IH.
Qed.

(** After rows of [i] were stamped with a time later than every
    [updated_at] of the table, the row of [i] is the most recent one. *)
Lemma stamped_row_is_newest (f : Chat -> Chat) (w : World) (c : Chat) (t : Z) :
  wf w -> In c (chats (db w)) -> clock w < t ->
  (forall x, chat_id x = chat_id c -> updated_at (f x) = t) ->
  (forall x, chat_id x <> chat_id c -> f x = x) ->
  (forall x, chat_id (f x) = chat_id x) ->
  exists rest,
    Sql.sort_by (fun a b => updated_at b <=? updated_at a) (map f (chats (db w)))
    = f c :: rest.
Proof.
  intros Hwf Hin Ht Hnew Hold Hid. apply newest_is_first.
  - now apply in_map.
  - intros y Hy. apply in_map_iff in Hy. destruct Hy as (x & <- & Hx).
    destruct (Z.eq_dec (chat_id x) (chat_id c)) as [E|E].
    + left. f_equal. exact (@wf_unique_chat w x c Hwf Hx Hin E).
    + right. rewrite (Hold x E), (Hnew c eq_refl).
      destruct Hwf as (Hc & _). rewrite Forall_forall in Hc.
      specialize (Hc x Hx). unfold wf in *. lia.
Qed.

Lemma put_chat_ok env t w c :
  wf w -> quiet env w -> (String.length t <= 255)%nat -> In c (chats (db w)) ->
  serve Server.handle env (PUT_chats_id (chat_id c) (Some t)) w
  = (Normal tt,
     (after_update_title env (chat_id c) t w,
      ok_json (ChatRow (mkChat (chat_id c) t (created_at c) (now env w))))).
Proof.
  intros Hwf Hq Hlen Hin.
  unfold serve, Server.handle, Common.put_chat, try_catch, bind.
  rewrite sql_quiet by now apply quiet_now.
  unfold Sql.update_title.
  replace (255 <? String.length t)%nat with false
    by (symmetry; apply Nat.ltb_ge; exact Hlen).
  rewrite andb_false_r. cbn [fst snd].
  rewrite (@select_rewritten _ (chat_id c) (chats (db w))
             (set_title_keeps_id (chat_id c) t (now env w))).
  rewrite (@only_row (chats (db w)) c (proj1 (proj2 Hwf)) Hin). cbn [map].
  unfold Sql.set_title at 1. rewrite Z.eqb_refl. reflexivity.
Qed.

(** X12: a title update on a chat of the table, with a title that fits
    the column, answers 200 with the row carrying the new title, the old
    [created_at] and the time of the update; if time has passed since the
    last statement, a [GET /chats] that follows lists this row first. *)
Theorem renamed_chat_is_listed_first env reqs t0 c t :
  let w := serve_all Server.handle env reqs (initial_world t0) in
  let c' := mkChat (chat_id c) t (created_at c) (now env w) in
  let w1 := after_update_title env (chat_id c) t w in
  quiet env w -> In c (chats (db w)) -> (String.length t <= 255)%nat ->
  clock w < now env w ->
  serve Server.handle env (PUT_chats_id (chat_id c) (Some t)) w
  = (Normal tt, (w1, ok_json (ChatRow c')))
  /\ exists rest,
       serve Server.handle env GET_chats w1
       = (Normal tt, (after_read env w1, ok_json (ChatList (c' :: rest)))).
Proof.
  cbv zeta. intros Hq Hin Hlen Hlater.
  pose proof (reachable_wf env reqs t0) as Hwf.
  split; [now apply put_chat_ok|].
  rewrite get_chats_ok by (apply (@quiet_later env _ _ Hq); cbn; lia).
  cbn [after_update_title db chats].
  destruct (@stamped_row_is_newest
              (Sql.set_title (chat_id c) t
                 (now env (serve_all Server.handle env reqs (initial_world t0))))
              _ c _ Hwf Hin Hlater) as [rest Hrest].
  - intros x Hx. unfold Sql.set_title. apply Z.eqb_eq in Hx. now rewrite Hx.
  - intros x Hx. unfold Sql.set_title. apply Z.eqb_neq in Hx. now rewrite Hx.
  - intros x. apply set_title_keeps_id.
  - exists rest. rewrite Hrest. unfold Sql.set_title. now rewrite Z.eqb_refl.
Qed.

Lemma renamed_chat_is_listed_first_example :
  let env := Example.steady (Opened [] None) in
  let w := serve_all Server.handle env
             [POST_chats (Some "A"); POST_chats (Some "B")] (initial_world 100) in
  let w1 := after_update_title env 1 "A2" w in
  serve Server.handle env (PUT_chats_id 1 (Some "A2")) w
  = (Normal tt, (w1, ok_json (ChatRow (mkChat 1 "A2" 101 103))))
  /\ exists rest,
       serve Server.handle env GET_chats w1
       = (Normal tt,
          (after_read env w1, ok_json (ChatList (mkChat 1 "A2" 101 103 :: rest)))).
Proof.
  cbv zeta.
  exact (@renamed_chat_is_listed_first (Example.steady (Opened [] None))
           [POST_chats (Some "A"); POST_chats (Some "B")] 100
           (mkChat 1 "A" 101 101) "A2"
           (quiet_steady _ _) ltac:(vm_compute; left; reflexivity)
           ltac:(vm_compute; lia) ltac:(vm_compute; reflexivity)).
Defined.

(** A send to an existing chat that the model answers to the end. *)
Lemma send_completes env i ms m chunks w :
  quiet env w -> has_chat i w = true ->
  Common.currentUserMessage (Common.messages_or_empty ms) = Some m ->
  (forall prompt, gateway env (List.length (prompts w)) prompt = Opened chunks None) ->
  serve Server.handle env (POST_chat_id i ms) w
  = (Normal tt,
     (ServerRun.final env i (Server.userMessageText m) chunks (after_read env w),
      mkRes true 200 (Common.stream_head i) (ServerRun.events chunks) None true)).
Proof.
  intros Hq Hc Hm Hg. rewrite post_chat_id_existing by assumption.
  unfold Server.handleChatMessages. rewrite Hm. unfold try_catch.
  rewrite (@server_attempt_completes env i (Server.userMessageText m)
             (after_read env w) chunks);
    [reflexivity | apply (@quiet_later env w _ Hq); cbn; lia | exact Hc | apply Hg].
Qed.

Lemma final_later env i text chunks w :
  (stmts w <= stmts (ServerRun.final env i text chunks w))%nat.
Proof.
  unfold ServerRun.final, reply_stored, ServerRun.asked.
  destruct (Js.truthy _); cbn; lia.
Qed.

(** X13: after a send to an existing chat that the model answered to the
    end, and during which the clock advanced, a [GET /chats] that follows
    lists this chat first, with its title and [created_at] unchanged and
    [updated_at] at the time the exchange was closed. *)
Theorem answered_chat_is_listed_first env reqs t0 c ms m chunks :
  let w := serve_all Server.handle env reqs (initial_world t0) in
  let w1 := fst (snd (serve Server.handle env (POST_chat_id (chat_id c) ms) w)) in
  quiet env w -> In c (chats (db w)) ->
  Common.currentUserMessage (Common.messages_or_empty ms) = Some m ->
  (forall prompt, gateway env (List.length (prompts w)) prompt = Opened chunks None) ->
  clock w < clock w1 ->
  exists rest,
    serve Server.handle env GET_chats w1
    = (Normal tt,
       (after_read env w1,
        ok_json (ChatList (mkChat (chat_id c) (title c) (created_at c) (clock w1)
                           :: rest)))).
Proof.
  cbv zeta. intros Hq Hin Hm Hg.
  pose proof (reachable_wf env reqs t0) as Hwf.
  set (w := serve_all Server.handle env reqs (initial_world t0)) in *.
  rewrite (@send_completes env (chat_id c) ms m chunks w Hq
             (@in_has_chat c (chat_id c) w Hin eq_refl) Hm Hg).
  cbn [fst snd]. intros Hlater.
  set (w1 := ServerRun.final env (chat_id c) (Server.userMessageText m) chunks
               (after_read env w)) in *.
  rewrite get_chats_ok.
  - unfold w1 at 2. rewrite final_chats. fold w1. cbn [after_read db].
    destruct (@stamped_row_is_newest (Sql.touch (chat_id c) (clock w1))
                w c (clock w1) Hwf Hin Hlater) as [rest Hrest].
    + intros x Hx. unfold Sql.touch. apply Z.eqb_eq in Hx. now rewrite Hx.
    + intros x Hx. unfold Sql.touch. apply Z.eqb_neq in Hx. now rewrite Hx.
    + intros x. apply touch_keeps_id.
    + exists rest. rewrite Hrest. unfold Sql.touch. now rewrite Z.eqb_refl.
  - apply (@quiet_later env w w1 Hq).
    pose proof (final_later env (chat_id c) (Server.userMessageText m) chunks
                  (after_read env w)) as Hs.
    fold w1 in Hs. cbn [after_read stmts] in Hs. lia.
Qed.

Lemma answered_chat_is_listed_first_example :
  let env := Example.steady (Opened ["Hello"] None) in
  let w := serve_all Server.handle env
             [POST_chats (Some "A"); POST_chats (Some "B")] (initial_world 100) in
  let w1 := fst (snd (serve Server.handle env
                        (POST_chat_id 1 (Some [Example.says "hi"])) w)) in
  exists rest,
    serve Server.handle env GET_chats w1
    = (Normal tt,
       (after_read env w1, ok_json (ChatList (mkChat 1 "A" 101 107 :: rest)))).
Proof.
  cbv zeta.
  exact (@answered_chat_is_listed_first (Example.steady (Opened ["Hello"] None))
           [POST_chats (Some "A"); POST_chats (Some "B")] 100
           (mkChat 1 "A" 101 101) (Some [Example.says "hi"]) (Example.says "hi")
           ["Hello"]
           (quiet_steady _ _) ltac:(vm_compute; left; reflexivity)
           eq_refl (fun _ => eq_refl) ltac:(vm_compute; reflexivity)).
Defined.

(* ================================================================= *)
(** ** A chat that was just created *)

Lemma server_handle_keeps_integrity env req :
  db_keeps (fun d d' => integrity d -> integrity d') (Server.handle env req).
Proof.
  apply db_keeps_server_handle; try (intros; intros now d); auto.
  - apply integrity_insert_chat.
  - apply integrity_insert_message. now left.
  - apply integrity_insert_message. now right.
  - apply integrity_touch_chat.
  - apply integrity_update_title.
  - apply integrity_delete_chat.
Qed.

Lemma server_reachable_integrity env reqs t0 :
  integrity (db (serve_all Server.handle env reqs (initial_world t0))).
Proof.
  apply (@db_keeps_serve_all (fun d d' => integrity d -> integrity d')
           (fun d H => H) (fun d1 d2 d3 H12 H23 H => H23 (H12 H))
           Server.handle env (server_handle_keeps_integrity env));
    exact integrity_empty.
Qed.

(** No message is waiting for the id the next chat will get. *)
Lemma next_chat_has_no_message w :
  wf w -> integrity (db w) -> own_messages (next_chat_id (db w)) (db w) = [].
Proof.
  intros (Hc & _) (Hr & _). apply filter_nil_iff. intros m Hm.
  unfold refs_ok in Hr. rewrite Forall_forall in Hr, Hc.
  specialize (Hr m Hm). apply existsb_exists in Hr.
  destruct Hr as (c & Hin & Hid). apply Z.eqb_eq in Hid.
  apply Z.eqb_neq. specialize (Hc c Hin). lia.
Qed.

Lemma next_chat_is_new w :
  wf w -> filter (fun c => chat_id c =? next_chat_id (db w)) (chats (db w)) = [].
Proof.
  intros (Hc & _). apply filter_nil_iff. intros c Hin.
  rewrite Forall_forall in Hc. specialize (Hc c Hin). apply Z.eqb_neq. lia.
Qed.

Lemma post_chats_ok env title w :
  let t := match title with Some t => t | None => "New Chat" end in
  quiet env w -> (String.length t <= 255)%nat ->
  serve Server.handle env (POST_chats title) w
  = (Normal tt,
     (after_insert_chat env t w,
      created_json (ChatRow (mkChat (next_chat_id (db w)) t (now env w) (now env w))))).
Proof.
  cbv zeta. intros Hq Hlen.
  unfold serve, Server.handle, Common.post_chats, try_catch, bind.
  rewrite sql_insert_chat_ok by assumption. reflexivity.
Qed.

(** X14: [POST /chats] answers 201 with the new row: an id no chat of the
    table has, the title given or [New Chat] when none is given, and
    [created_at = updated_at]. A [GET /chats/:id] on that id then answers
    200 with the same row and an empty list of messages: no message of an
    earlier chat, deleted or not, shows up in the new one. *)
Theorem created_chat_reads_back env reqs t0 title :
  let w := serve_all Server.handle env reqs (initial_world t0) in
  let t := match title with Some t => t | None => "New Chat" end in
  let c := mkChat (next_chat_id (db w)) t (now env w) (now env w) in
  let w1 := after_insert_chat env t w in
  quiet env w -> (String.length t <= 255)%nat ->
  serve Server.handle env (POST_chats title) w
  = (Normal tt, (w1, created_json (ChatRow c)))
  /\ ~ In (chat_id c) (map chat_id (chats (db w)))
  /\ serve Server.handle env (GET_chats_id (chat_id c)) w1
     = (Normal tt,
        (after_read env (after_read env w1), ok_json (ChatWithMessages c []))).
Proof.
  cbv zeta. intros Hq Hlen.
  pose proof (reachable_wf env reqs t0) as Hwf.
  pose proof (server_reachable_integrity env reqs t0) as Hint.
  set (w := serve_all Server.handle env reqs (initial_world t0)) in *.
  split; [now apply post_chats_ok|]. split.
  - intros Hin. apply in_map_iff in Hin. destruct Hin as (c & Hid & Hin).
    destruct Hwf as (Hc & _). rewrite Forall_forall in Hc.
    specialize (Hc c Hin). cbn [chat_id] in Hid. lia.
  - cbn [chat_id].
    rewrite (@get_chat_ok env (next_chat_id (db w)) _
               (mkChat (next_chat_id (db w))
                  match title with Some t => t | None => "New Chat" end
                  (now env w) (now env w)) []).
    + unfold Sql.messages_of. cbn [after_insert_chat db messages].
      pose proof (next_chat_has_no_message Hwf Hint) as Hnone.
      unfold own_messages in Hnone. rewrite Hnone. reflexivity.
    + apply (@quiet_later env w _ Hq). cbn. lia.
    + cbn [after_insert_chat db chats]. rewrite filter_app.
      rewrite (next_chat_is_new Hwf). cbn [filter chat_id app].
      now rewrite Z.eqb_refl.
Qed.

Lemma created_chat_reads_back_example :
  let env := Example.steady (Opened ["Hello"] None) in
  let w := serve_all Server.handle env
             [POST_chat (Some [Example.says "hi"]); DELETE_chats_id 1]
             (initial_world 100) in
  let c := mkChat 2 "New Chat" 107 107 in
  let w1 := after_insert_chat env "New Chat" w in
  serve Server.handle env (POST_chats None) w
  = (Normal tt, (w1, created_json (ChatRow c)))
  /\ ~ In 2 (map chat_id (chats (db w)))
  /\ serve Server.handle env (GET_chats_id 2) w1
     = (Normal tt,
        (after_read env (after_read env w1), ok_json (ChatWithMessages c []))).
Proof.
  cbv zeta.
  exact (@created_chat_reads_back (Example.steady (Opened ["Hello"] None))
           [POST_chat (Some [Example.says "hi"]); DELETE_chats_id 1] 100 None
           (quiet_steady _ _) ltac:(vm_compute; lia)).
Defined.

(* ================================================================= *)
(** ** A chat that does not exist *)

Lemma no_chat_selected i w :
  has_chat i w = false -> filter (fun c => chat_id c =? i) (chats (db w)) = [].
Proof.
  unfold has_chat. intros H. apply filter_nil_iff. intros c Hin.
  destruct (chat_id c =? i) eqn:E; [|reflexivity].
  rewrite <- H. symmetry. apply existsb_exists. now exists c.
Qed.

Lemma nothing_to_retitle i t now (cs : list Chat) :
  filter (fun c => chat_id c =? i) cs = [] -> map (Sql.set_title i t now) cs = cs.
Proof.
  induction cs as [|c cs IH]; cbn [filter map]; [reflexivity|].
  unfold Sql.set_title at 1. destruct (chat_id c =? i); [discriminate|].
  intros H. now rewrite IH.
Qed.

Lemma put_chat_missing env i t w :
  quiet env w -> has_chat i w = false ->
  serve Server.handle env (PUT_chats_id i (Some t)) w
  = (Normal tt, (after_read env w, chat_not_found)).
Proof.
  intros Hq Hno. pose proof (no_chat_selected i w Hno) as Hsel.
  unfold serve, Server.handle, Common.put_chat, try_catch, bind.
  rewrite sql_quiet by now apply quiet_now.
  unfold Sql.update_title. unfold has_chat in Hno. rewrite Hno.
  cbn [andb fst snd].
  rewrite (nothing_to_retitle i t (now env w) (chats (db w)) Hsel), Hsel.
  unfold after_read. destruct w as [[cs ms nc nm] t0 n ps]. reflexivity.
Qed.

Lemma post_chat_id_missing handler env i ms w :
  quiet env w -> has_chat i w = false ->
  Common.post_chat_id handler env i ms (w, fresh_response)
  = (Normal tt, (after_read env w, chat_not_found)).
Proof.
  intros Hq Hno. unfold Common.post_chat_id. cbv zeta.
  unfold try_catch, bind at 1. rewrite sql_select_chat_ok by assumption.
  rewrite (no_chat_selected i w Hno). reflexivity.
Qed.

(** X15: when no chat has the id, [GET /chats/:id], [PUT /chats/:id] and
    [POST /chat/:chatId] answer 404 [Chat not found] after a single
    statement; nothing is stored and the model is not called. The handlers
    of [index2.ts] do the same. *)
Theorem unknown_chat_is_not_found env i req w :
  quiet env w -> has_chat i w = false -> addresses i req ->
  serve Server.handle env req w = (Normal tt, (after_read env w, chat_not_found))
  /\ serve Index2.handle env req w = (Normal tt, (after_read env w, chat_not_found)).
Proof.
  intros Hq Hno Hreq.
  destruct req as [|j|title|j [t|]|j|ms|j ms]; cbn [addresses] in Hreq;
    try contradiction.
  - subst j.
    change (serve Index2.handle env (GET_chats_id i) w)
      with (serve Server.handle env (GET_chats_id i) w).
    split; apply get_chat_missing; auto using no_chat_selected.
  - destruct Hreq as [-> _].
    change (serve Index2.handle env (PUT_chats_id i (Some t)) w)
      with (serve Server.handle env (PUT_chats_id i (Some t)) w).
    split; now apply put_chat_missing.
  - subst j. split; unfold serve, Server.handle, Index2.handle;
      now apply post_chat_id_missing.
Qed.

Lemma unknown_chat_is_not_found_example :
  let env := Example.steady (Opened ["Hello"] None) in
  let req := POST_chat_id 7 (Some [Example.says "hi"]) in
  serve Server.handle env req Example.one_chat
  = (Normal tt, (after_read env Example.one_chat, chat_not_found))
  /\ serve Index2.handle env req Example.one_chat
     = (Normal tt, (after_read env Example.one_chat, chat_not_found)).
Proof.
  cbv zeta.
  exact (@unknown_chat_is_not_found (Example.steady (Opened ["Hello"] None)) 7
           (POST_chat_id 7 (Some [Example.says "hi"])) Example.one_chat
           (quiet_steady _ _) eq_refl eq_refl).
Defined.

(* ================================================================= *)
(** ** Reading a chat back after an exchange *)

Lemma final_messages env i text chunks w :
  messages (db (ServerRun.final env i text chunks w))
  = (messages (db w)
     ++ mkMsg (next_msg_id (db w)) i "user" text (now env w)
        :: (if Js.truthy (Js.trim (join chunks))
            then [mkMsg (next_msg_id (db w) + 1) i "assistant" (join chunks)
                    (now env (ServerRun.asked env i text w))]
            else []))%list.
Proof.
  unfold ServerRun.final, reply_stored.
  destruct (Js.truthy (Js.trim (join chunks))); cbn; [|reflexivity].
  now rewrite <- app_assoc.
Qed.

(** X16: after a send to an existing chat that the model answered to the
    end, [GET /chats/:id] returns what it returned before for the messages,
    followed by the user message and then, unless the reply was blank, by
    the reply made of the fragments in order; ids continue the counter.
    Rows of equal creation time are taken in insertion order, as the sort
    of the model has it. *)
Theorem exchange_is_read_back env reqs t0 c ms m chunks :
  let w := serve_all Server.handle env reqs (initial_world t0) in
  let i := chat_id c in
  let w1 := fst (snd (serve Server.handle env (POST_chat_id i ms) w)) in
  let n := next_msg_id (db w) in
  let text := Server.userMessageText m in
  quiet env w -> In c (chats (db w)) ->
  Common.currentUserMessage (Common.messages_or_empty ms) = Some m ->
  (forall prompt, gateway env (List.length (prompts w)) prompt = Opened chunks None) ->
  serve Server.handle env (GET_chats_id i) w1
  = (Normal tt,
     (after_read env (after_read env w1),
      ok_json
        (ChatWithMessages (mkChat i (title c) (created_at c) (clock w1))
           (map Common.to_ui (own_messages i (db w))
            ++ mkUI (Js.toString n) "user" text [mkPart "text" text]
               :: (if Js.truthy (Js.trim (join chunks))
                   then [mkUI (Js.toString (n + 1)) "assistant" (join chunks)
                           [mkPart "text" (join chunks)]]
                   else []))))).
Proof.
  cbv zeta. intros Hq Hin Hm Hg.
  pose proof (reachable_wf env reqs t0) as Hwf.
  set (w := serve_all Server.handle env reqs (initial_world t0)) in *.
  assert (Hwf1 : wf (fst (snd (serve Server.handle env
                                 (POST_chat_id (chat_id c) ms) w))))
    by (apply (keeps_server_handle env (POST_chat_id (chat_id c) ms) w
                 fresh_response); exact Hwf).
  rewrite (@send_completes env (chat_id c) ms m chunks w Hq
             (@in_has_chat c (chat_id c) w Hin eq_refl) Hm Hg) in *.
  cbn [fst snd] in *.
  set (text := Server.userMessageText m) in *.
  set (w1 := ServerRun.final env (chat_id c) text chunks (after_read env w)) in *.
  assert (Hmsgs : messages (db w1) = _)
    by (unfold w1; apply final_messages).
  assert (Hchats : chats (db w1)
                   = map (Sql.touch (chat_id c) (clock w1)) (chats (db w)))
    by exact (@final_chats env (chat_id c) text chunks (after_read env w)).
  rewrite (@get_chat_ok env (chat_id c) w1
             (mkChat (chat_id c) (title c) (created_at c) (clock w1)) []).
  - rewrite (messages_of_ordered (chat_id c) Hwf1).
    rewrite Hmsgs. cbn [after_read db].
    rewrite filter_app, map_app. unfold own_messages. do 3 f_equal.
    cbn [filter msg_chat_id]. rewrite Z.eqb_refl.
    destruct (Js.truthy (Js.trim (join chunks))); cbn [filter msg_chat_id map];
      [rewrite Z.eqb_refl|]; reflexivity.
  - apply (@quiet_later env w w1 Hq).
    pose proof (final_later env (chat_id c) text chunks (after_read env w)) as Hs.
    fold w1 in Hs. cbn [after_read stmts] in Hs. lia.
  - rewrite Hchats.
    rewrite (@select_rewritten _ (chat_id c) (chats (db w))
               (touch_keeps_id (chat_id c) (clock w1))).
    rewrite (@only_row (chats (db w)) c (proj1 (proj2 Hwf)) Hin). cbn [map].
    unfold Sql.touch. now rewrite Z.eqb_refl.
Qed.

Lemma exchange_is_read_back_example :
  let env := Example.steady (Opened ["Hel"; "lo"] None) in
  let w := serve_all Server.handle env
             [POST_chat (Some [Example.says "hi"]); POST_chats None]
             (initial_world 100) in
  let w1 := fst (snd (serve Server.handle env
                        (POST_chat_id 1 (Some [Example.says "more"])) w)) in
  serve Server.handle env (GET_chats_id 1) w1
  = (Normal tt,
     (after_read env (after_read env w1),
      ok_json
        (ChatWithMessages (mkChat 1 "hi" 101 111)
           [mkUI "1" "user" "hi" [mkPart "text" "hi"];
            mkUI "2" "assistant" "Hello" [mkPart "text" "Hello"];
            mkUI "3" "user" "more" [mkPart "text" "more"];
            mkUI "4" "assistant" "Hello" [mkPart "text" "Hello"]]))).
Proof.
  cbv zeta.
  exact (@exchange_is_read_back (Example.steady (Opened ["Hel"; "lo"] None))
           [POST_chat (Some [Example.says "hi"]); POST_chats None] 100
           (mkChat 1 "hi" 101 105) (Some [Example.says "more"])
           (Example.says "more") ["Hel"; "lo"]
           (quiet_steady _ _) ltac:(vm_compute; left; reflexivity)
           eq_refl (fun _ => eq_refl)).
Defined.

(* ================================================================= *)
(** ** A generation that fails *)

Lemma text_delta_is_not_done content : Common.text_delta content <> Common.done_event.
Proof. unfold Common.text_delta, Common.done_event. cbn. discriminate. Qed.

Lemma error_event_is_not_done msg : Common.error_event msg <> Common.done_event.
Proof. unfold Common.error_event, Common.done_event. cbn. discriminate. Qed.

(** X17: when the model call of a send to an existing chat fails, rejected
    or broken off while streaming, the user message stays stored as the last
    row, no assistant row is added and the chat's row is not touched, so its
    [updated_at] does not move; the response is a 200 stream that ends with
    the error event and carries no [[DONE]] event. *)
Theorem failed_generation_keeps_the_question env i ms m msg w :
  quiet env w -> has_chat i w = true ->
  Common.currentUserMessage (Common.messages_or_empty ms) = Some m ->
  (forall prompt, model_fails msg (gateway env (List.length (prompts w)) prompt)) ->
  let result := serve Server.handle env (POST_chat_id i ms) w in
  let w1 := fst (snd result) in
  let r1 := snd (snd result) in
  fst result = Normal tt
  /\ messages (db w1)
     = (messages (db w)
        ++ [mkMsg (next_msg_id (db w)) i "user" (Server.userMessageText m)
              (now env (after_read env w))])%list
  /\ chats (db w1) = chats (db w)
  /\ statusCode r1 = 200
  /\ (exists deltas, written r1 = (deltas ++ [Common.error_event msg])%list)
  /\ ~ In Common.done_event (written r1)
  /\ ended r1 = true.
Proof.
  intros Hq Hc Hm Hg. cbv zeta.
  rewrite post_chat_id_existing by assumption.
  unfold Server.handleChatMessages. rewrite Hm. unfold try_catch.
  assert (Hq1 : quiet env (after_read env w))
    by (apply (@quiet_later env w _ Hq); cbn; lia).
  specialize (Hg (ServerRun.context env i (Server.userMessageText m)
                    (after_read env w))).
  destruct (gateway env (List.length (prompts w))
              (ServerRun.context env i (Server.userMessageText m)
                 (after_read env w))) as [msg'|chunks [msg'|]] eqn:Eg;
    cbn [model_fails] in Hg; try contradiction; subst msg'.
  - rewrite (@server_attempt_rejected env i (Server.userMessageText m)
               (after_read env w) msg Hq1 Hc Eg).
    rewrite server_report_spec by reflexivity.
    cbn. repeat split; try reflexivity.
    + now exists [].
    + intros [H|[]]. exact (error_event_is_not_done H).
  - rewrite (@server_attempt_interrupted env i (Server.userMessageText m)
               (after_read env w) chunks msg Hq1 Hc Eg).
    rewrite server_report_spec by reflexivity.
    cbn. repeat split; try reflexivity.
    + eexists. reflexivity.
    + intros H. apply in_app_or in H. destruct H as [H|[H|[]]].
      * apply in_map_iff in H. destruct H as (x & H & _).
        exact (text_delta_is_not_done H).
      * exact (error_event_is_not_done H).
Qed.

Lemma failed_generation_keeps_the_question_example :
  let env := Example.steady (Opened ["A"] (Some "socket hang up")) in
  let result := serve Server.handle env
                  (POST_chat_id 1 (Some [Example.says "hi"])) Example.one_chat in
  messages (db (fst (snd result))) = [mkMsg 1 1 "user" "hi" 103]
  /\ written (snd (snd result))
     = [Common.text_delta "A"; Common.error_event "socket hang up"].
Proof.
  cbv zeta.
  pose proof (@failed_generation_keeps_the_question
                (Example.steady (Opened ["A"] (Some "socket hang up"))) 1
                (Some [Example.says "hi"]) (Example.says "hi") "socket hang up"
                Example.one_chat (quiet_steady _ _) eq_refl eq_refl
                (fun _ => eq_refl)) as (_ & Hmsgs & _).
  split; [exact Hmsgs | reflexivity].
Defined.

(* ================================================================= *)
(** ** Reading a new chat back under the id of the header *)

Lemma new_chat_completes env ms m chunks w :
  quiet env w ->
  Common.currentUserMessage (Common.messages_or_empty ms) = Some m ->
  (forall prompt, gateway env (List.length (prompts w)) prompt = Opened chunks None) ->
  serve Server.handle env (POST_chat ms) w
  = (Normal tt,
     (ServerRun.final env (next_chat_id (db w)) (Server.userMessageText m) chunks
        (after_insert_chat env (Common.new_chat_title (Common.messages_or_empty ms)) w),
      mkRes true 200 (Common.stream_head (next_chat_id (db w)))
            (ServerRun.events chunks) None true)).
Proof.
  intros Hq Hm Hg. rewrite post_chat_new by assumption.
  unfold Server.handleChatMessages. rewrite Hm. unfold try_catch.
  rewrite (@server_attempt_completes env (next_chat_id (db w))
             (Server.userMessageText m)
             (after_insert_chat env
                (Common.new_chat_title (Common.messages_or_empty ms)) w) chunks);
    [reflexivity | apply (@quiet_later env w _ Hq); cbn; lia | | apply Hg].
  unfold has_chat. cbn [after_insert_chat db chats].
  rewrite existsb_app. cbn [existsb chat_id]. rewrite Z.eqb_refl.
  now rewrite orb_true_r.
Qed.

(** X18: [POST /chat] with a user entry, answered by the model to the end,
    puts in the [X-Chat-Id] header an id no chat had before; a
    [GET /chats/:id] on that id then answers 200 with the row of the new
    chat (the computed title, [created_at] at the insert, [updated_at] at the
    closing update) and exactly the messages of this exchange: the user
    message, then the reply unless it is blank. *)
Theorem new_chat_is_read_back env reqs t0 ms m chunks :
  let w := serve_all Server.handle env reqs (initial_world t0) in
  let result := serve Server.handle env (POST_chat ms) w in
  let w1 := fst (snd result) in
  let id := next_chat_id (db w) in
  let n := next_msg_id (db w) in
  let text := Server.userMessageText m in
  quiet env w ->
  Common.currentUserMessage (Common.messages_or_empty ms) = Some m ->
  (forall prompt, gateway env (List.length (prompts w)) prompt = Opened chunks None) ->
  headers (snd (snd result)) = Common.stream_head id
  /\ ~ In id (map chat_id (chats (db w)))
  /\ serve Server.handle env (GET_chats_id id) w1
     = (Normal tt,
        (after_read env (after_read env w1),
         ok_json
           (ChatWithMessages
              (mkChat id (Common.new_chat_title (Common.messages_or_empty ms))
                      (now env w) (clock w1))
              (mkUI (Js.toString n) "user" text [mkPart "text" text]
               :: (if Js.truthy (Js.trim (join chunks))
                   then [mkUI (Js.toString (n + 1)) "assistant" (join chunks)
                           [mkPart "text" (join chunks)]]
                   else []))))).
Proof.
  cbv zeta. intros Hq Hm Hg.
  pose proof (reachable_wf env reqs t0) as Hwf.
  pose proof (server_reachable_integrity env reqs t0) as Hint.
  set (w := serve_all Server.handle env reqs (initial_world t0)) in *.
  assert (Hwf1 : wf (fst (snd (serve Server.handle env (POST_chat ms) w))))
    by (apply (keeps_server_handle env (POST_chat ms) w fresh_response);
        exact Hwf).
  rewrite (@new_chat_completes env ms m chunks w Hq Hm Hg) in *.
  cbn [fst snd headers] in *.
  set (text := Server.userMessageText m) in *.
  set (t := Common.new_chat_title (Common.messages_or_empty ms)) in *.
  set (w0 := after_insert_chat env t w) in *.
  set (w1 := ServerRun.final env (next_chat_id (db w)) text chunks w0) in *.
  assert (Hmsgs : messages (db w1) = _)
    by (unfold w1; apply final_messages).
  assert (Hchats : chats (db w1)
                   = map (Sql.touch (next_chat_id (db w)) (clock w1)) (chats (db w0)))
    by exact (@final_chats env (next_chat_id (db w)) text chunks w0).
  split; [reflexivity|]. split.
  - intros Hin. apply in_map_iff in Hin. destruct Hin as (c & Hid & Hin).
    destruct Hwf as (Hc & _). rewrite Forall_forall in Hc.
    specialize (Hc c Hin). lia.
  - rewrite (@get_chat_ok env (next_chat_id (db w)) w1
               (mkChat (next_chat_id (db w)) t (now env w) (clock w1)) []).
    + rewrite (messages_of_ordered (next_chat_id (db w)) Hwf1).
      rewrite Hmsgs. cbn [w0 after_insert_chat db messages next_msg_id].
      rewrite filter_app.
      pose proof (next_chat_has_no_message Hwf Hint) as Hnone.
      unfold own_messages in Hnone. rewrite Hnone. cbn [app].
      cbn [filter msg_chat_id]. rewrite Z.eqb_refl.
      destruct (Js.truthy (Js.trim (join chunks))); cbn [filter msg_chat_id map];
        [rewrite Z.eqb_refl|]; reflexivity.
    + apply (@quiet_later env w w1 Hq).
      pose proof (final_later env (next_chat_id (db w)) text chunks w0) as Hs.
      fold w1 in Hs. cbn [w0 after_insert_chat stmts] in Hs. lia.
    + rewrite Hchats.
      rewrite (@select_rewritten _ (next_chat_id (db w)) (chats (db w0))
                 (touch_keeps_id (next_chat_id (db w)) (clock w1))).
      cbn [w0 after_insert_chat db chats]. rewrite filter_app.
      rewrite (next_chat_is_new Hwf). cbn [filter chat_id app].
      rewrite Z.eqb_refl. cbn [map]. unfold Sql.touch. cbn [chat_id].
      now rewrite Z.eqb_refl.
Qed.

Lemma new_chat_is_read_back_example :
  let env := Example.steady (Opened ["Hel"; "lo"] None) in
  let w := serve_all Server.handle env [POST_chats None] (initial_world 100) in
  let result := serve Server.handle env (POST_chat (Some [Example.says "hi"])) w in
  let w1 := fst (snd result) in
  In ("X-Chat-Id", "2") (headers (snd (snd result)))
  /\ serve Server.handle env (GET_chats_id 2) w1
     = (Normal tt,
        (after_read env (after_read env w1),
         ok_json
           (ChatWithMessages (mkChat 2 "hi" 102 106)
              [mkUI "1" "user" "hi" [mkPart "text" "hi"];
               mkUI "2" "assistant" "Hello" [mkPart "text" "Hello"]]))).
Proof.
  cbv zeta.
  pose proof (@new_chat_is_read_back (Example.steady (Opened ["Hel"; "lo"] None))
                [POST_chats None] 100 (Some [Example.says "hi"])
                (Example.says "hi") ["Hel"; "lo"]
                (quiet_steady _ _) eq_refl (fun _ => eq_refl)) as (Hh & _ & Hread).
  split; [rewrite Hh; vm_compute; tauto | exact Hread].
Defined.

(* ================================================================= *)
(** ** Every request of [index2.ts] is answered *)





(* ================================================================= *)
(** ** Which entry of the request is the current user message *)

Lemma last_kept A (f : A -> bool) (l : list A) (x : A) :
  rev (filter f l) = x :: tl (rev (filter f l)) ->
  exists pre post,
    l = (pre ++ x :: post)%list /\ f x = true /\ filter f post = [].
Proof.
  induction l as [|a l IH] using rev_ind; [discriminate|].
  rewrite filter_app. cbn [filter]. destruct (f a) eqn:Ea.
  - rewrite rev_app_distr. cbn [rev app tl]. intros E. injection E as ->.
    exists l, []. repeat split; assumption.
  - rewrite app_nil_r. intros E. destruct (IH E) as (pre & post & -> & Hx & Hpost).
    exists pre, (post ++ [a])%list. repeat split.
    + now rewrite <- app_assoc.
    + exact Hx.
    + rewrite filter_app, Hpost. cbn [filter app]. now rewrite Ea.
Qed.

(** X20: the current user message is the last entry of the request with
    role [user]: no entry after it has that role; there is none exactly when
    no entry of the request has that role. Entries of other roles, and
    earlier user entries, are ignored by the send. *)
Theorem current_user_message_is_the_last (ms : list ReqMessage) :
  match Common.currentUserMessage ms with
  | Some m =>
      exists before after,
        ms = (before ++ m :: after)%list
        /\ req_role m = "user"
        /\ Forall (fun x => req_role x <> "user") after
  | None => Forall (fun x => req_role x <> "user") ms
  end.
Proof.
  unfold Common.currentUserMessage.
  destruct (rev (filter Common.is_user ms)) as [|m rest] eqn:E.
  - apply Forall_forall. intros x Hx Hrole.
    assert (Hin : In x (filter Common.is_user ms)).
    { apply filter_In. split; [exact Hx|]. unfold Common.is_user.
      now apply String.eqb_eq. }
    apply in_rev in Hin. rewrite E in Hin. destruct Hin.
  - destruct (@last_kept _ Common.is_user ms m) as (pre & post & -> & Hm & Hpost).
    { now rewrite E. }
    exists pre, post. split; [reflexivity|]. split.
    + now apply String.eqb_eq.
    + apply Forall_forall. intros x Hx Hrole.
      assert (Hin : In x (filter Common.is_user post)).
      { apply filter_In. split; [exact Hx|]. unfold Common.is_user.
        now apply String.eqb_eq. }
      rewrite Hpost in Hin. destruct Hin.
Qed.

(* ================================================================= *)
(** ** The client reads back what the server streamed *)

(** *** Lines *)

Lemma one_line_app (a b : string) : one_line (a ++ b) = one_line a && one_line b.
Proof.
  induction a as [|c a IH]; cbn [append one_line]; [reflexivity|].
  now rewrite IH, andb_assoc.
Qed.

Lemma lines_one_line (s rest : string) :
  one_line s = true ->
  Text.lines (s ++ rest) = (s ++ fst (Text.lines rest), snd (Text.lines rest)).
Proof.
  induction s as [|c s IH]; cbn [append one_line Text.lines]; intros H.
  - now destruct (Text.lines rest).
  - apply andb_prop in H. destruct H as [Hc Hs]. rewrite (IH Hs).
    apply negb_true_iff in Hc. rewrite Hc. reflexivity.
Qed.

Lemma split_closed_line (line rest : string) :
  one_line line = true ->
  Text.split_nl (line ++ Js.nl ++ Js.nl ++ rest)
  = line :: EmptyString :: Text.split_nl rest.
Proof.
  intros H. unfold Text.split_nl. rewrite (@lines_one_line line _ H).
  cbn [Js.nl append Text.lines fst snd]. destruct (Text.lines rest) as [first others].
  cbn. now rewrite append_nil_r.
Qed.

(** *** [JSON.stringify] leaves no line feed in its result *)

Lemma one_line_quote_unit (c : ascii) : one_line (Js.quote_unit c) = true.
Proof. destruct c as [[] [] [] [] [] [] [] []]; reflexivity. Qed.

Lemma one_line_quote_units (s : string) : one_line (Js.quote_units s) = true.
Proof.
  induction s as [|c s IH]; cbn [Js.quote_units]; [reflexivity|].
  now rewrite one_line_app, one_line_quote_unit, IH.
Qed.

Lemma one_line_stringify_string (s : string) : one_line (Js.stringify_string s) = true.
Proof.
  unfold Js.stringify_string. rewrite !one_line_app, one_line_quote_units.
  reflexivity.
Qed.

Lemma one_line_stringify_fields (fs : list (string * string)) :
  one_line (Js.stringify_fields fs) = true.
Proof.
  induction fs as [|[k v] fs IH]; [reflexivity|].
  destruct fs as [|kv fs]; cbn [Js.stringify_fields] in *;
    rewrite ?one_line_app, ?one_line_stringify_string; [reflexivity|].
  cbn [one_line]. rewrite ?one_line_app in *. cbn. exact IH.
Qed.

Lemma one_line_stringify_object (fs : list (string * string)) :
  one_line (Js.stringify_object fs) = true.
Proof.
  unfold Js.stringify_object. cbn [append one_line].
  rewrite one_line_app, one_line_stringify_fields. reflexivity.
Qed.

Lemma one_line_event (e : Event) : one_line (event_line e) = true.
Proof.
  destruct e; cbn [event_line]; [| reflexivity |];
    rewrite one_line_app, one_line_stringify_object; reflexivity.
Qed.

Lemma event_text_line (e : Event) : event_text e = event_line e ++ Js.nl ++ Js.nl.
Proof.
  destruct e; cbn [event_text event_line];
    unfold Common.text_delta, Common.error_event, Common.done_event;
    rewrite ?append_assoc; reflexivity.
Qed.

(** *** [JSON.parse] after [JSON.stringify] *)

Lemma scan_quote_unit (c : ascii) (units rest : string) :
  Json.scan (Js.quote_unit c ++ rest) (Some units)
  = Json.scan rest (Some (Json.snoc units c)).
Proof. destruct c as [[] [] [] [] [] [] [] []]; reflexivity. Qed.

Lemma scan_quote_units (s units rest : string) :
  Json.scan (Js.quote_units s ++ rest) (Some units)
  = Json.scan rest (Some (units ++ s)).
Proof.
  revert units. induction s as [|c s IH]; intros units; cbn [Js.quote_units].
  - now rewrite append_nil_r.
  - rewrite append_assoc, scan_quote_unit, IH. unfold Json.snoc.
    now rewrite append_assoc.
Qed.

Lemma scan_string (s rest : string) :
  Json.scan (Js.stringify_string s ++ rest) None
  = option_map (cons (Json.TStr s)) (Json.scan rest None).
Proof.
  unfold Js.stringify_string. rewrite !append_assoc.
  cbn [Js.dquote append]. cbn [Json.scan nat_of_ascii]. cbn.
  rewrite scan_quote_units. reflexivity.
Qed.

Lemma scan_colon (rest : string) :
  Json.scan (":" ++ rest) None = option_map (cons Json.TColon) (Json.scan rest None).
Proof. reflexivity. Qed.

Lemma scan_comma (rest : string) :
  Json.scan ("," ++ rest) None = option_map (cons Json.TComma) (Json.scan rest None).
Proof. reflexivity. Qed.

Lemma scan_fields (fs : list (string * string)) (rest : string) :
  Json.scan (Js.stringify_fields fs ++ rest) None
  = option_map (app (field_tokens fs)) (Json.scan rest None).
Proof.
  induction fs as [|[k v] fs IH].
  - cbn. now destruct (Json.scan rest None).
  - destruct fs as [|kv fs].
    + cbn [Js.stringify_fields field_tokens].
      rewrite !append_assoc, scan_string, scan_colon, scan_string.
      now destruct (Json.scan rest None).
    + change (Js.stringify_fields ((k, v) :: kv :: fs))
        with (Js.stringify_string k ++ ":" ++ Js.stringify_string v ++ ","
              ++ Js.stringify_fields (kv :: fs)).
      change (field_tokens ((k, v) :: kv :: fs))
        with (Json.TStr k :: Json.TColon :: Json.TStr v :: Json.TComma
              :: field_tokens (kv :: fs)).
      rewrite !append_assoc, scan_string, scan_colon, scan_string, scan_comma, IH.
      now destruct (Json.scan rest None).
Qed.

Lemma scan_object (fs : list (string * string)) :
  Json.scan (Js.stringify_object fs) None
  = Some (Json.TOpen :: field_tokens fs ++ [Json.TClose]).
Proof.
  unfold Js.stringify_object.
  change (Json.scan ("{" ++ Js.stringify_fields fs ++ "}") None)
    with (option_map (cons Json.TOpen)
            (Json.scan (Js.stringify_fields fs ++ "}") None)).
  rewrite scan_fields. reflexivity.
Qed.

Lemma fields_of_tokens (k v : string) (fs : list (string * string)) :
  Json.fields (field_tokens ((k, v) :: fs) ++ [Json.TClose]) = Some ((k, v) :: fs).
Proof.
  revert k v. induction fs as [|[k' v'] fs IH]; intros k v; [reflexivity|].
  change (field_tokens ((k, v) :: (k', v') :: fs))
    with (Json.TStr k :: Json.TColon :: Json.TStr v :: Json.TComma
          :: field_tokens ((k', v') :: fs)).
  cbn [app Json.fields]. now rewrite IH.
Qed.

(** On an object whose fields are strings, [JSON.parse] gives back what
    [JSON.stringify] was given. *)
Lemma parse_stringify (fs : list (string * string)) :
  Json.parse (Js.stringify_object fs) = Some fs.
Proof.
  unfold Json.parse. rewrite scan_object. destruct fs as [|[k v] fs];
    [reflexivity|].
  rewrite fields_of_tokens.
  destruct fs as [|[k' v'] fs]; reflexivity.
Qed.

(** *** [trim] on the text of an object *)

Lemma trimEnd_closed (s : string) (c : ascii) :
  Js.is_space c = false ->
  Js.trimEnd (s ++ String c EmptyString) = s ++ String c EmptyString.
Proof.
  intros Hc. induction s as [|a s IH]; cbn [append Js.trimEnd].
  - now rewrite Hc.
  - rewrite IH. now destruct s.
Qed.

Lemma trim_object (fs : list (string * string)) :
  Js.trim (Js.stringify_object fs) = Js.stringify_object fs.
Proof.
  unfold Js.trim, Js.stringify_object. cbn [append Js.trimStart].
  change (Js.is_space "{") with false. cbv iota.
  change (String "{" (Js.stringify_fields fs ++ "}"))
    with (("{" ++ Js.stringify_fields fs) ++ "}").
  now apply trimEnd_closed.
Qed.

(** *** The loop over the lines *)

Lemma on_line_object (acc : string) (fs : list (string * string)) :
  Client.on_line acc ("data: " ++ Js.stringify_object fs)
  = match Json.get "textDelta" fs with
    | Some textDelta => if Js.truthy textDelta then acc ++ textDelta else acc
    | None => acc
    end.
Proof.
  unfold Client.on_line.
  change (Text.startsWith "data: " ("data: " ++ Js.stringify_object fs)) with true.
  cbv iota zeta.
  change (Text.slice 6 ("data: " ++ Js.stringify_object fs))
    with (Js.stringify_object fs).
  rewrite trim_object, parse_stringify. reflexivity.
Qed.

Lemma on_line_event (acc : string) (e : Event) :
  Client.on_line acc (event_line e) = acc ++ carried e.
Proof.
  destruct e as [content| |message]; cbn [event_line carried].
  - rewrite on_line_object.
    change (Json.get "textDelta" [("type", "text-delta"); ("textDelta", content)])
      with (Some content).
    destruct content; [now rewrite append_nil_r | reflexivity].
  - now rewrite append_nil_r.
  - rewrite on_line_object. now rewrite append_nil_r.
Qed.

Lemma on_data_events (evs : list Event) (acc : string) :
  Client.on_data acc (join (map event_text evs))
  = acc ++ join (map carried evs).
Proof.
  unfold Client.on_data. revert acc.
  induction evs as [|e evs IH]; intros acc; cbn [map join fold_right].
  - cbn. now rewrite append_nil_r.
  - rewrite event_text_line, !append_assoc.
    rewrite (@split_closed_line (event_line e) _ (one_line_event e)).
    cbn [fold_left]. rewrite on_line_event.
    change (Client.on_line (acc ++ carried e) EmptyString) with (acc ++ carried e).
    fold (join (map event_text evs)). rewrite IH. now rewrite append_assoc.
Qed.

Lemma join_app (a b : list string) : join (a ++ b) = join a ++ join b.
Proof.
  induction a as [|x a IH]; cbn [app join fold_right]; [reflexivity|].
  fold (join (a ++ b)). fold (join a). now rewrite IH, append_assoc.
Qed.

Lemma sendMessage_events (groups : list (list Event)) (acc : string) :
  fold_left Client.on_data (map (fun g => join (map event_text g)) groups) acc
  = acc ++ join (map carried (List.concat groups)).
Proof.
  revert acc. induction groups as [|g groups IH]; intros acc;
    cbn [map fold_left List.concat join fold_right].
  - now rewrite append_nil_r.
  - now rewrite on_data_events, IH, map_app, join_app, append_assoc.
Qed.

(** *** The events of a send *)

Lemma grouped_events (f : Event -> string) (groups : list (list string)) :
  forall evs : list Event,
    List.concat groups = map f evs ->
    exists parts : list (list Event),
      groups = map (map f) parts /\ List.concat parts = evs.
Proof.
  induction groups as [|g groups IH]; intros evs H; cbn [List.concat] in H.
  - exists []. split; [reflexivity|]. destruct evs; [reflexivity | discriminate].
  - symmetry in H. apply map_eq_app in H.
    destruct H as (evs1 & evs2 & -> & H1 & H2).
    destruct (IH evs2 (eq_sym H2)) as (parts & -> & <-).
    exists (evs1 :: parts). split; [cbn [map]; now rewrite H1 | reflexivity].
Qed.

Lemma send_written env i ms m chunks failure w :
  quiet env w -> has_chat i w = true ->
  Common.currentUserMessage (Common.messages_or_empty ms) = Some m ->
  (forall prompt, gateway env (List.length (prompts w)) prompt = Opened chunks failure) ->
  written (snd (snd (serve Server.handle env (POST_chat_id i ms) w)))
  = map event_text
      (map Delta (filter Js.truthy chunks)
       ++ [match failure with Some message => Failed message | None => Done end]).
Proof.
  intros Hq Hc Hm Hg. rewrite map_app, map_map. cbn [map event_text].
  destruct failure as [message|].
  - rewrite post_chat_id_existing by assumption.
    unfold Server.handleChatMessages. rewrite Hm. unfold try_catch.
    rewrite (@server_attempt_interrupted env i (Server.userMessageText m)
               (after_read env w) chunks message);
      [| apply (@quiet_later env w _ Hq); cbn; lia | exact Hc | apply Hg].
    rewrite server_report_spec by reflexivity. reflexivity.
  - rewrite (@send_completes env i ms m chunks w Hq Hc Hm Hg). reflexivity.
Qed.

(** X21: the reader of the test client gets back what the model sent. For
    a send to an existing chat whose stream was opened, whether it completed
    or broke off, and however the events written by [server.ts] are grouped
    into the chunks the client receives, as long as every chunk is made of
    whole events, the text [sendMessage] resolves with is the concatenation
    of the fragments of the model: line feeds, quotes and control characters
    in a fragment do not break the line-based reading, and the [[DONE]] and
    error events add nothing. *)
Theorem client_reads_the_fragments_back env i ms m chunks failure w
        (groups : list (list string)) :
  quiet env w -> has_chat i w = true ->
  Common.currentUserMessage (Common.messages_or_empty ms) = Some m ->
  (forall prompt, gateway env (List.length (prompts w)) prompt = Opened chunks failure) ->
  List.concat groups
  = written (snd (snd (serve Server.handle env (POST_chat_id i ms) w))) ->
  Client.sendMessage (map join groups) = join chunks.
Proof.
  intros Hq Hc Hm Hg Hgroups.
  rewrite (@send_written env i ms m chunks failure w Hq Hc Hm Hg) in Hgroups.
  destruct (grouped_events event_text groups _ Hgroups) as (parts & -> & Hparts).
  unfold Client.sendMessage. rewrite map_map.
  rewrite (sendMessage_events parts EmptyString), Hparts.
  cbn [append]. rewrite map_app, join_app, map_map. cbn [carried map].
  rewrite map_id, join_truthy.
  destruct failure; cbn [carried join fold_right]; now rewrite append_nil_r.
Qed.

Lemma client_reads_the_fragments_back_example :
  let broken := "l" ++ Js.nl ++ "o " ++ Js.dquote in
  let groups := [[Common.text_delta "Hel"];
                 [Common.text_delta broken; Common.done_event]] in
  Client.sendMessage (map join groups) = "Hel" ++ broken.
Proof.
  cbv zeta.
  exact (@client_reads_the_fragments_back
           (Example.steady
              (Opened ["Hel"; EmptyString; "l" ++ Js.nl ++ "o " ++ Js.dquote] None))
           1 (Some [Example.says "hi"]) (Example.says "hi")
           ["Hel"; EmptyString; "l" ++ Js.nl ++ "o " ++ Js.dquote] None
           Example.one_chat
           [[Common.text_delta "Hel"];
            [Common.text_delta ("l" ++ Js.nl ++ "o " ++ Js.dquote); Common.done_event]]
           (quiet_steady _ _) eq_refl eq_refl (fun _ => eq_refl)
           ltac:(vm_compute; reflexivity)).
Defined.

(* ================================================================= *)
(** ** The answer to a send is an error in JSON or a closed event stream *)







(* ================================================================= *)
(** ** Integrity under any interleaving of the statements *)

Lemma exec_keeps_integrity (st : Statement) (now : Z) (d : DB) :
  sent_by_handler st -> integrity d -> integrity (exec st now d).
Proof.
  intros Hst Hd. destruct st; cbn [exec sent_by_handler] in *;
    try exact Hd.
  - now apply integrity_insert_chat.
  - now apply integrity_insert_message.
  - now apply integrity_update_title.
  - now apply integrity_touch_chat.
  - now apply integrity_delete_chat.
Qed.

(** X23: however the statements of concurrent requests interleave, from
    the fresh database on, every message belongs to a chat that is still
    there, has one of the two roles and an id of its own: the foreign key
    refuses an insert that comes after the chat was deleted, and the cascade
    removes the messages with their chat. *)
Theorem integrity_under_interleaving (sts : list (Statement * N)) (t0 : Z) :
  Forall (fun s => sent_by_handler (fst s)) sts ->
  integrity (fst (exec_all sts t0 empty_db)).
Proof.
  intros Hsts. pose proof integrity_empty as Hd. revert Hd.
  generalize empty_db as d. revert t0.
  induction Hsts as [|[st dt] sts Hst _ IH]; intros t0 d Hd; cbn [exec_all].
  - exact Hd.
  - apply IH. now apply exec_keeps_integrity.
Qed.

(** A delete lands between the two inserts of a send: the reply that comes
    late is refused by the foreign key, and no orphan is left. *)
Lemma integrity_under_interleaving_example :
  let sts := [(InsertChat "A", 1%N); (InsertMessage 1 "user" "hi", 1%N);
              (DeleteChat 1, 1%N); (InsertMessage 1 "assistant" "late", 1%N);
              (TouchChat 1, 1%N)] in
  integrity (fst (exec_all sts 100 empty_db))
  /\ messages (fst (exec_all sts 100 empty_db)) = [].
Proof.
  cbv zeta. split; [|reflexivity].
  apply (@integrity_under_interleaving
           [(InsertChat "A", 1%N); (InsertMessage 1 "user" "hi", 1%N);
            (DeleteChat 1, 1%N); (InsertMessage 1 "assistant" "late", 1%N);
            (TouchChat 1, 1%N)] 100).
  repeat (apply Forall_cons; [cbn; auto|]). apply Forall_nil.
Defined.
